(** * options-data-api: validation, partitioning and persistence

    A shallow embedding of [src/utils.ts], [src/types.ts] and
    [src/data-processor.ts], and the properties of the transform /
    partition / persist pipeline proved over it.

    Conventions of the embedding.
    - A JavaScript [number] is an IEEE-754 binary64 value: Rocq's primitive
      [float].  Comparisons, [*], [/] and [-] are the primitive operations;
      [Math.round], [Math.max], truthiness and [Number.isInteger] are
      written out below from their ECMAScript definitions.
    - A JavaScript string is a [string] whose characters are code units
      below 256.  A field that can be [undefined] at run time (a CSV column
      that the header does not name) is an [option].
    - Message texts are kept as constructors that carry the interpolated
      values ([`Invalid bid: ${raw.bid}`] is [InvalidBid raw.bid]).
    - Asynchronous code is written in a state-and-exception monad over a
      [World] that records every effect (directory creation, file write,
      sleep) in order.  Console output, wall-clock fields and garbage
      collection hints are left out. *)

From Stdlib Require Import ZArith Floats String Ascii List Bool Lia.
From Stdlib Require Import Permutation Sorted OrderedTypeEx.
From Stdlib Require Uint63.
Import ListNotations.

Local Open Scope Z_scope.

(* ================================================================== *)
(** * JavaScript built-ins used by the sources *)
(* ================================================================== *)

Module JS.

(** ** Numbers *)

(** [Number(v)] for a value that is a number or [undefined]. *)
Definition Number (v : option float) : float :=
  match v with
  | Some x => x
  | None => PrimFloat.nan
  end.

Definition isNaN (x : float) : bool := PrimFloat.is_nan x.

(** ToBoolean on a number: [NaN], [+0] and [-0] are falsy. *)
Definition truthy (x : float) : bool :=
  negb (isNaN x || PrimFloat.eqb x 0%float).

(** [x || d] on numbers. *)
Definition or_else (x d : float) : float := if truthy x then x else d.

(** [Math.max(a, b)]: [NaN] if either is [NaN]; [+0] is larger than [-0]. *)
Definition Math_max (a b : float) : float :=
  if isNaN a || isNaN b then PrimFloat.nan
  else if PrimFloat.ltb a b then b
  else if PrimFloat.ltb b a then a
  else if PrimFloat.get_sign a then b else a.

(** The float that holds the integer [n] (exact for [|n| <= 2^53]). *)
Definition of_integer (n : Z) : float :=
  if n <? 0 then PrimFloat.opp (PrimFloat.of_uint63 (Uint63Axioms.of_Z (- n)))
  else PrimFloat.of_uint63 (Uint63Axioms.of_Z n).

(** [Math.round(x)]: the integer closest to [x], ties towards [+∞], that
    is [floor(x + 1/2)] computed exactly; [NaN], the infinities and the
    zeros are returned unchanged, and a result of zero keeps the sign of
    [x].  A finite [x] is [±m·2^e]; for [e >= 0] it is an integer
    already. *)
Definition Math_round (x : float) : float :=
  match Prim2SF x with
  | S754_finite s m e =>
      if 0 <=? e then x
      else
        let n := (2 * cond_Zopp s (Zpos m) + 2 ^ (- e)) / 2 ^ (1 - e) in
        if n =? 0 then (if s then (-0)%float else 0%float) else of_integer n
  | _ => x
  end.

(** [Number.isInteger(x)]. *)
Definition Number_isInteger (x : float) : bool :=
  match Prim2SF x with
  | S754_zero _ => true
  | S754_finite _ m e => if 0 <=? e then true else (Zpos m mod 2 ^ (- e) =? 0)
  | _ => false
  end.

(** ** Strings *)

(** White space of [String.prototype.trim] among the code units below
    256: TAB, LF, VT, FF, CR, SPACE and NBSP. *)
Definition isWhiteSpace (c : ascii) : bool :=
  let n := N.of_nat (nat_of_ascii c) in
  (((9 <=? n) && (n <=? 13)) || (n =? 32) || (n =? 160))%N.

Fixpoint trimStart (s : string) : string :=
  match s with
  | String c s' => if isWhiteSpace c then trimStart s' else s
  | EmptyString => EmptyString
  end.

Fixpoint trimEnd (s : string) : string :=
  match s with
  | String c s' =>
      match trimEnd s' with
      | EmptyString => if isWhiteSpace c then EmptyString else String c EmptyString
      | t => String c t
      end
  | EmptyString => EmptyString
  end.

Definition trim (s : string) : string := trimEnd (trimStart s).

Definition mapChars (f : ascii -> ascii) : string -> string :=
  fix go s :=
    match s with
    | String c s' => String (f c) (go s')
    | EmptyString => EmptyString
    end.

Definition lowerChar (c : ascii) : ascii :=
  let n := nat_of_ascii c in
  if ((65 <=? n) && (n <=? 90))%nat then ascii_of_nat (n + 32) else c.

Definition upperChar (c : ascii) : ascii :=
  let n := nat_of_ascii c in
  if ((97 <=? n) && (n <=? 122))%nat then ascii_of_nat (n - 32) else c.

(** [toLowerCase] and [toUpperCase] on the letters [A-Z], [a-z]. *)
Definition toLowerCase : string -> string := mapChars lowerChar.
Definition toUpperCase : string -> string := mapChars upperChar.

(** ToBoolean on a string that may be [undefined]. *)
Definition truthyStr (s : option string) : bool :=
  match s with
  | Some (String _ _) => true
  | _ => false
  end.

(** [s.split(sep)] for a one-character separator. *)
Fixpoint split (sep : ascii) (s : string) : list string :=
  match s with
  | EmptyString => [EmptyString]
  | String c s' =>
      if Ascii.eqb c sep then EmptyString :: split sep s'
      else match split sep s' with
           | p :: ps => String c p :: ps
           | [] => [String c EmptyString]
           end
  end.

Definition isDigit (c : ascii) : bool :=
  let n := nat_of_ascii c in ((48 <=? n) && (n <=? 57))%nat.

Definition digitValue (c : ascii) : Z := Z.of_nat (nat_of_ascii c) - 48.

(** Unary [+] on a string of decimal digits; [None] stands for [NaN]. *)
Fixpoint digitsFrom (acc : Z) (s : string) : option Z :=
  match s with
  | EmptyString => Some acc
  | String c s' => if isDigit c then digitsFrom (10 * acc + digitValue c) s' else None
  end.

Definition toNumberDigits (s : string) : option Z := digitsFrom 0 s.

(** ** Dates: the day arithmetic of ECMAScript's [Date], without time of
    day and time zone *)

Definition DayFromYear (y : Z) : Z :=
  365 * (y - 1970) + (y - 1969) / 4 - (y - 1901) / 100 + (y - 1601) / 400.

Definition InLeapYear (y : Z) : bool :=
  ((y mod 4 =? 0) && negb (y mod 100 =? 0)) || (y mod 400 =? 0).

Definition leapDay (y : Z) : Z := if InLeapYear y then 1 else 0.

(** Day within the year on which month [mn] (0-based) starts. *)
Definition monthStart (y mn : Z) : Z :=
  match mn with
  | 0 => 0
  | 1 => 31
  | 2 => 59 + leapDay y
  | 3 => 90 + leapDay y
  | 4 => 120 + leapDay y
  | 5 => 151 + leapDay y
  | 6 => 181 + leapDay y
  | 7 => 212 + leapDay y
  | 8 => 243 + leapDay y
  | 9 => 273 + leapDay y
  | 10 => 304 + leapDay y
  | _ => 334 + leapDay y
  end.

(** [MakeDay(year, month, date)]: months beyond 0..11 carry into the
    year, days beyond the month carry into the following days. *)
Definition MakeDay (year month date : Z) : Z :=
  let ym := year + month / 12 in
  let mn := month mod 12 in
  DayFromYear ym + monthStart ym mn + date - 1.

(** A [Date] object: the day number since 1970-01-01. *)
Definition Date := Z.

(** [new Date(year, monthIndex, day)]; years 0..99 mean 1900..1999. *)
Definition newDate (year monthIndex day : Z) : Date :=
  let yr := if (0 <=? year) && (year <=? 99) then 1900 + year else year in
  MakeDay yr monthIndex day.

(** [YearFromTime]: the largest [y] with [DayFromYear y <= t].  The
    estimate from the mean year length is off by at most one. *)
Definition getFullYear (t : Date) : Z :=
  let y := 1970 + (400 * t) / 146097 in
  if DayFromYear (y + 1) <=? t then y + 1
  else if t <? DayFromYear y then y - 1
  else y.

Definition DayWithinYear (t : Date) : Z := t - DayFromYear (getFullYear t).

(** [MonthFromTime], 0-based. *)
Definition getMonth (t : Date) : Z :=
  let y := getFullYear t in
  let d := DayWithinYear t in
  if d <? monthStart y 1 then 0
  else if d <? monthStart y 2 then 1
  else if d <? monthStart y 3 then 2
  else if d <? monthStart y 4 then 3
  else if d <? monthStart y 5 then 4
  else if d <? monthStart y 6 then 5
  else if d <? monthStart y 7 then 6
  else if d <? monthStart y 8 then 7
  else if d <? monthStart y 9 then 8
  else if d <? monthStart y 10 then 9
  else if d <? monthStart y 11 then 10
  else 11.

(** [DateFromTime], 1-based. *)
Definition getDate (t : Date) : Z :=
  DayWithinYear t - monthStart (getFullYear t) (getMonth t) + 1.

End JS.

(* ================================================================== *)
(** * [src/types.ts] *)
(* ================================================================== *)

Module Types.

(** [RawOptionContract]: a row as the CSV reader hands it over. *)
Module Raw.
Record RawOptionContract := {
  date : option string;
  act_symbol : option string;
  expiration : option string;
  strike : option float;
  call_put : option string;
  bid : option float;
  ask : option float;
  vol : option float;
  delta : option float;
  gamma : option float;
  theta : option float;
  vega : option float;
  rho : option float
}.
End Raw.
Export Raw (RawOptionContract).

Inductive ProcessedCallPutType := call | put.

Record ProcessedOptionContract := {
  date : string;
  symbol : string;
  expiration : string;
  strike : float;
  type : ProcessedCallPutType;
  bid : float;
  ask : float;
  volume : float;
  delta : float;
  gamma : float;
  theta : float;
  vega : float;
  rho : float
}.

(** The texts pushed to [errors] by [validateContract]. *)
Inductive ValidationError :=
| MissingCriticalFields
| InvalidStrikePrice (raw : option float)
| InvalidBid (raw : option float)
| InvalidAsk (raw : option float)
| NoBidOrAskPrice
| InvalidDateFormat
| InvalidCallPutType (raw : option string).

(** The text pushed to [warnings] by [validateContract]. *)
Inductive ValidationWarning :=
| UnusualSpread (bid ask : float).

Record ValidationResult := {
  isValid : bool;
  errors : list ValidationError;
  warnings : list ValidationWarning;
  cleanedData : option ProcessedOptionContract
}.

Record StrikeRange := { min : float; max : float }.

Record SymbolData := {
  sd_symbol : string;
  contracts : list ProcessedOptionContract;
  contractCount : Z;
  expirations : list string;
  strikeRange : StrikeRange
}.

(** Error messages of the persistence layer. *)
Inductive Message :=
| HostError (text : string)
| FileTooLarge (length limit : Z)
| FailedToWriteFile (filePath : string) (cause : Message)
| FailedToCreateDirectory (dirPath : string) (cause : Message)
| SymbolProcessingFailed (symbol : string) (cause : Message)
| FailedToProcessSymbol (symbol : string) (reason : Message)
| ValidationFailed (error : ValidationError).

Inductive ErrorType :=
| validation | file_read | file_write | data_parse | memory | unknown.

Record ProcessingError := {
  pe_type : ErrorType;
  message : Message;
  row : option Z;
  pe_symbol : option string
}.

Record ProcessingStats := {
  totalRows : Z;
  validRows : Z;
  invalidRows : Z;
  uniqueSymbols : Z;
  filesSaved : Z;
  st_errors : list ProcessingError;
  st_warnings : list (Z * ValidationWarning)
}.

Record SymbolProcessingResult := {
  r_symbol : string;
  success : bool;
  r_contractCount : Z;
  fileSize : Z;
  filePath : string;
  error : option Message
}.

Record Coverage := { calls : Z; puts : Z; symbolsWithData : Z }.

Record Processing := {
  p_errors : list Message;
  p_warnings : list (Z * ValidationWarning)
}.

Record ApiMetadata := {
  dataDate : option string;
  symbolCount : Z;
  totalContracts : Z;
  processing : Processing;
  coverage : Coverage
}.

(** [CONFIG]; [MAX_CONCURRENCY] depends on the host's CPU count. *)
Module CONFIG.
Definition MAX_FILE_SIZE : Z := 50 * 1024 * 1024.
Definition MAX_CONCURRENCY (cpus : nat) : nat := Nat.min 16 cpus.
Definition DECIMAL_PRECISION : Z := 4.
Definition SYMBOLS : string := "symbols.json".
Definition METADATA : string := "metadata.json".
Definition SYMBOLS_DIR : string := "symbols".
Definition BATCH_SIZE : Z := 5000.
End CONFIG.

End Types.

(* ================================================================== *)
(** * The runtime: effects, promises, the host *)
(* ================================================================== *)

Module Runtime.
Import Types.

(** The value handed to [JSON.stringify]; a [Buffer] is the serialized
    value, and only its byte length matters to the code. *)
Inductive Json :=
| JsonSymbolData (data : SymbolData)
| JsonSymbols (symbols : list string)
| JsonMetadata (metadata : ApiMetadata).

Definition Buffer := Json.

(** What [fs.mkdir] answers: success, or an error with its optional
    [code] property and its message. *)
Inductive MkdirResult :=
| MkdirOk
| MkdirError (code : option string) (text : string).

(** The effects a run performs, oldest first. *)
Inductive Event :=
| Mkdir (dirPath : string) (ok : bool)
| WriteFile (filePath : string) (buffer : Buffer) (ok : bool)
| Sleep (ms : Z).

(** Everything outside the program: the CPU count, the environment
    variable [API_OUTPUT_PATH], the file system, which may answer
    differently depending on what happened before, and the byte length
    of a serialized value. *)
Record Host := {
  cpus : nat;
  apiOutputPath : string;
  mkdir : list Event -> string -> MkdirResult;
  writeFile : list Event -> string -> Buffer -> option string;
  byteLength : Buffer -> Z
}.

(** The state a run threads through: the effects so far and the
    processor's [stats] object. *)
Record World := {
  events : list Event;
  stats : ProcessingStats
}.

(** A settled promise. *)
Inductive Outcome (A : Type) :=
| Fulfilled (value : A)
| Rejected (reason : Message).
Arguments Fulfilled {A} value.
Arguments Rejected {A} reason.

Definition Async (A : Type) := World -> World * Outcome A.

Definition ret {A} (a : A) : Async A := fun w => (w, Fulfilled a).

Definition throw {A} (e : Message) : Async A := fun w => (w, Rejected e).

Definition bind {A B} (m : Async A) (k : A -> Async B) : Async B :=
  fun w =>
    match m w with
    | (w', Fulfilled a) => k a w'
    | (w', Rejected e) => (w', Rejected e)
    end.

Definition tryCatch {A} (m : Async A) (handler : Message -> Async A) : Async A :=
  fun w =>
    match m w with
    | (w', Fulfilled a) => (w', Fulfilled a)
    | (w', Rejected e) => handler e w'
    end.

Definition emit (e : Event) : Async unit :=
  fun w => ({| events := events w ++ [e]; stats := stats w |}, Fulfilled tt).

Definition modifyStats (f : ProcessingStats -> ProcessingStats) : Async unit :=
  fun w => ({| events := events w; stats := f (stats w) |}, Fulfilled tt).

Definition getStats : Async ProcessingStats :=
  fun w => (w, Fulfilled (stats w)).

(** [Promise.allSettled]: every promise is run to its outcome, in the
    order of the array; the outcomes come back in that order and the
    combined promise never rejects. *)
Fixpoint allSettled {A} (promises : list (Async A)) : Async (list (Outcome A)) :=
  fun w =>
    match promises with
    | [] => (w, Fulfilled [])
    | p :: ps =>
        let (w1, o) := p w in
        match allSettled ps w1 with
        | (w2, Fulfilled os) => (w2, Fulfilled (o :: os))
        | (w2, Rejected e) => (w2, Rejected e)
        end
    end.

Module Notations.
Notation "x <- m ;; k" := (bind m (fun x => k))
  (at level 61, m at next level, right associativity).
Notation "m ;;; k" := (bind m (fun _ => k))
  (at level 61, right associativity).
End Notations.

End Runtime.

(* ================================================================== *)
(** * [src/utils.ts]: validation, partitioning, persistence helpers *)
(* ================================================================== *)

Module Utils.
Import JS Types Runtime Runtime.Notations.

Definition normalizeCallPutType (t : string) : option ProcessedCallPutType :=
  let normalized := trim (toLowerCase t) in
  if String.eqb normalized "c" || String.eqb normalized "call" then Some call
  else if String.eqb normalized "p" || String.eqb normalized "put" then Some put
  else None.

(** The regular expression [/^\d{4}-\d{2}-\d{2}$/]. *)
Definition matchesDatePattern (s : string) : bool :=
  match list_ascii_of_string s with
  | [y1; y2; y3; y4; h1; m1; m2; h2; d1; d2] =>
      isDigit y1 && isDigit y2 && isDigit y3 && isDigit y4 &&
      Ascii.eqb h1 "-" &&
      isDigit m1 && isDigit m2 &&
      Ascii.eqb h2 "-" &&
      isDigit d1 && isDigit d2
  | _ => false
  end.

Definition isValidDate (dateString : string) : bool :=
  if negb (truthyStr (Some dateString)) then false
  else if negb (matchesDatePattern dateString) then false
  else
    match split "-" dateString with
    | [p0; p1; p2] =>
        match toNumberDigits p0, toNumberDigits p1, toNumberDigits p2 with
        | Some year, Some month, Some day =>
            if (year <? 1000) || (month <? 1) || (12 <? month)
               || (day <? 1) || (31 <? day)
            then false
            else
              let date := newDate year (month - 1) day in
              (getFullYear date =? year) && (getMonth date =? month - 1)
              && (getDate date =? day)
        | _, _, _ => false
        end
    | _ => false
    end.

Definition DECIMAL_MULTIPLIER : float := 10000%float.

(** [Math.round(x * DECIMAL_MULTIPLIER) / DECIMAL_MULTIPLIER]. *)
Definition roundToPrecision (x : float) : float :=
  PrimFloat.div (Math_round (PrimFloat.mul x DECIMAL_MULTIPLIER)) DECIMAL_MULTIPLIER.

Definition invalid (errs : list ValidationError) (warns : list ValidationWarning)
  : ValidationResult :=
  {| isValid := false; errors := errs; warnings := warns; cleanedData := None |}.

Definition isValidDateOpt (s : option string) : bool :=
  match s with
  | Some d => isValidDate d
  | None => false
  end.

Definition text (s : option string) : string :=
  match s with
  | Some t => t
  | None => EmptyString
  end.

Definition validateContract (raw : RawOptionContract) : ValidationResult :=
  if negb (truthyStr (option_map trim (Raw.act_symbol raw)))
     || negb (truthyStr (Raw.date raw))
     || negb (truthyStr (Raw.expiration raw))
  then invalid [MissingCriticalFields] []
  else
    let strike := Number (Raw.strike raw) in
    let bid := Number (Raw.bid raw) in
    let ask := Number (Raw.ask raw) in
    let errors1 :=
      if isNaN strike || PrimFloat.leb strike 0 then [InvalidStrikePrice (Raw.strike raw)]
      else [] in
    let errors2 :=
      errors1 ++ (if isNaN bid || PrimFloat.ltb bid 0 then [InvalidBid (Raw.bid raw)] else []) in
    let errors3 :=
      errors2 ++ (if isNaN ask || PrimFloat.ltb ask 0 then [InvalidAsk (Raw.ask raw)] else []) in
    let warnings :=
      if PrimFloat.ltb 0 bid && PrimFloat.ltb 0 ask && PrimFloat.leb ask bid
      then [UnusualSpread bid ask] else [] in
    let errors4 :=
      errors3 ++ (if PrimFloat.eqb bid 0 && PrimFloat.eqb ask 0 then [NoBidOrAskPrice] else []) in
    if (0 <? Z.of_nat (List.length errors4)) then invalid errors4 warnings
    else if negb (isValidDateOpt (Raw.date raw)) || negb (isValidDateOpt (Raw.expiration raw))
    then invalid (errors4 ++ [InvalidDateFormat]) warnings
    else
      match option_map normalizeCallPutType (Raw.call_put raw) with
      | Some (Some type) =>
          {| isValid := true;
             errors := errors4;
             warnings := warnings;
             cleanedData := Some
               {| date := trim (text (Raw.date raw));
                  symbol := toUpperCase (trim (text (Raw.act_symbol raw)));
                  expiration := trim (text (Raw.expiration raw));
                  strike := roundToPrecision strike;
                  type := type;
                  bid := roundToPrecision bid;
                  ask := roundToPrecision ask;
                  volume := Math_max 0 (or_else (Number (Raw.vol raw)) 0);
                  delta := roundToPrecision (or_else (Number (Raw.delta raw)) 0);
                  gamma := roundToPrecision (or_else (Number (Raw.gamma raw)) 0);
                  theta := roundToPrecision (or_else (Number (Raw.theta raw)) 0);
                  vega := roundToPrecision (or_else (Number (Raw.vega raw)) 0);
                  rho := roundToPrecision (or_else (Number (Raw.rho raw)) 0) |} |}
      | _ => invalid (errors4 ++ [InvalidCallPutType (Raw.call_put raw)]) warnings
      end.

(** ** Partitioning *)

(** A [Map<string, V>]: its entries in insertion order, keys distinct. *)
Definition JsMap (V : Type) := list (string * V).

Fixpoint get {V} (m : JsMap V) (key : string) : option V :=
  match m with
  | [] => None
  | (k, v) :: m' => if String.eqb k key then Some v else get m' key
  end.

Definition keys {V} (m : JsMap V) : list string := map fst m.
Definition values {V} (m : JsMap V) : list V := map snd m.

(** One iteration of the first pass: fetch the symbol's array, creating
    an empty one at the end of the map if there is none, and push. *)
Fixpoint pushContract (contract : ProcessedOptionContract)
         (grouped : JsMap (list ProcessedOptionContract))
  : JsMap (list ProcessedOptionContract) :=
  match grouped with
  | [] => [(symbol contract, [contract])]
  | (k, symbolContracts) :: rest =>
      if String.eqb k (symbol contract)
      then (k, symbolContracts ++ [contract]) :: rest
      else (k, symbolContracts) :: pushContract contract rest
  end.

Definition groupFirstPass (contracts : list ProcessedOptionContract)
  : JsMap (list ProcessedOptionContract) :=
  fold_left (fun grouped contract => pushContract contract grouped) contracts [].

Definition compareContracts (a b : ProcessedOptionContract) : float :=
  if negb (String.eqb (expiration a) (expiration b)) then
    if String.ltb (expiration a) (expiration b) then (-1)%float else 1%float
  else
    match type a, type b with
    | call, put => (-1)%float
    | put, call => 1%float
    | _, _ => PrimFloat.sub (strike a) (strike b)
    end.

(** [Array.prototype.sort(comparefn)]: a stable sort; [x] goes behind [y]
    when [comparefn(x, y) > 0], and a [NaN] from the comparator counts as
    [0].  Elements are inserted from the back, so an element stays in
    front of the later elements it ties with. *)
Section Sort.
Context {A : Type} (comparefn : A -> A -> float).

Fixpoint insertSorted (x : A) (l : list A) : list A :=
  match l with
  | [] => [x]
  | y :: l' =>
      if PrimFloat.ltb 0 (comparefn x y) then y :: insertSorted x l'
      else x :: l
  end.

Fixpoint sort (l : list A) : list A :=
  match l with
  | [] => []
  | x :: l' => insertSorted x (sort l')
  end.
End Sort.

Definition sortGroup (contracts : list ProcessedOptionContract)
  : list ProcessedOptionContract :=
  if (1 <? Z.of_nat (List.length contracts)) then sort compareContracts contracts
  else contracts.

Definition groupBySymbol (contracts : list ProcessedOptionContract)
  : JsMap (list ProcessedOptionContract) :=
  map (fun entry => (fst entry, sortGroup (snd entry))) (groupFirstPass contracts).

(** ** Persistence helpers *)

(** [path.join] and [path.dirname] on paths without [.], [..] and
    doubled separators. *)
Definition join (a b : string) : string := a ++ "/" ++ b.

Fixpoint dirOf (p : string) : option string :=
  match p with
  | EmptyString => None
  | String c p' =>
      match dirOf p' with
      | Some d => Some (String c d)
      | None => if Ascii.eqb c "/" then Some EmptyString else None
      end
  end.

Definition dirname (p : string) : string :=
  match dirOf p with
  | Some EmptyString => "/"
  | Some d => d
  | None => "."
  end.

Definition createError (t : ErrorType) (msg : Message) (row : option Z)
           (symbol : option string) : ProcessingError :=
  {| pe_type := t; message := msg; row := row; pe_symbol := symbol |}.

Definition convertJsonToBuffer (data : Json) : Buffer := data.

(** [Array.from(new Set(array))]: first occurrences, in order. *)
Fixpoint getUniqueValues (array : list string) : list string :=
  match array with
  | [] => []
  | x :: rest =>
      x :: filter (fun y => negb (String.eqb x y)) (getUniqueValues rest)
  end.

(** The default comparator of [sort()] on strings. *)
Definition defaultCompare (x y : string) : float :=
  if String.ltb x y then (-1)%float
  else if String.ltb y x then 1%float else 0%float.

Definition getStrikeRange (contracts : list ProcessedOptionContract) : StrikeRange :=
  match contracts with
  | [] => {| min := 0; max := 0 |}
  | _ =>
      fold_left
        (fun range contract =>
           {| min := if PrimFloat.ltb (strike contract) (min range)
                     then strike contract else min range;
              max := if PrimFloat.ltb (max range) (strike contract)
                     then strike contract else max range |})
        contracts {| min := infinity; max := neg_infinity |}
  end.

Section Host.
Variable host : Host.

Definition sleep (ms : Z) : Async unit := emit (Sleep ms).

Definition ensureDir (dirPath : string) : Async unit :=
  fun w =>
    match mkdir host (events w) dirPath with
    | MkdirOk => emit (Mkdir dirPath true) w
    | MkdirError code msg =>
        (emit (Mkdir dirPath false) ;;;
         match code with
         | Some c =>
             if negb (String.eqb c "EEXIST")
             then throw (FailedToCreateDirectory dirPath (HostError msg))
             else ret tt
         | None => ret tt
         end) w
    end.

(** [fs.writeFile]. *)
Definition fsWriteFile (filePath : string) (buffer : Buffer) : Async unit :=
  fun w =>
    match writeFile host (events w) filePath buffer with
    | None => emit (WriteFile filePath buffer true) w
    | Some msg =>
        (emit (WriteFile filePath buffer false) ;;; throw (HostError msg)) w
    end.

Definition writeJsonFile (filePath : string) (buffer : Buffer) : Async Z :=
  if CONFIG.MAX_FILE_SIZE <? byteLength host buffer
  then throw (FileTooLarge (byteLength host buffer) CONFIG.MAX_FILE_SIZE)
  else
    tryCatch
      (fsWriteFile filePath buffer ;;; ret (byteLength host buffer))
      (fun error => throw (FailedToWriteFile filePath error)).
End Host.

(** [retry(operation, maxRetries, baseDelay)].  [remaining] is
    [maxRetries - attempt]; when it is [0] the loop ends after the failed
    attempt and [lastError] is thrown. *)
Fixpoint retryLoop {T} (operation : Async T) (baseDelay : Z)
         (remaining : nat) (attempt : Z) : Async T :=
  tryCatch operation
    (fun lastError =>
       match remaining with
       | O => throw lastError
       | S remaining' =>
           sleep (baseDelay * 2 ^ attempt) ;;;
           retryLoop operation baseDelay remaining' (attempt + 1)
       end).

Definition retry {T} (operation : Async T) (maxRetries : nat) (baseDelay : Z)
  : Async T :=
  retryLoop operation baseDelay maxRetries 0.

Definition retryDefault {T} (operation : Async T) : Async T :=
  retry operation 3 1000.

End Utils.

(* ================================================================== *)
(** * [src/data-processor.ts]: the persistence runner and the aggregator *)
(* ================================================================== *)

Module Processor.
Import JS Types Runtime Runtime.Notations Utils.

Definition initialStats : ProcessingStats :=
  {| totalRows := 0; validRows := 0; invalidRows := 0; uniqueSymbols := 0;
     filesSaved := 0; st_errors := []; st_warnings := [] |}.

Definition incrFilesSaved (s : ProcessingStats) : ProcessingStats :=
  {| totalRows := totalRows s; validRows := validRows s;
     invalidRows := invalidRows s; uniqueSymbols := uniqueSymbols s;
     filesSaved := filesSaved s + 1;
     st_errors := st_errors s; st_warnings := st_warnings s |}.

Definition pushError (e : ProcessingError) (s : ProcessingStats) : ProcessingStats :=
  {| totalRows := totalRows s; validRows := validRows s;
     invalidRows := invalidRows s; uniqueSymbols := uniqueSymbols s;
     filesSaved := filesSaved s;
     st_errors := st_errors s ++ [e]; st_warnings := st_warnings s |}.

Section Host.
Variable host : Host.

Definition symbolFilePath (symbol : string) : string :=
  join (join (apiOutputPath host) CONFIG.SYMBOLS_DIR) (symbol ++ ".json").

Definition buildSymbolData (symbol : string)
           (contracts : list ProcessedOptionContract) : SymbolData :=
  {| sd_symbol := symbol;
     contracts := contracts;
     contractCount := Z.of_nat (List.length contracts);
     expirations := sort defaultCompare (getUniqueValues (map expiration contracts));
     strikeRange := getStrikeRange contracts |}.

Definition processSymbol (symbol : string)
           (contracts : list ProcessedOptionContract)
  : Async SymbolProcessingResult :=
  tryCatch
    (let symbolData := buildSymbolData symbol contracts in
     let filePath := symbolFilePath symbol in
     ensureDir host (dirname filePath) ;;;
     let fileBuffer := convertJsonToBuffer (JsonSymbolData symbolData) in
     writeResult <- retryDefault (writeJsonFile host filePath fileBuffer) ;;
     modifyStats incrFilesSaved ;;;
     ret {| r_symbol := symbol;
            success := true;
            r_contractCount := Z.of_nat (List.length contracts);
            fileSize := writeResult;
            filePath := filePath;
            error := None |})
    (fun error => throw (SymbolProcessingFailed symbol error)).

(** The body of [batchResults.forEach]. *)
Definition collectResult (acc : World * list SymbolProcessingResult)
           (entry : string * Outcome SymbolProcessingResult)
  : World * list SymbolProcessingResult :=
  let (w, results) := acc in
  let (symbol, result) := entry in
  match result with
  | Fulfilled value => (w, results ++ [value])
  | Rejected reason =>
      let error :=
        createError file_write (FailedToProcessSymbol symbol reason)
                    None (Some symbol) in
      (fst (modifyStats (pushError error) w),
       results ++ [{| r_symbol := symbol;
                      success := false;
                      r_contractCount := 0;
                      fileSize := 0;
                      filePath := EmptyString;
                      error := Some (message error) |}])
  end.

(** One wave: the batch's promises are started together and awaited
    with [Promise.allSettled]; then the outcomes are collected in the
    order of the batch. *)
Definition processBatch
           (symbolGroups : JsMap (list ProcessedOptionContract))
           (batch : list string)
           (acc : World * list SymbolProcessingResult)
  : World * list SymbolProcessingResult :=
  let (w, results) := acc in
  let batchPromises :=
    map (fun symbol =>
           processSymbol symbol
             (match get symbolGroups symbol with
              | Some contracts => contracts
              | None => []
              end))
        batch in
  match allSettled batchPromises w with
  | (w1, Fulfilled batchResults) =>
      fold_left collectResult (combine batch batchResults) (w1, results)
  | (w1, Rejected _) => (w1, results)
  end.

(** The loop [for (let i = 0; i < symbols.length; i += concurrency)].
    [None]: the fuel ran out before [i] reached the end, which happens
    only if [concurrency] is [0]. *)
Fixpoint waveLoop (fuel : nat)
         (symbolGroups : JsMap (list ProcessedOptionContract))
         (symbols : list string) (concurrency : nat) (i : nat)
         (acc : World * list SymbolProcessingResult)
  : option (World * list SymbolProcessingResult) :=
  if (List.length symbols <=? i)%nat then Some acc
  else
    match fuel with
    | O => None
    | S fuel' =>
        let batch := firstn concurrency (skipn i symbols) in
        waveLoop fuel' symbolGroups symbols concurrency (i + concurrency)
                 (processBatch symbolGroups batch acc)
    end.

Definition processSymbols
           (symbolGroups : JsMap (list ProcessedOptionContract))
           (w : World)
  : option (World * list SymbolProcessingResult) :=
  let symbols := keys symbolGroups in
  let concurrency :=
    Nat.min (CONFIG.MAX_CONCURRENCY (cpus host)) (List.length symbols) in
  waveLoop (List.length symbols) symbolGroups symbols concurrency 0 (w, []).

(** The accumulation loop of [generateApiFiles]:
    [(totalContracts, calls, firstContract)]. *)
Definition countContracts
           (acc : Z * Z * option ProcessedOptionContract)
           (contracts : list ProcessedOptionContract)
  : Z * Z * option ProcessedOptionContract :=
  let '(totalContracts, calls, firstContract) := acc in
  fold_left
    (fun (a : Z * Z * option ProcessedOptionContract) contract =>
       let '(t, c, f) := a in
       (t,
        match type contract with call => c + 1 | put => c end,
        match f with
        | None => if (0 <? Z.of_nat (List.length contracts)) then hd_error contracts else None
        | Some _ => f
        end))
    contracts
    (totalContracts + Z.of_nat (List.length contracts), calls, firstContract).

Definition buildMetadata
           (symbolGroups : JsMap (list ProcessedOptionContract))
           (successfulResults : list SymbolProcessingResult)
           (s : ProcessingStats) : ApiMetadata :=
  let '(totalContracts, calls, firstContract) :=
    fold_left countContracts (values symbolGroups) (0, 0, None) in
  let puts := totalContracts - calls in
  let dataDate :=
    match firstContract with
    | Some c => if truthyStr (Some (date c)) then Some (date c) else None
    | None => None
    end in
  {| dataDate := dataDate;
     symbolCount := Z.of_nat (List.length successfulResults);
     totalContracts := totalContracts;
     processing :=
       {| p_errors := map message (st_errors s);
          p_warnings := firstn 100 (st_warnings s) |};
     coverage :=
       {| calls := calls;
          puts := puts;
          symbolsWithData := Z.of_nat (List.length successfulResults) |} |}.

Definition symbolsPath : string := join (apiOutputPath host) CONFIG.SYMBOLS.
Definition metadataPath : string := join (apiOutputPath host) CONFIG.METADATA.

Definition generateApiFiles
           (symbolGroups : JsMap (list ProcessedOptionContract))
           (processingResults : list SymbolProcessingResult)
  : Async unit :=
  let successfulResults := filter success processingResults in
  let symbols := sort defaultCompare (keys symbolGroups) in
  ensureDir host (dirname symbolsPath) ;;;
  let symbolFileBuffer := convertJsonToBuffer (JsonSymbols symbols) in
  _ <- writeJsonFile host symbolsPath symbolFileBuffer ;;
  modifyStats incrFilesSaved ;;;
  s <- getStats ;;
  let metadata := buildMetadata symbolGroups successfulResults s in
  ensureDir host (dirname metadataPath) ;;;
  let metadataFileBuffer := convertJsonToBuffer (JsonMetadata metadata) in
  _ <- writeJsonFile host metadataPath metadataFileBuffer ;;
  modifyStats incrFilesSaved.

(** Steps 5 and 6 of [process]: persist the partitions, then the two
    aggregate files.  [None] if the wave loop does not end. *)
Definition persistAll
           (symbolGroups : JsMap (list ProcessedOptionContract))
           (w : World)
  : option (World * Outcome (list SymbolProcessingResult)) :=
  match processSymbols symbolGroups w with
  | None => None
  | Some (w1, processingResults) =>
      match generateApiFiles symbolGroups processingResults w1 with
      | (w2, Fulfilled _) => Some (w2, Fulfilled processingResults)
      | (w2, Rejected e) => Some (w2, Rejected e)
      end
  end.
End Host.

End Processor.

(* ================================================================== *)
(** * Notions used to state the properties *)
(* ================================================================== *)

Module FloatOrder.

(** An order-preserving key for the spec floats other than NaN. *)
Definition fkey (x : spec_float) : Z * Z * Z :=
  match x with
  | S754_infinity true => (-2, 0, 0)
  | S754_finite true m e => (-1, - e, - Zpos m)
  | S754_zero _ => (0, 0, 0)
  | S754_nan => (0, 0, 0)
  | S754_finite false m e => (1, e, Zpos m)
  | S754_infinity false => (2, 0, 0)
  end.

Definition klt (a b : Z * Z * Z) : Prop :=
  let '(a1, a2, a3) := a in
  let '(b1, b2, b3) := b in
  a1 < b1 \/ (a1 = b1 /\ (a2 < b2 \/ (a2 = b2 /\ a3 < b3))).

Definition is_nanSF (x : spec_float) : bool :=
  match x with S754_nan => true | _ => false end.

Definition fk (x : float) : Z * Z * Z := fkey (Prim2SF x).

Definition SFpositive (x : spec_float) : bool :=
  SFltb (S754_zero false) x.

End FloatOrder.

Module ValidatorSpec.
Import JS Types Utils.

(** The critical-field presence gate of [validateContract]. *)
Definition passesCriticalGate (raw : RawOptionContract) : bool :=
  truthyStr (option_map trim (Raw.act_symbol raw))
  && truthyStr (Raw.date raw)
  && truthyStr (Raw.expiration raw).

(** A numeric field is malformed: it is not a number or violates its
    bound. *)
Definition strikeFails (raw : RawOptionContract) : bool :=
  isNaN (Number (Raw.strike raw)) || PrimFloat.leb (Number (Raw.strike raw)) 0.

Definition bidFails (raw : RawOptionContract) : bool :=
  isNaN (Number (Raw.bid raw)) || PrimFloat.ltb (Number (Raw.bid raw)) 0.

Definition askFails (raw : RawOptionContract) : bool :=
  isNaN (Number (Raw.ask raw)) || PrimFloat.ltb (Number (Raw.ask raw)) 0.

(** One error per malformed numeric field, in the order strike, bid, ask. *)
Definition numericErrors (raw : RawOptionContract) : list ValidationError :=
  (if strikeFails raw then [InvalidStrikePrice (Raw.strike raw)] else [])
  ++ (if bidFails raw then [InvalidBid (Raw.bid raw)] else [])
  ++ (if askFails raw then [InvalidAsk (Raw.ask raw)] else []).

(** The liveness rule: bid and ask are both exactly zero. *)
Definition livenessErrors (raw : RawOptionContract) : list ValidationError :=
  if PrimFloat.eqb (Number (Raw.bid raw)) 0 && PrimFloat.eqb (Number (Raw.ask raw)) 0
  then [NoBidOrAskPrice] else [].

(** The volume of an accepted record is a non-negative integer, and [0]
    when the raw volume is absent or not a number. *)
Definition volumeIsNonNegativeInteger (raw : RawOptionContract) : Prop :=
  forall c,
    cleanedData (validateContract raw) = Some c ->
    Number_isInteger (volume c) = true
    /\ PrimFloat.leb 0 (volume c) = true
    /\ (isNaN (Number (Raw.vol raw)) = true -> volume c = 0%float).

End ValidatorSpec.


Module DateSpec.
Import JS Types Utils.

(** Days of month [month] (1-based) in year [year]. *)
Definition daysInMonth (year month : Z) : Z :=
  match month with
  | 2 => 28 + leapDay year
  | 4 | 6 | 9 | 11 => 30
  | _ => 31
  end.

(** [YYYY-MM-DD] with the given digit characters. *)
Definition isoText (y1 y2 y3 y4 m1 m2 d1 d2 : ascii) : string :=
  String y1 (String y2 (String y3 (String y4 (String "-"
    (String m1 (String m2 (String "-" (String d1 (String d2 EmptyString))))))))).

Definition number2 (a b : ascii) : Z := 10 * digitValue a + digitValue b.

Definition number4 (a b c d : ascii) : Z :=
  1000 * digitValue a + 100 * digitValue b + 10 * digitValue c + digitValue d.

(** Rebuilding a date from year, month and day gives the same year, month
    and day back. *)
Definition reconstructs (year month day : Z) : Prop :=
  let date := newDate year (month - 1) day in
  getFullYear date = year /\ getMonth date = month - 1 /\ getDate date = day.

(** The calendar-date predicate in the words of the specification. *)
Definition calendarDate (s : string) : Prop :=
  exists y1 y2 y3 y4 m1 m2 d1 d2,
    s = isoText y1 y2 y3 y4 m1 m2 d1 d2
    /\ Forall (fun c => isDigit c = true) [y1; y2; y3; y4; m1; m2; d1; d2]
    /\ 1000 <= number4 y1 y2 y3 y4
    /\ 1 <= number2 m1 m2 <= 12
    /\ 1 <= number2 d1 d2 <= 31
    /\ reconstructs (number4 y1 y2 y3 y4) (number2 m1 m2) (number2 d1 d2).

(** The same with the reconstruction replaced by the length of the month. *)
Definition gregorianDate (s : string) : Prop :=
  exists y1 y2 y3 y4 m1 m2 d1 d2,
    s = isoText y1 y2 y3 y4 m1 m2 d1 d2
    /\ Forall (fun c => isDigit c = true) [y1; y2; y3; y4; m1; m2; d1; d2]
    /\ 1000 <= number4 y1 y2 y3 y4
    /\ 1 <= number2 m1 m2 <= 12
    /\ 1 <= number2 d1 d2 <= daysInMonth (number4 y1 y2 y3 y4) (number2 m1 m2).

End DateSpec.

Module RetrySpec.
Import Types Runtime Utils.

(** The world in which attempt [n] (0-based) starts when all the attempts
    before it failed: the world the previous attempt left, after the
    backoff sleep. *)
Fixpoint worldBefore {T} (operation : Async T) (baseDelay : Z) (w : World)
         (n : nat) : World :=
  match n with
  | O => w
  | S n' =>
      fst (sleep (baseDelay * 2 ^ Z.of_nat n')
                 (fst (operation (worldBefore operation baseDelay w n'))))
  end.

(** Attempt [n]: the world it leaves and its outcome. *)
Definition attempt {T} (operation : Async T) (baseDelay : Z) (w : World)
           (n : nat) : World * Outcome T :=
  operation (worldBefore operation baseDelay w n).

Definition isFulfilled {A} (o : Outcome A) : bool :=
  match o with
  | Fulfilled _ => true
  | Rejected _ => false
  end.

Definition isRejected {A} (o : Outcome A) : bool := negb (isFulfilled o).

End RetrySpec.

Module PersistenceSpec.
Import Types Runtime Utils Processor.

Definition isWrite (e : Event) : bool :=
  match e with
  | WriteFile _ _ _ => true
  | _ => false
  end.



(** The array a key maps to, as [processSymbols] reads it. *)
Definition contractsOf (symbolGroups : JsMap (list ProcessedOptionContract))
           (symbol : string) : list ProcessedOptionContract :=
  match get symbolGroups symbol with
  | Some contracts => contracts
  | None => []
  end.

(** The error recorded for a key whose promise was rejected. *)
Definition fileWriteError (symbol : string) (reason : Message) : ProcessingError :=
  createError file_write (FailedToProcessSymbol symbol reason) None (Some symbol).

Definition failedResult (symbol : string) (reason : Message) : SymbolProcessingResult :=
  {| r_symbol := symbol; success := false; r_contractCount := 0; fileSize := 0;
     filePath := EmptyString;
     error := Some (FailedToProcessSymbol symbol reason) |}.

(** What the [forEach] over a settled batch appends for one key. *)
Definition settledResult (entry : string * Outcome SymbolProcessingResult)
  : SymbolProcessingResult :=
  match snd entry with
  | Fulfilled value => value
  | Rejected reason => failedResult (fst entry) reason
  end.

Definition settledErrors (entry : string * Outcome SymbolProcessingResult)
  : list ProcessingError :=
  match snd entry with
  | Fulfilled _ => []
  | Rejected reason => [fileWriteError (fst entry) reason]
  end.

(** The world [w] after the effects [added]. *)
Definition afterEvents (w : World) (added : list Event) : World :=
  {| events := events w ++ added; stats := stats w |}.











End PersistenceSpec.

Module PartitionSpec.
Import JS Types Utils.

(** The records of [contracts] whose symbol is [key], in input order. *)
Definition groupOf (key : string) (contracts : list ProcessedOptionContract)
  : list ProcessedOptionContract :=
  filter (fun c => String.eqb (symbol c) key) contracts.

(** The invariant of a CleanRecord that the ordering needs: its strike is
    a number. *)
Definition strikeIsNumber (c : ProcessedOptionContract) : Prop :=
  isNaN (strike c) = false.

(** [a] may stand in front of [b]: earlier expiration; or the same
    expiration and a call in front of a put; or the same expiration and
    kind and a strike that is not larger. *)
Definition precedes (a b : ProcessedOptionContract) : Prop :=
  String.ltb (expiration a) (expiration b) = true
  \/ (expiration a = expiration b
      /\ ((type a = call /\ type b = put)
          \/ (type a = type b /\ PrimFloat.leb (strike a) (strike b) = true))).

Definition sameType (s t : ProcessedCallPutType) : bool :=
  match s, t with
  | call, call | put, put => true
  | _, _ => false
  end.

(** [a] and [b] compare equal: same expiration, same kind, equal strikes. *)
Definition tied (a b : ProcessedOptionContract) : bool :=
  String.eqb (expiration a) (expiration b)
  && sameType (type a) (type b)
  && PrimFloat.eqb (strike a) (strike b).

(** The partition of a set of valid records does not depend on the order
    in which the records come. *)
Definition partitionIgnoresInputOrder
           (l1 l2 : list ProcessedOptionContract) : Prop :=
  NoDup l1 -> Forall strikeIsNumber l1 -> Permutation l1 l2 ->
  forall key, get (groupBySymbol l1) key = get (groupBySymbol l2) key.

(** [x] goes behind [y] in [Array.prototype.sort(comparefn)]: the
    comparator is above zero. *)
Definition behind {A : Type} (comparefn : A -> A -> float) (x y : A) : bool :=
  PrimFloat.ltb 0 (comparefn x y).

(** A group as [Map.get] returns it: [undefined] when no record has the key. *)
Definition nonEmpty {A} (l : list A) : option (list A) :=
  match l with
  | [] => None
  | _ => Some l
  end.

(** The state of the map after the first pass has seen [seen]. *)
Definition groupedSoFar (m : JsMap (list ProcessedOptionContract))
           (seen : list ProcessedOptionContract) : Prop :=
  NoDup (keys m)
  /\ (forall key, get m key = nonEmpty (groupOf key seen))
  /\ Permutation (concat (values m)) seen.

End PartitionSpec.

Module RoundingSpec.
Import JS Types Utils.

(** [rec] holds the integer part of [N / D] and the position of the
    remainder relative to one half. *)
Definition located (D N : Z) (rec : shr_record) : Prop :=
  0 < D /\ 0 <= shr_m rec
  /\ 0 <= N - D * shr_m rec < D
  /\ loc_of_shr_record rec
     = (if N - D * shr_m rec =? 0 then loc_Exact
        else loc_Inexact (Z.compare (2 * (N - D * shr_m rec)) D)).

(** The mantissa of [DECIMAL_MULTIPLIER]: [10000 = scaleMantissa * 2^-39]. *)
Definition scaleMantissa : positive := 5497558138880000.

(** [2^50]: a scaled integer below it survives the division by [10000]
    and the multiplication by [10000] of a second rounding. *)
Definition roundTripLimit : float := 1125899906842624%float.

(** The integer [Math.round(x * 10000)] of [roundToPrecision x] is below
    [2^50] in magnitude. *)
Definition withinRoundingRange (x : float) : bool :=
  PrimFloat.ltb (PrimFloat.abs (Math_round (PrimFloat.mul x DECIMAL_MULTIPLIER)))
                roundTripLimit.

(** [2^36], about [6.87e10]. *)
Definition fieldLimit : float := 68719476736%float.

(** [|v| < 2^36]: a rounded field of this size comes from a scaled
    integer below [2^50]. *)
Definition smallMagnitude (v : float) : bool :=
  PrimFloat.ltb (PrimFloat.abs v) fieldLimit.

(** The fields of a cleaned contract that [validateContract] rounds. *)
Definition roundedFields (c : ProcessedOptionContract) : list float :=
  [strike c; bid c; ask c; delta c; gamma c; theta c; vega c; rho c].

(** Rounding again changes no rounded field of any cleaned contract. *)
Definition roundingIdempotent : Prop :=
  forall raw c v,
    cleanedData (validateContract raw) = Some c ->
    In v (roundedFields c) ->
    roundToPrecision v = v.

End RoundingSpec.

Module Examples.
Import JS Types Runtime Utils.
Local Open Scope string_scope.

(** A well-formed call on AAPL whose volume column holds [12.5]. *)
Definition rawFractionalVolume : RawOptionContract :=
  {| Raw.date := Some "2024-01-02"; Raw.act_symbol := Some "aapl";
     Raw.expiration := Some "2024-02-16"; Raw.strike := Some 150%float;
     Raw.call_put := Some "C"; Raw.bid := Some 1.25%float;
     Raw.ask := Some 1.5%float; Raw.vol := Some 12.5%float;
     Raw.delta := Some 0.5%float; Raw.gamma := None; Raw.theta := None;
     Raw.vega := None; Raw.rho := None |}.

Definition cleanFractionalVolume : ProcessedOptionContract :=
  {| date := "2024-01-02"; symbol := "AAPL"; expiration := "2024-02-16";
     strike := 150; type := call; bid := 1.25; ask := 1.5; volume := 12.5;
     delta := 0.5; gamma := 0; theta := 0; vega := 0; rho := 0 |}.

(** A row whose strike, bid and ask are all malformed. *)
Definition rawThreeMalformed : RawOptionContract :=
  {| Raw.date := Some "2024-01-02"; Raw.act_symbol := Some "AAPL";
     Raw.expiration := Some "2024-02-16"; Raw.strike := Some nan;
     Raw.call_put := Some "P"; Raw.bid := None;
     Raw.ask := Some (-1)%float; Raw.vol := Some 10%float;
     Raw.delta := None; Raw.gamma := None; Raw.theta := None;
     Raw.vega := None; Raw.rho := None |}.

(** ** Contracts, partitions and hosts *)

Definition contract (sym exp : string) (t : ProcessedCallPutType) (k b : float)
  : ProcessedOptionContract :=
  {| date := "2024-01-02"; symbol := sym; expiration := exp; strike := k;
     type := t; bid := b; ask := 2; volume := 10; delta := 0; gamma := 0;
     theta := 0; vega := 0; rho := 0 |}.

Definition sampleContracts : list ProcessedOptionContract :=
  [contract "AAPL" "2024-01-01" call 10 1;
   contract "MSFT" "2024-01-01" put 5 1;
   contract "AAPL" "2024-01-01" put 5 1;
   contract "BIG" "2023-12-01" call 100 1;
   contract "AAPL" "2023-12-01" call 100 1].

Definition sampleGroups : JsMap (list ProcessedOptionContract) :=
  groupBySymbol sampleContracts.

Definition initialWorld : World :=
  {| events := []; stats := Processor.initialStats |}.

(** A host that takes every write; the artifact of [BIG] serializes to
    60 000 000 bytes, everything else to 1000 bytes. *)
Definition bigHost : Host :=
  {| cpus := 4;
     apiOutputPath := "api";
     mkdir := fun _ _ => MkdirOk;
     writeFile := fun _ _ _ => None;
     byteLength := fun buffer =>
       match buffer with
       | JsonSymbolData data =>
           if String.eqb (sd_symbol data) "BIG" then 60000000%Z else 1000%Z
       | _ => 1000%Z
       end |}.

(** A host whose sink refuses the file of [MSFT] every time. *)
Definition refusingHost : Host :=
  {| cpus := 2;
     apiOutputPath := "api";
     mkdir := fun _ _ => MkdirOk;
     writeFile := fun _ filePath _ =>
       if String.eqb filePath "api/symbols/MSFT.json" then Some "EACCES" else None;
     byteLength := fun _ => 1000%Z |}.

(** A host whose sink fails the first two writes of a run. *)
Definition flakyHost : Host :=
  {| cpus := 2;
     apiOutputPath := "api";
     mkdir := fun _ _ => MkdirOk;
     writeFile := fun history _ _ =>
       if (List.length (filter PersistenceSpec.isWrite history) <? 2)%nat
       then Some "EBUSY" else None;
     byteLength := fun _ => 1000%Z |}.

(** Two different records of one symbol with the same expiration, kind
    and strike. *)
Definition tiedFirst : ProcessedOptionContract :=
  contract "AAPL" "2024-01-01" call 10 1.

Definition tiedSecond : ProcessedOptionContract :=
  contract "AAPL" "2024-01-01" call 10 1.5.

(** The group of [AAPL] in [sampleGroups]. *)
Definition sampleAaplGroup : list ProcessedOptionContract :=
  [contract "AAPL" "2023-12-01" call 100 1;
   contract "AAPL" "2024-01-01" call 10 1;
   contract "AAPL" "2024-01-01" put 5 1].

Definition sampleBuffer : Buffer := JsonSymbols ["AAPL"; "MSFT"].

(** ** Rounding *)

(** A well-formed call whose strike is [435902443669.09937], the binary64
    number [0x1.95f73dc25465cp+38], and whose delta is [0.123456]. *)
Definition rawLargeStrike : RawOptionContract :=
  {| Raw.date := Some "2024-01-02"; Raw.act_symbol := Some "BIG";
     Raw.expiration := Some "2024-02-16";
     Raw.strike := Some 0x1.95f73dc25465cp+38%float;
     Raw.call_put := Some "C"; Raw.bid := Some 1.25%float;
     Raw.ask := Some 1.5%float; Raw.vol := Some 10%float;
     Raw.delta := Some 0x1.f9acffa7eb6bfp-4%float; Raw.gamma := None;
     Raw.theta := None; Raw.vega := None; Raw.rho := None |}.

(** Its cleaned contract: the strike is [435902443669.09943], one unit in
    the last place up, and the delta is [0.1235]. *)
Definition cleanLargeStrike : ProcessedOptionContract :=
  {| date := "2024-01-02"; symbol := "BIG"; expiration := "2024-02-16";
     strike := 0x1.95f73dc25465dp+38; type := call; bid := 1.25; ask := 1.5;
     volume := 10; delta := 0x1.f9db22d0e5604p-4; gamma := 0; theta := 0;
     vega := 0; rho := 0 |}.

End Examples.

Module AcceptanceSpec.
Import JS Types Utils ValidatorSpec.

(** [normalizeCallPutType(raw.call_put)]; [None] when it throws. *)
Definition kindOf (raw : RawOptionContract) : option ProcessedCallPutType :=
  match Raw.call_put raw with
  | Some t => normalizeCallPutType t
  | None => None
  end.

(** Every check of [validateContract] passes. *)
Definition accepted (raw : RawOptionContract) : bool :=
  passesCriticalGate raw
  && negb (strikeFails raw) && negb (bidFails raw) && negb (askFails raw)
  && negb (PrimFloat.eqb (Number (Raw.bid raw)) 0 && PrimFloat.eqb (Number (Raw.ask raw)) 0)
  && isValidDateOpt (Raw.date raw) && isValidDateOpt (Raw.expiration raw)
  && match kindOf raw with Some _ => true | None => false end.

End AcceptanceSpec.

Module SignSpec.
Import JS Types Utils.

(** [z] is a number with sign bit [s]. *)
Definition signedAs (s : bool) (z : spec_float) : Prop :=
  match z with
  | S754_zero s' | S754_infinity s' | S754_finite s' _ _ => s' = s
  | S754_nan => False
  end.

(** [z'] comes from [z] without a change of sign: [NaN], the zeros and the
    infinities are kept as they are, and a finite number becomes a number
    of the same sign. *)
Definition keepsSign (z z' : spec_float) : Prop :=
  match z with
  | S754_finite s _ _ => signedAs s z'
  | _ => z' = z
  end.

End SignSpec.

Module CollectionSpec.
Import JS Types Utils.

(** Strictly ascending in the order of [<] on strings. *)
Definition ascending (l : list string) : Prop :=
  StronglySorted (fun a b => String.ltb a b = true) l.

End CollectionSpec.

Module RangeSpec.
Import JS Types Utils PartitionSpec.

(** One iteration of the loop of [getStrikeRange]. *)
Definition widen (range : StrikeRange) (contract : ProcessedOptionContract)
  : StrikeRange :=
  {| min := if PrimFloat.ltb (strike contract) (min range)
            then strike contract else min range;
     max := if PrimFloat.ltb (max range) (strike contract)
            then strike contract else max range |}.

(** [range] is the least and the greatest strike of [seen]. *)
Definition spans (range : StrikeRange) (seen : list ProcessedOptionContract) : Prop :=
  (exists c, In c seen /\ PrimFloat.eqb (min range) (strike c) = true)
  /\ (exists c, In c seen /\ PrimFloat.eqb (max range) (strike c) = true)
  /\ (forall c, In c seen ->
                PrimFloat.leb (min range) (strike c) = true
                /\ PrimFloat.leb (strike c) (max range) = true).

End RangeSpec.

Module MetadataSpec.
Import JS Types Utils Processor PartitionSpec.

(** The number of contracts of kind [t] in [l]. *)
Definition countOfType (t : ProcessedCallPutType) (l : list ProcessedOptionContract) : Z :=
  Z.of_nat (List.length (filter (fun c => sameType (type c) t) l)).

(** The contracts of all groups, group after group. *)
Definition allContracts (symbolGroups : JsMap (list ProcessedOptionContract))
  : list ProcessedOptionContract :=
  concat (values symbolGroups).

End MetadataSpec.

Module CleanSpec.
Import JS Types Utils.

(** Every numeric field of a cleaned contract. *)
Definition numericFields (c : ProcessedOptionContract) : list float :=
  [strike c; bid c; ask c; volume c; delta c; gamma c; theta c; vega c; rho c].

(** The contract is the cleaned data of some row. *)
Definition validated (c : ProcessedOptionContract) : Prop :=
  exists raw, cleanedData (validateContract raw) = Some c.

End CleanSpec.

Module ValidationModel.
Import JS Types Runtime Utils Processor.

(** ** [validateData] of [src/data-processor.ts] *)

Definition countValid (s : ProcessingStats) : ProcessingStats :=
  {| totalRows := totalRows s; validRows := validRows s + 1;
     invalidRows := invalidRows s; uniqueSymbols := uniqueSymbols s;
     filesSaved := filesSaved s;
     st_errors := st_errors s; st_warnings := st_warnings s |}.

Definition countInvalid (s : ProcessingStats) : ProcessingStats :=
  {| totalRows := totalRows s; validRows := validRows s;
     invalidRows := invalidRows s + 1; uniqueSymbols := uniqueSymbols s;
     filesSaved := filesSaved s;
     st_errors := st_errors s; st_warnings := st_warnings s |}.

Definition pushWarnings (ws : list (Z * ValidationWarning)) (s : ProcessingStats)
  : ProcessingStats :=
  {| totalRows := totalRows s; validRows := validRows s;
     invalidRows := invalidRows s; uniqueSymbols := uniqueSymbols s;
     filesSaved := filesSaved s;
     st_errors := st_errors s; st_warnings := st_warnings s ++ ws |}.

(** The error pushed for one message of a rejected row. *)
Definition validationError (rowInfo : Z) (row : RawOptionContract)
           (error : ValidationError) : ProcessingError :=
  createError validation (ValidationFailed error) (Some rowInfo) (Raw.act_symbol row).

(** The body of the inner loop for the row numbered [rowInfo].  The rows
    are the elements of the array that [parseCsv] built, so [batch[j]] is
    a row for every [j] below [batch.length]. *)
Definition validateRow (rowInfo : Z) (row : RawOptionContract)
           (acc : ProcessingStats * list ProcessedOptionContract)
  : ProcessingStats * list ProcessedOptionContract :=
  let (s, batchResults) := acc in
  let result := validateContract row in
  let s1 :=
    if (0 <? Z.of_nat (List.length (warnings result)))
    then pushWarnings (map (fun w => (rowInfo, w)) (warnings result)) s
    else s in
  match isValid result, cleanedData result with
  | true, Some cleaned => (countValid s1, batchResults ++ [cleaned])
  | _, _ =>
      (fold_left (fun s error => pushError (validationError rowInfo row error) s)
                 (errors result) (countInvalid s1),
       batchResults)
  end.

(** The inner loop [for (let j = 0; j < batch.length; j++)]; the rows
    left are [batch[j..]]. *)
Fixpoint validateBatch (i j : Z) (rows : list RawOptionContract)
         (acc : ProcessingStats * list ProcessedOptionContract)
  : ProcessingStats * list ProcessedOptionContract :=
  match rows with
  | [] => acc
  | row :: rest => validateBatch i (j + 1) rest (validateRow (i + j + 1) row acc)
  end.

(** The outer loop [for (let i = 0; i < totalRows; i += batchSize)].
    [None]: the fuel ran out, which happens only if [batchSize] is [0]. *)
Fixpoint batchLoop (fuel : nat) (rawData : list RawOptionContract)
         (batchSize i : nat)
         (acc : ProcessingStats * list ProcessedOptionContract)
  : option (ProcessingStats * list ProcessedOptionContract) :=
  if (List.length rawData <=? i)%nat then Some acc
  else
    match fuel with
    | O => None
    | S fuel' =>
        let (s, validContracts) := acc in
        let batch := firstn batchSize (skipn i rawData) in
        let (s', batchResults) := validateBatch (Z.of_nat i) 0 batch (s, []) in
        batchLoop fuel' rawData batchSize (i + batchSize)
                  (s', validContracts ++ batchResults)
    end.

Definition validateData (rawData : list RawOptionContract) (w : World)
  : option (World * list ProcessedOptionContract) :=
  match batchLoop (List.length rawData) rawData (Z.to_nat CONFIG.BATCH_SIZE) 0
                  (stats w, []) with
  | Some (s, validContracts) =>
      Some ({| events := events w; stats := s |}, validContracts)
  | None => None
  end.

End ValidationModel.

Module ValidationSpec.
Import JS Types Runtime Utils Processor ValidationModel.

(** The rows with their 1-based numbers, counting from [n]. *)
Fixpoint numberedFrom (n : Z) (rows : list RawOptionContract)
  : list (Z * RawOptionContract) :=
  match rows with
  | [] => []
  | row :: rest => (n, row) :: numberedFrom (n + 1) rest
  end.

(** The cleaned contract of a row, if it is accepted. *)
Definition cleanedOf (row : RawOptionContract) : list ProcessedOptionContract :=
  match cleanedData (validateContract row) with
  | Some cleaned => [cleaned]
  | None => []
  end.

(** The errors recorded for a numbered row: none when it is accepted. *)
Definition rowErrors (entry : Z * RawOptionContract) : list ProcessingError :=
  match cleanedData (validateContract (snd entry)) with
  | Some _ => []
  | None => map (validationError (fst entry) (snd entry))
                (errors (validateContract (snd entry)))
  end.

Definition rowWarnings (entry : Z * RawOptionContract)
  : list (Z * ValidationWarning) :=
  map (fun w => (fst entry, w)) (warnings (validateContract (snd entry))).

(** [s'] is [s] after the numbered rows [entries] were validated. *)
Definition validatedInto (s s' : ProcessingStats)
           (entries : list (Z * RawOptionContract)) : Prop :=
  let accepted := flat_map (fun entry => cleanedOf (snd entry)) entries in
  validRows s' = validRows s + Z.of_nat (List.length accepted)
  /\ invalidRows s'
     = invalidRows s + Z.of_nat (List.length entries) - Z.of_nat (List.length accepted)
  /\ st_errors s' = st_errors s ++ flat_map rowErrors entries
  /\ st_warnings s' = st_warnings s ++ flat_map rowWarnings entries
  /\ totalRows s' = totalRows s
  /\ uniqueSymbols s' = uniqueSymbols s
  /\ filesSaved s' = filesSaved s.

End ValidationSpec.

Module RunSpec.
Import JS Types Runtime Utils Processor PersistenceSpec.

(** From [w] to [w'] only events that satisfy [P] were added. *)
Definition steps (P : Event -> Prop) (w w' : World) : Prop :=
  exists added, events w' = events w ++ added /\ Forall P added.

(** The computation adds only events that satisfy [P] and leaves the
    [stats] object as it is. *)
Definition quiet {A} (P : Event -> Prop) (m : Async A) : Prop :=
  forall w, steps P w (fst (m w)) /\ stats (fst (m w)) = stats w.

(** The effects [processSymbol] may have for [symbol]: creating the
    directory of its file, writing its artifact, within the size limit, to
    its file, and the three backoff sleeps. *)
Definition symbolEffect (host : Host)
           (symbolGroups : JsMap (list ProcessedOptionContract))
           (symbol : string) (e : Event) : Prop :=
  match e with
  | Mkdir dirPath _ => dirPath = dirname (symbolFilePath host symbol)
  | WriteFile filePath buffer _ =>
      filePath = symbolFilePath host symbol
      /\ buffer = JsonSymbolData (buildSymbolData symbol (contractsOf symbolGroups symbol))
      /\ byteLength host buffer <= CONFIG.MAX_FILE_SIZE
  | Sleep ms => ms = 1000 \/ ms = 2000 \/ ms = 4000
  end.

(** The effects of [generateApiFiles]: no retry, so no sleep. *)
Definition aggregateEffect (host : Host)
           (symbolGroups : JsMap (list ProcessedOptionContract)) (e : Event) : Prop :=
  match e with
  | Mkdir dirPath _ =>
      dirPath = dirname (symbolsPath host) \/ dirPath = dirname (metadataPath host)
  | WriteFile filePath buffer _ =>
      byteLength host buffer <= CONFIG.MAX_FILE_SIZE
      /\ ((filePath = symbolsPath host
           /\ buffer = JsonSymbols (sort defaultCompare (keys symbolGroups)))
          \/ (filePath = metadataPath host /\ exists metadata, buffer = JsonMetadata metadata))
  | Sleep _ => False
  end.

(** The effects a run of [processSymbols] and [generateApiFiles] may have. *)
Definition runEffect (host : Host)
           (symbolGroups : JsMap (list ProcessedOptionContract)) (e : Event) : Prop :=
  (exists symbol, In symbol (keys symbolGroups) /\ symbolEffect host symbolGroups symbol e)
  \/ aggregateEffect host symbolGroups e.

(** The result of a key whose promise was fulfilled. *)
Definition savedResult (host : Host)
           (symbolGroups : JsMap (list ProcessedOptionContract)) (symbol : string)
  : SymbolProcessingResult :=
  {| r_symbol := symbol; success := true;
     r_contractCount := Z.of_nat (List.length (contractsOf symbolGroups symbol));
     fileSize := byteLength host
                   (JsonSymbolData (buildSymbolData symbol (contractsOf symbolGroups symbol)));
     filePath := symbolFilePath host symbol;
     error := None |}.

(** The outcome of the promise of [symbol]: fulfilled with its saved
    result, or rejected with a message that names the symbol. *)
Definition settledFor (host : Host)
           (symbolGroups : JsMap (list ProcessedOptionContract)) (symbol : string)
           (o : Outcome SymbolProcessingResult) : Prop :=
  match o with
  | Fulfilled value => value = savedResult host symbolGroups symbol
  | Rejected reason => exists cause, reason = SymbolProcessingFailed symbol cause
  end.

(** The number of fulfilled outcomes. *)
Definition fulfilledCount {A} (outcomes : list (Outcome A)) : Z :=
  Z.of_nat (List.length (filter RetrySpec.isFulfilled outcomes)).

(** From [w] to [w'] only events that satisfy [P] were added, [saved]
    files were counted, the errors [errs] were recorded, and the other
    counters were left alone. *)
Definition ran (P : Event -> Prop) (w w' : World) (saved : Z)
           (errs : list ProcessingError) : Prop :=
  steps P w w'
  /\ filesSaved (stats w') = filesSaved (stats w) + saved
  /\ st_errors (stats w') = st_errors (stats w) ++ errs
  /\ totalRows (stats w') = totalRows (stats w)
  /\ validRows (stats w') = validRows (stats w)
  /\ invalidRows (stats w') = invalidRows (stats w)
  /\ uniqueSymbols (stats w') = uniqueSymbols (stats w)
  /\ st_warnings (stats w') = st_warnings (stats w).

(** No buffer above the size limit is handed to the sink. *)
Definition withinLimit (host : Host) (e : Event) : Prop :=
  match e with
  | WriteFile _ buffer _ => byteLength host buffer <= CONFIG.MAX_FILE_SIZE
  | _ => True
  end.

End RunSpec.

Module RunSamples.
Import JS Types Runtime Utils Processor.
Local Open Scope string_scope.

(** A host whose sink takes every symbol file and refuses [symbols.json]. *)
Definition indexRefusingHost : Host :=
  {| cpus := 2;
     apiOutputPath := "api";
     mkdir := fun _ _ => MkdirOk;
     writeFile := fun _ filePath _ =>
       if String.eqb filePath "api/symbols.json" then Some "EROFS" else None;
     byteLength := fun _ => 1000%Z |}.

End RunSamples.

Module DateOrderSpec.
Import JS Types Utils DateSpec.

(** The [Date] that [isValidDate] builds from the text: [new Date(year,
    month - 1, day)] of the three numbers between the hyphens. *)
Definition dateOf (dateString : string) : option Date :=
  match split "-" dateString with
  | [p0; p1; p2] =>
      match toNumberDigits p0, toNumberDigits p1, toNumberDigits p2 with
      | Some year, Some month, Some day => Some (newDate year (month - 1) day)
      | _, _, _ => None
      end
  | _ => None
  end.

(** The day number of the day [day] of month [month] (1-based) of [year]. *)
Definition dayNumber (year month day : Z) : Z :=
  DayFromYear year + monthStart year (month - 1) + day - 1.

End DateOrderSpec.

Module BackoffSpec.
Import JS Types Runtime Utils PersistenceSpec.

(** The milliseconds slept in a history of effects. *)
Fixpoint sleptTotal (history : list Event) : Z :=
  match history with
  | [] => 0
  | Sleep ms :: rest => ms + sleptTotal rest
  | _ :: rest => sleptTotal rest
  end.

(** The operation does not sleep itself. *)
Definition neverSleeps {T} (operation : Async T) : Prop :=
  forall w, sleptTotal (events (fst (operation w))) = sleptTotal (events w).

End BackoffSpec.

Module ComparatorSpec.
Import JS Types Utils PartitionSpec.

(** [x] goes in front of [y]: the comparator is below zero. *)
Definition ahead {A : Type} (comparefn : A -> A -> float) (x y : A) : bool :=
  PrimFloat.ltb (comparefn x y) 0.

End ComparatorSpec.

Module RegroupSpec.
Import JS Types Utils PartitionSpec.

(** Every group of the map is non-empty and holds contracts of its key
    only, and no key comes twice. *)
Definition wellGrouped (m : JsMap (list ProcessedOptionContract)) : Prop :=
  NoDup (keys m)
  /\ Forall (fun entry => snd entry <> []
                          /\ Forall (fun c => symbol c = fst entry) (snd entry)) m.

End RegroupSpec.

(* ================================================================== *)
(** * Facts about binary64 comparison and subtraction *)
(* ================================================================== *)

Module FloatFacts.
Import FloatOrder.


Lemma SFcompare_nan_l y : SFcompare S754_nan y = None.
Proof. reflexivity. Qed.

Lemma SFcompare_nan_r x : SFcompare x S754_nan = None.
Proof. destruct x as [ | | |[] ? ?]; reflexivity. Qed.

Lemma SFcompare_key x y :
  is_nanSF x = false -> is_nanSF y = false ->
  exists c, SFcompare x y = Some c /\
    (c = Lt <-> klt (fkey x) (fkey y)) /\
    (c = Eq <-> fkey x = fkey y) /\
    (c = Gt <-> klt (fkey y) (fkey x)).
Proof.
  intros Hx Hy.
  destruct x as [sx|sx| |sx mx ex]; try discriminate;
    destruct y as [sy|sy| |sy my ey]; try discriminate;
    try (destruct sx); try (destruct sy); simpl;
    try (eexists; split; [reflexivity|];
         unfold klt; simpl; repeat split; intros; try discriminate; try lia;
         try congruence; fail).
  - (* both negative *)
    rewrite Pos.compare_cont_spec; simpl. change (Pos.compare mx my) with (Z.compare (Zpos mx) (Zpos my)).
    destruct (Z.compare_spec ex ey) as [He|He|He];
      [destruct (Z.compare_spec (Zpos mx) (Zpos my)) as [Hm|Hm|Hm]| |];
      (eexists; split; [reflexivity|]);
      unfold klt; simpl; repeat split; intros H; try discriminate H;
      try (injection H; intros); try lia; try congruence.
  - rewrite Pos.compare_cont_spec; simpl. change (Pos.compare mx my) with (Z.compare (Zpos mx) (Zpos my)).
    destruct (Z.compare_spec ex ey) as [He|He|He];
      [destruct (Z.compare_spec (Zpos mx) (Zpos my)) as [Hm|Hm|Hm]| |];
      (eexists; split; [reflexivity|]);
      unfold klt; simpl; repeat split; intros H; try discriminate H;
      try (injection H; intros); try lia; try congruence.
Qed.

Lemma SFcompare_refl x : is_nanSF x = false -> SFcompare x x = Some Eq.
Proof.
  intros Hx. destruct (SFcompare_key x x Hx Hx) as (c & Hc & _ & He & _).
  rewrite Hc. f_equal. now apply He.
Qed.

Lemma isNaN_spec x : PrimFloat.is_nan x = is_nanSF (Prim2SF x).
Proof.
  unfold PrimFloat.is_nan. rewrite FloatAxioms.eqb_spec. unfold SFeqb.
  destruct (is_nanSF (Prim2SF x)) eqn:E.
  - destruct (Prim2SF x); try discriminate. reflexivity.
  - now rewrite SFcompare_refl.
Qed.

Lemma ltb_nan_l x y : PrimFloat.is_nan x = true -> PrimFloat.ltb x y = false.
Proof.
  rewrite isNaN_spec, FloatAxioms.ltb_spec. unfold SFltb.
  destruct (Prim2SF x); try discriminate. reflexivity.
Qed.

Lemma ltb_nan_r x y : PrimFloat.is_nan y = true -> PrimFloat.ltb x y = false.
Proof.
  rewrite isNaN_spec, FloatAxioms.ltb_spec. unfold SFltb.
  destruct (Prim2SF y); try discriminate. now rewrite SFcompare_nan_r.
Qed.

Lemma eqb_nan_l x y : PrimFloat.is_nan x = true -> PrimFloat.eqb x y = false.
Proof.
  rewrite isNaN_spec, FloatAxioms.eqb_spec. unfold SFeqb.
  destruct (Prim2SF x); try discriminate. reflexivity.
Qed.

Lemma eqb_nan_r x y : PrimFloat.is_nan y = true -> PrimFloat.eqb x y = false.
Proof.
  rewrite isNaN_spec, FloatAxioms.eqb_spec. unfold SFeqb.
  destruct (Prim2SF y); try discriminate. now rewrite SFcompare_nan_r.
Qed.

Lemma leb_nan_l x y : PrimFloat.is_nan x = true -> PrimFloat.leb x y = false.
Proof.
  rewrite isNaN_spec, FloatAxioms.leb_spec. unfold SFleb.
  destruct (Prim2SF x); try discriminate. reflexivity.
Qed.

Lemma leb_nan_r x y : PrimFloat.is_nan y = true -> PrimFloat.leb x y = false.
Proof.
  rewrite isNaN_spec, FloatAxioms.leb_spec. unfold SFleb.
  destruct (Prim2SF y); try discriminate. now rewrite SFcompare_nan_r.
Qed.

Section Ordered.
Variables x y : float.
Hypothesis Hx : PrimFloat.is_nan x = false.
Hypothesis Hy : PrimFloat.is_nan y = false.

Lemma ltb_key : PrimFloat.ltb x y = true <-> klt (fk x) (fk y).
Proof.
  rewrite isNaN_spec in Hx, Hy. rewrite FloatAxioms.ltb_spec. unfold SFltb, fk.
  destruct (SFcompare_key _ _ Hx Hy) as (c & -> & Hl & He & Hg).
  rewrite <- Hl. destruct c; split; congruence.
Qed.

Lemma eqb_key : PrimFloat.eqb x y = true <-> fk x = fk y.
Proof.
  rewrite isNaN_spec in Hx, Hy. rewrite FloatAxioms.eqb_spec. unfold SFeqb, fk.
  destruct (SFcompare_key _ _ Hx Hy) as (c & -> & Hl & He & Hg).
  rewrite <- He. destruct c; split; congruence.
Qed.

Lemma leb_key : PrimFloat.leb x y = true <-> klt (fk x) (fk y) \/ fk x = fk y.
Proof.
  rewrite isNaN_spec in Hx, Hy. rewrite FloatAxioms.leb_spec. unfold SFleb, fk.
  destruct (SFcompare_key _ _ Hx Hy) as (c & -> & Hl & He & Hg).
  rewrite <- Hl, <- He. destruct c; split; try congruence; intuition congruence.
Qed.
End Ordered.

Lemma klt_irrefl a : ~ klt a a.
Proof. destruct a as [[a1 a2] a3]. unfold klt. lia. Qed.

Lemma klt_trans a b c : klt a b -> klt b c -> klt a c.
Proof.
  destruct a as [[a1 a2] a3], b as [[b1 b2] b3], c as [[c1 c2] c3].
  unfold klt. lia.
Qed.

Lemma klt_total a b : klt a b \/ a = b \/ klt b a.
Proof.
  destruct a as [[a1 a2] a3], b as [[b1 b2] b3]. unfold klt.
  destruct (Z.lt_total a1 b1) as [H|[H|H]];
    destruct (Z.lt_total a2 b2) as [H2|[H2|H2]];
    destruct (Z.lt_total a3 b3) as [H3|[H3|H3]]; subst;
    try (left; lia); try (right; right; lia); right; left; reflexivity.
Qed.

Lemma klt_asym a b : klt a b -> ~ klt b a.
Proof. intros H H'. exact (klt_irrefl _ (klt_trans _ _ _ H H')). Qed.

(** ** The sign of a difference *)

Lemma digits2_pos_bounds m :
  2 ^ (Zpos (digits2_pos m) - 1) <= Zpos m < 2 ^ Zpos (digits2_pos m).
Proof.
  induction m as [m IH|m IH|]; simpl digits2_pos.
  - rewrite Pos2Z.inj_succ.
    replace (Z.succ (Zpos (digits2_pos m)) - 1) with (Z.succ (Zpos (digits2_pos m) - 1)) by lia.
    rewrite !Z.pow_succ_r by lia. lia.
  - rewrite Pos2Z.inj_succ.
    replace (Z.succ (Zpos (digits2_pos m)) - 1) with (Z.succ (Zpos (digits2_pos m) - 1)) by lia.
    rewrite !Z.pow_succ_r by lia. lia.
  - simpl. lia.
Qed.

Lemma shr_1_m r : 0 <= shr_m r -> shr_m (shr_1 r) = shr_m r / 2.
Proof.
  destruct r as [m rb sb]. simpl. intros Hm.
  rewrite <- Z.div2_div.
  destruct m as [|[p|p|]|p]; try reflexivity; lia.
Qed.

Lemma iter_pos_shr p :
  forall r, 0 <= shr_m r -> shr_m (iter_pos shr_1 p r) = shr_m r / 2 ^ Zpos p.
Proof.
  induction p as [p IH|p IH|]; intros r Hr; simpl iter_pos.
  - assert (H1 : 0 <= shr_m (shr_1 r)) by (rewrite shr_1_m by assumption; apply Z.div_pos; lia).
    assert (H2 : 0 <= shr_m (iter_pos shr_1 p (shr_1 r)))
      by (rewrite IH by assumption; apply Z.div_pos; [assumption|apply Z.pow_pos_nonneg; lia]).
    rewrite IH, IH, shr_1_m by assumption.
    rewrite !Z.div_div by (try apply Z.pow_pos_nonneg; lia).
    f_equal. rewrite Pos2Z.inj_xI, <- Z.pow_add_r by lia.
    replace (2 * Zpos p + 1) with (Z.succ (Zpos p + Zpos p)) by lia.
    rewrite Z.pow_succ_r by lia. reflexivity.
  - assert (H2 : 0 <= shr_m (iter_pos shr_1 p r))
      by (rewrite IH by assumption; apply Z.div_pos; [assumption|apply Z.pow_pos_nonneg; lia]).
    rewrite IH, IH by assumption.
    rewrite !Z.div_div by (try apply Z.pow_pos_nonneg; lia).
    f_equal. rewrite Pos2Z.inj_xO, <- Z.pow_add_r by lia.
    f_equal. lia.
  - rewrite shr_1_m by assumption. reflexivity.
Qed.

Lemma shr_m_of_loc m l : shr_m (shr_record_of_loc m l) = m.
Proof. destruct l as [|[]]; reflexivity. Qed.

Lemma shr_fexp_pos m e l :
  0 < m -> emin <= e ->
  0 < shr_m (fst (shr_fexp prec emax m e l)) /\ emin <= snd (shr_fexp prec emax m e l).
Proof.
  intros Hm He. unfold shr_fexp, shr.
  destruct m as [|p|p]; try lia. simpl Zdigits2.
  pose proof (digits2_pos_bounds p) as [Hlo _].
  set (d := Zpos (digits2_pos p)) in *.
  unfold fexp, SpecFloat.emin, prec, emax in *.
  destruct (Z.max (d + e - 53) (3 - 1024 - 53) - e) as [|q|q] eqn:Hn; simpl fst; simpl snd.
  - rewrite shr_m_of_loc. lia.
  - rewrite iter_pos_shr by (rewrite shr_m_of_loc; lia).
    rewrite shr_m_of_loc. split; [|lia].
    apply Z.div_str_pos. split; [apply Z.pow_pos_nonneg; lia|].
    apply Z.le_trans with (2 ^ (d - 1)); [|assumption].
    apply Z.pow_le_mono_r; lia.
  - rewrite shr_m_of_loc. lia.
Qed.

Lemma round_nearest_even_ge m l : m <= round_nearest_even m l.
Proof. destruct l as [|[]]; simpl; try destruct (Z.even m); lia. Qed.

Lemma binary_round_aux_sign sx m e l :
  0 < m -> emin <= e ->
  (exists m' e', binary_round_aux prec emax sx m e l = S754_finite sx m' e')
  \/ binary_round_aux prec emax sx m e l = S754_infinity sx.
Proof.
  intros Hm He. unfold binary_round_aux.
  pose proof (shr_fexp_pos m e l Hm He) as [H1 H2].
  destruct (shr_fexp prec emax m e l) as [mrs' e']. simpl in H1, H2.
  pose proof (round_nearest_even_ge (shr_m mrs') (loc_of_shr_record mrs')) as H3.
  set (m2 := round_nearest_even (shr_m mrs') (loc_of_shr_record mrs')) in *.
  assert (Hm2 : 0 < m2) by lia.
  pose proof (shr_fexp_pos m2 e' loc_Exact Hm2 H2) as [H4 H5].
  destruct (shr_fexp prec emax m2 e' loc_Exact) as [mrs'' e'']. simpl in H4, H5.
  destruct (shr_m mrs'') as [|p|p]; try lia.
  destruct (e'' <=? emax - prec); [left; eauto|right; reflexivity].
Qed.

Lemma iter_xO m d : Zpos (Pos.iter xO m d) = Zpos m * 2 ^ Zpos d.
Proof.
  induction d as [|d IH] using Pos.peano_ind.
  - simpl. lia.
  - rewrite Pos.iter_succ, Pos2Z.inj_xO, IH, Pos2Z.inj_succ, Z.pow_succ_r by lia. lia.
Qed.

Lemma shl_align_fst m e e' :
  e' <= e -> Zpos (fst (shl_align m e e')) = Zpos m * 2 ^ (e - e').
Proof.
  intros He. unfold shl_align.
  destruct (e' - e) as [|d|d] eqn:Hd; simpl fst.
  - replace (e - e') with 0 by lia. lia.
  - lia.
  - rewrite iter_xO. f_equal. f_equal. lia.
Qed.

Lemma binary_round_sign sx m e :
  emin <= e ->
  (exists m' e', binary_round prec emax sx m e = S754_finite sx m' e')
  \/ binary_round prec emax sx m e = S754_infinity sx.
Proof.
  intros He. unfold binary_round.
  destruct (shl_align m e (fexp prec emax (Zpos (digits2_pos m) + e))) as [mz ez] eqn:E.
  apply binary_round_aux_sign; [lia|].
  unfold shl_align in E.
  destruct (fexp prec emax (Zpos (digits2_pos m) + e) - e) eqn:Hd;
    injection E as _ <-; try assumption.
  unfold fexp, SpecFloat.emin, prec, emax. lia.
Qed.

Lemma bounded_facts m e :
  bounded prec emax m e = true ->
  emin <= e /\ Zpos (digits2_pos m) <= 53 /\ (emin < e -> Zpos (digits2_pos m) = 53).
Proof.
  unfold bounded, canonical_mantissa, fexp, SpecFloat.emin, prec, emax.
  intros H. apply andb_prop in H as [H _]. apply Z.eqb_eq in H. lia.
Qed.

(** Two bounded floats compare by exponent, then mantissa, as their
    values do. *)
Lemma bounded_lex m1 e1 m2 e2 :
  bounded prec emax m1 e1 = true -> bounded prec emax m2 e2 = true ->
  (e1 < e2 \/ (e1 = e2 /\ Zpos m1 < Zpos m2)) <->
  Zpos m1 * 2 ^ (e1 - Z.min e1 e2) < Zpos m2 * 2 ^ (e2 - Z.min e1 e2).
Proof.
  intros B1 B2.
  apply bounded_facts in B1 as (L1 & D1 & N1).
  apply bounded_facts in B2 as (L2 & D2 & N2).
  pose proof (digits2_pos_bounds m1) as [Lo1 Hi1].
  pose proof (digits2_pos_bounds m2) as [Lo2 Hi2].
  assert (P53 : forall d, d <= 53 -> 2 ^ d <= 2 ^ 53)
    by (intros; apply Z.pow_le_mono_r; lia).
  assert (Hi1' : Zpos m1 < 2 ^ 53) by (specialize (P53 _ D1); lia).
  assert (Hi2' : Zpos m2 < 2 ^ 53) by (specialize (P53 _ D2); lia).
  destruct (Z.lt_total e1 e2) as [H|[H|H]].
  - rewrite Z.min_l by lia. rewrite Z.sub_diag, Z.mul_1_r.
    rewrite (N2 ltac:(lia)) in Lo2. change (53 - 1) with 52 in Lo2.
    assert (2 ^ 1 <= 2 ^ (e2 - e1)) by (apply Z.pow_le_mono_r; lia).
    change (2 ^ 53) with (2 ^ 52 * 2 ^ 1) in Hi1'.
    split; [intros _; nia|intros _; lia].
  - subst e2. rewrite Z.min_id, Z.sub_diag, !Z.mul_1_r. lia.
  - rewrite Z.min_r by lia. rewrite Z.sub_diag, Z.mul_1_r.
    rewrite (N1 ltac:(lia)) in Lo1. change (53 - 1) with 52 in Lo1.
    assert (2 ^ 1 <= 2 ^ (e1 - e2)) by (apply Z.pow_le_mono_r; lia).
    change (2 ^ 53) with (2 ^ 52 * 2 ^ 1) in Hi2'.
    split; [intros; lia|intros; nia].
Qed.

Lemma SFsub_positive x y :
  valid_binary x = true -> valid_binary y = true ->
  SFpositive (SF64sub x y) = SFltb y x.
Proof.
  intros Vx Vy.
  destruct x as [sx|sx| |sx mx ex]; destruct y as [sy|sy| |sy my ey];
    try (destruct sx); try (destruct sy); try reflexivity.
  all: unfold SF64sub, SFsub.
  all: simpl in Vx, Vy.
  all: pose proof (bounded_facts _ _ Vx) as (Lx & _).
  all: pose proof (bounded_facts _ _ Vy) as (Ly & _).
  all: set (ez := Z.min ex ey).
  all: assert (Hez : emin <= ez) by (unfold ez; lia).
  all: rewrite !shl_align_fst by (unfold ez; lia).
  all: unfold cond_Zopp.
  all: set (d := (_ - _)%Z).
  all: assert (Hpos : forall p, d = Zpos p -> SFpositive (binary_normalize prec emax d ez false) = true)
      by (intros p ->; simpl; destruct (binary_round_sign false p ez Hez) as [(m' & e' & ->)| ->]; reflexivity).
  all: assert (Hneg : forall p, d = Zneg p -> SFpositive (binary_normalize prec emax d ez false) = false)
      by (intros p ->; simpl; destruct (binary_round_sign true p ez Hez) as [(m' & e' & ->)| ->]; reflexivity).
  all: assert (Hzero : d = 0 -> SFpositive (binary_normalize prec emax d ez false) = false)
      by (intros ->; reflexivity).
  all: assert (Hnn : is_nanSF (S754_finite false mx ex) = false) by reflexivity.
  all: unfold SFltb.
  - (* both negative *)
    destruct (SFcompare_key (S754_finite true my ey) (S754_finite true mx ex) eq_refl eq_refl)
      as (c & -> & Hl & _).
    pose proof (bounded_lex mx ex my ey Vx Vy) as Hlex. fold ez in Hlex.
    unfold klt in Hl; simpl in Hl.
    destruct d as [|p|p] eqn:Hd.
    + rewrite Hzero by reflexivity. destruct c; try reflexivity.
      exfalso. subst d. destruct Hl as [Hl _]. specialize (Hl eq_refl). lia.
    + rewrite (Hpos p) by reflexivity. destruct c; try reflexivity; exfalso; subst d.
      * destruct Hl as [_ Hl]. assert (Eq = Lt) by (apply Hl; lia). discriminate.
      * destruct Hl as [_ Hl]. assert (Gt = Lt) by (apply Hl; lia). discriminate.
    + rewrite (Hneg p) by reflexivity. destruct c; try reflexivity.
      exfalso. subst d. destruct Hl as [Hl _]. specialize (Hl eq_refl). lia.
  - (* x negative, y positive *)
    assert (Hd : d < 0) by (unfold d; pose proof (Z.pow_pos_nonneg 2 (ex - ez)); pose proof (Z.pow_pos_nonneg 2 (ey - ez)); unfold ez in *; nia).
    destruct d as [|p|p]; try lia. rewrite (Hneg p) by reflexivity. reflexivity.
  - (* x positive, y negative *)
    assert (Hd : 0 < d) by (unfold d; pose proof (Z.pow_pos_nonneg 2 (ex - ez)); pose proof (Z.pow_pos_nonneg 2 (ey - ez)); unfold ez in *; nia).
    destruct d as [|p|p]; try lia. rewrite (Hpos p) by reflexivity. reflexivity.
  - (* both positive *)
    destruct (SFcompare_key (S754_finite false my ey) (S754_finite false mx ex) eq_refl eq_refl)
      as (c & -> & Hl & _).
    pose proof (bounded_lex my ey mx ex Vy Vx) as Hlex. rewrite Z.min_comm in Hlex. fold ez in Hlex.
    unfold klt in Hl; simpl in Hl.
    destruct d as [|p|p] eqn:Hd.
    + rewrite Hzero by reflexivity. destruct c; try reflexivity.
      exfalso. subst d. destruct Hl as [Hl _]. specialize (Hl eq_refl). lia.
    + rewrite (Hpos p) by reflexivity. destruct c; try reflexivity; exfalso; subst d.
      * destruct Hl as [_ Hl]. assert (Eq = Lt) by (apply Hl; lia). discriminate.
      * destruct Hl as [_ Hl]. assert (Gt = Lt) by (apply Hl; lia). discriminate.
    + rewrite (Hneg p) by reflexivity. destruct c; try reflexivity.
      exfalso. subst d. destruct Hl as [Hl _]. specialize (Hl eq_refl). lia.
Qed.

(** [0 < x - y] exactly when [y < x]. *)
Lemma sub_positive (x y : float) :
  PrimFloat.ltb 0 (PrimFloat.sub x y) = PrimFloat.ltb y x.
Proof.
  rewrite !FloatAxioms.ltb_spec, sub_spec.
  change (Prim2SF 0) with (S754_zero false).
  apply SFsub_positive; apply Prim2SF_valid.
Qed.

End FloatFacts.

(* ================================================================== *)
(** * The validator *)
(* ================================================================== *)

Module ValidatorProps.
Import JS Types Utils FloatOrder FloatFacts ValidatorSpec Examples.

Lemma ltb_not_eqb x y : PrimFloat.ltb x y = true -> PrimFloat.eqb x y = false.
Proof.
  intros H.
  destruct (PrimFloat.is_nan x) eqn:Hx; [now rewrite ltb_nan_l in H|].
  destruct (PrimFloat.is_nan y) eqn:Hy; [now rewrite ltb_nan_r in H|].
  apply (ltb_key x y Hx Hy) in H.
  destruct (PrimFloat.eqb x y) eqn:E; [|reflexivity].
  apply (eqb_key x y Hx Hy) in E. rewrite E in H. now apply klt_irrefl in H.
Qed.

Lemma ltb_leb x y : PrimFloat.ltb x y = true -> PrimFloat.leb x y = true.
Proof.
  intros H.
  destruct (PrimFloat.is_nan x) eqn:Hx; [now rewrite ltb_nan_l in H|].
  destruct (PrimFloat.is_nan y) eqn:Hy; [now rewrite ltb_nan_r in H|].
  apply (leb_key x y Hx Hy). left. now apply (ltb_key x y Hx Hy).
Qed.

Lemma ltb_not_nan_r x y : PrimFloat.ltb x y = true -> PrimFloat.is_nan y = false.
Proof.
  intros H. destruct (PrimFloat.is_nan y) eqn:Hy; [|reflexivity].
  now rewrite ltb_nan_r in H.
Qed.

Lemma or_else_zero_not_nan v : isNaN (or_else v 0) = false.
Proof.
  unfold or_else, truthy, isNaN.
  destruct (PrimFloat.is_nan v) eqn:Hv; [reflexivity|].
  destruct (PrimFloat.eqb v 0); simpl; [reflexivity|assumption].
Qed.

(** [Math.max(0, v || 0)] is [v] when [v] is above zero and [+0] in every
    other case. *)
Lemma max_zero_or_else v :
  Math_max 0 (or_else v 0) = if PrimFloat.ltb 0 v then v else 0%float.
Proof.
  unfold Math_max. rewrite or_else_zero_not_nan.
  change (isNaN 0 || false) with false. cbv iota.
  change (PrimFloat.get_sign 0) with false. cbv iota.
  unfold or_else, truthy, isNaN.
  destruct (PrimFloat.is_nan v) eqn:Hv; simpl.
  - rewrite (ltb_nan_r 0 v Hv). reflexivity.
  - destruct (PrimFloat.eqb v 0) eqn:E; simpl.
    + destruct (PrimFloat.ltb 0 v) eqn:L; [|reflexivity].
      apply ltb_not_eqb in L.
      assert (E' : PrimFloat.eqb 0 v = true).
      { apply (eqb_key 0 v eq_refl Hv). symmetry. now apply (eqb_key v 0 Hv eq_refl). }
      congruence.
    + destruct (PrimFloat.ltb 0 v); [reflexivity|].
      destruct (PrimFloat.ltb v 0); reflexivity.
Qed.

Lemma cleanedData_volume raw c :
  cleanedData (validateContract raw) = Some c ->
  volume c = Math_max 0 (or_else (Number (Raw.vol raw)) 0).
Proof.
  unfold validateContract.
  repeat match goal with
         | |- context [if ?b then _ else _] => destruct b; simpl
         | |- context [match ?o with Some _ => _ | None => _ end] => destruct o; simpl
         end;
    try discriminate; intros H; injection H as <-; reflexivity.
Qed.

(** C3, amended: the volume of an accepted record is a number that is
    not below zero; it is the raw volume itself, unchanged and not coerced
    to an integer, when that is above zero, and [+0] when the raw volume is
    absent, not a number, zero or negative. *)
Theorem volume_nonnegative (raw : RawOptionContract) (c : ProcessedOptionContract) :
  cleanedData (validateContract raw) = Some c ->
  isNaN (volume c) = false
  /\ PrimFloat.leb 0 (volume c) = true
  /\ volume c = (if PrimFloat.ltb 0 (Number (Raw.vol raw))
                 then Number (Raw.vol raw) else 0%float)
  /\ (Raw.vol raw = None \/ isNaN (Number (Raw.vol raw)) = true ->
      volume c = 0%float).
Proof.
  intros H. apply cleanedData_volume in H. rewrite max_zero_or_else in H.
  rewrite H. clear H c.
  destruct (PrimFloat.ltb 0 (Number (Raw.vol raw))) eqn:L.
  - repeat split.
    + now apply ltb_not_nan_r in L.
    + now apply ltb_leb.
    + intros [Hn|Hn].
      * rewrite Hn in L. discriminate L.
      * unfold isNaN in Hn. now rewrite (ltb_nan_r _ _ Hn) in L.
  - repeat split; reflexivity.
Qed.

Lemma volume_nonnegative_witness :
  isNaN (volume cleanFractionalVolume) = false
  /\ PrimFloat.leb 0 (volume cleanFractionalVolume) = true
  /\ volume cleanFractionalVolume
     = (if PrimFloat.ltb 0 (Number (Raw.vol rawFractionalVolume))
        then Number (Raw.vol rawFractionalVolume) else 0%float)
  /\ (Raw.vol rawFractionalVolume = None
      \/ isNaN (Number (Raw.vol rawFractionalVolume)) = true ->
      volume cleanFractionalVolume = 0%float).
Proof.
  apply (volume_nonnegative rawFractionalVolume cleanFractionalVolume).
  vm_compute. reflexivity.
Defined.

(** C3 as stated fails: a raw volume of [12.5] is accepted and kept as
    [12.5], which is not an integer. *)
Lemma volume_not_integer : ~ volumeIsNonNegativeInteger rawFractionalVolume.
Proof.
  intros H. destruct (H cleanFractionalVolume) as [Hint _].
  - vm_compute. reflexivity.
  - vm_compute in Hint. discriminate Hint.
Qed.

End ValidatorProps.

Module NumericChecks.
Import JS Types Utils FloatOrder FloatFacts ValidatorSpec Examples ValidatorProps.

Lemma gate_passed raw :
  passesCriticalGate raw = true ->
  negb (truthyStr (option_map trim (Raw.act_symbol raw)))
  || negb (truthyStr (Raw.date raw))
  || negb (truthyStr (Raw.expiration raw)) = false.
Proof.
  unfold passesCriticalGate. intros H.
  apply andb_prop in H as [H H3]. apply andb_prop in H as [H1 H2].
  now rewrite H1, H2, H3.
Qed.

Lemma bidFails_not_zero raw :
  bidFails raw = true -> PrimFloat.eqb (Number (Raw.bid raw)) 0 = false.
Proof.
  unfold bidFails, isNaN. intros H. apply orb_prop in H as [H|H].
  - now apply eqb_nan_l.
  - now apply ltb_not_eqb.
Qed.

(** The errors collected by the numeric and liveness checks, as
    [validateContract] builds them. *)
Lemma validateContract_rejects raw :
  passesCriticalGate raw = true ->
  numericErrors raw ++ livenessErrors raw <> [] ->
  validateContract raw
  = invalid (numericErrors raw ++ livenessErrors raw)
            (if PrimFloat.ltb 0 (Number (Raw.bid raw))
                && PrimFloat.ltb 0 (Number (Raw.ask raw))
                && PrimFloat.leb (Number (Raw.ask raw)) (Number (Raw.bid raw))
             then [UnusualSpread (Number (Raw.bid raw)) (Number (Raw.ask raw))]
             else []).
Proof.
  intros Hgate Hne. unfold validateContract. rewrite (gate_passed raw Hgate).
  unfold numericErrors, livenessErrors, strikeFails, bidFails, askFails in *.
  rewrite <- !app_assoc in *.
  match goal with
  | |- (if 0 <? Z.of_nat (List.length ?l) then _ else _) = _ =>
      destruct l eqn:El; [contradiction Hne; reflexivity|]
  end.
  reflexivity.
Qed.

(** C6: behind the critical-field gate, strike, bid and ask are each
    checked, none of the checks stops the others, and every malformed field
    contributes exactly one error, in the order strike, bid, ask (followed
    by the liveness error when bid and ask are both zero); a row with all
    three fields malformed is rejected with exactly the three errors. *)
Theorem numeric_fields_checked_independently (raw : RawOptionContract) :
  passesCriticalGate raw = true ->
  numericErrors raw <> [] ->
  isValid (validateContract raw) = false
  /\ cleanedData (validateContract raw) = None
  /\ errors (validateContract raw) = numericErrors raw ++ livenessErrors raw
  /\ (strikeFails raw = true -> bidFails raw = true -> askFails raw = true ->
      errors (validateContract raw)
      = [InvalidStrikePrice (Raw.strike raw); InvalidBid (Raw.bid raw);
         InvalidAsk (Raw.ask raw)]).
Proof.
  intros Hgate Hne.
  rewrite validateContract_rejects; try assumption.
  - simpl. repeat split.
    intros Hs Hb Ha. unfold numericErrors, livenessErrors.
    rewrite Hs, Hb, Ha, (bidFails_not_zero raw Hb). reflexivity.
  - destruct (numericErrors raw); [contradiction Hne; reflexivity|discriminate].
Qed.

Lemma numeric_fields_checked_independently_witness :
  isValid (validateContract rawThreeMalformed) = false
  /\ cleanedData (validateContract rawThreeMalformed) = None
  /\ errors (validateContract rawThreeMalformed)
     = numericErrors rawThreeMalformed ++ livenessErrors rawThreeMalformed
  /\ (strikeFails rawThreeMalformed = true -> bidFails rawThreeMalformed = true ->
      askFails rawThreeMalformed = true ->
      errors (validateContract rawThreeMalformed)
      = [InvalidStrikePrice (Raw.strike rawThreeMalformed);
         InvalidBid (Raw.bid rawThreeMalformed);
         InvalidAsk (Raw.ask rawThreeMalformed)]).
Proof.
  apply (numeric_fields_checked_independently rawThreeMalformed).
  - vm_compute. reflexivity.
  - vm_compute. discriminate.
Defined.

(** The three errors, evaluated. *)
Example three_malformed_three_errors :
  errors (validateContract rawThreeMalformed)
  = [InvalidStrikePrice (Some nan); InvalidBid None; InvalidAsk (Some (-1)%float)].
Proof. vm_compute. reflexivity. Qed.

End NumericChecks.

(* ================================================================== *)
(** * The calendar-date predicate *)
(* ================================================================== *)

Module DateProps.
Import JS Types Utils DateSpec.

Lemma DayFromYear_succ y :
  DayFromYear (y + 1) = DayFromYear y + 365 + leapDay y.
Proof.
  assert (H4 : (y + 1 - 1969) / 4 = (y - 1969) / 4 + (if y mod 4 =? 0 then 1 else 0))
    by (destruct (Z.eqb_spec (y mod 4) 0); Z.div_mod_to_equations; lia).
  assert (H100 : (y + 1 - 1901) / 100 = (y - 1901) / 100 + (if y mod 100 =? 0 then 1 else 0))
    by (destruct (Z.eqb_spec (y mod 100) 0); Z.div_mod_to_equations; lia).
  assert (H400 : (y + 1 - 1601) / 400 = (y - 1601) / 400 + (if y mod 400 =? 0 then 1 else 0))
    by (destruct (Z.eqb_spec (y mod 400) 0); Z.div_mod_to_equations; lia).
  assert (I1 : y mod 400 = 0 -> y mod 100 = 0) by (Z.div_mod_to_equations; lia).
  assert (I2 : y mod 100 = 0 -> y mod 4 = 0) by (Z.div_mod_to_equations; lia).
  unfold DayFromYear, leapDay, InLeapYear. rewrite H4, H100, H400.
  destruct (Z.eqb_spec (y mod 4) 0); destruct (Z.eqb_spec (y mod 100) 0);
    destruct (Z.eqb_spec (y mod 400) 0); cbn [andb orb negb]; lia.
Qed.

Lemma leapDay_range y : 0 <= leapDay y <= 1.
Proof. unfold leapDay. destruct (InLeapYear y); lia. Qed.

(** [getFullYear] finds the year whose days contain [t]. *)
Lemma getFullYear_spec y t :
  DayFromYear y <= t < DayFromYear (y + 1) -> getFullYear t = y.
Proof.
  intros [Hlo Hhi]. unfold getFullYear.
  set (est := 1970 + 400 * t / 146097).
  assert (Hest : y - 1 <= est <= y + 1).
  { unfold est. rewrite DayFromYear_succ in Hhi.
    pose proof (leapDay_range y). unfold DayFromYear in *.
    Z.div_mod_to_equations. lia. }
  pose proof (DayFromYear_succ y) as S0.
  pose proof (DayFromYear_succ (y + 1)) as S1.
  pose proof (DayFromYear_succ (y - 1)) as Sm.
  replace (y - 1 + 1) with y in Sm by lia.
  pose proof (leapDay_range y). pose proof (leapDay_range (y + 1)).
  pose proof (leapDay_range (y - 1)).
  assert (Hc : est = y - 1 \/ est = y \/ est = y + 1) by lia.
  destruct Hc as [->|[->| ->]].
  - replace (y - 1 + 1) with y by lia.
    destruct (Z.leb_spec (DayFromYear y) t); lia.
  - destruct (Z.leb_spec (DayFromYear (y + 1)) t); [lia|].
    destruct (Z.ltb_spec t (DayFromYear y)); lia.
  - destruct (Z.leb_spec (DayFromYear (y + 1 + 1)) t); [lia|].
    destruct (Z.ltb_spec t (DayFromYear (y + 1))); lia.
Qed.

Lemma month_cases m :
  0 <= m <= 11 ->
  m = 0 \/ m = 1 \/ m = 2 \/ m = 3 \/ m = 4 \/ m = 5 \/ m = 6 \/ m = 7 \/ m = 8
  \/ m = 9 \/ m = 10 \/ m = 11.
Proof. lia. Qed.

Ltac split_months H :=
  repeat (destruct H as [H|H]; [subst|]); [..|subst].

Ltac case_ltb :=
  repeat match goal with
         | |- context [if ?a <? ?b then _ else _] =>
             destruct (Z.ltb_spec a b); try lia
         end.

(** The same for a 0-based month. *)
Lemma reconstructs_index year mi day :
  100 <= year -> 0 <= mi <= 11 -> 1 <= day <= 31 ->
  reconstructs year (mi + 1) day <-> day <= daysInMonth year (mi + 1).
Proof.
  intros Hy Hm Hd. unfold reconstructs, newDate.
  replace (mi + 1 - 1) with mi by lia.
  replace ((0 <=? year) && (year <=? 99)) with false
    by (symmetry; apply andb_false_iff; right; apply Z.leb_gt; lia).
  unfold MakeDay.
  replace (mi / 12) with 0 by (Z.div_mod_to_equations; lia).
  replace (mi mod 12) with mi by (Z.div_mod_to_equations; lia).
  rewrite Z.add_0_r.
  pose proof (leapDay_range year) as Hleap.
  assert (Hyear : getFullYear (DayFromYear year + monthStart year mi + day - 1) = year).
  { apply getFullYear_spec. rewrite DayFromYear_succ.
    pose proof (month_cases mi Hm) as Hc.
    split_months Hc; cbn [monthStart]; lia. }
  unfold getDate, getMonth, DayWithinYear. rewrite Hyear.
  replace (DayFromYear year + monthStart year mi + day - 1 - DayFromYear year)
    with (monthStart year mi + day - 1) by lia.
  clear Hyear.
  pose proof (month_cases mi Hm) as Hc.
  split_months Hc;
    match goal with
    | |- context [daysInMonth _ ?m] =>
        let m' := eval compute in m in change m with m'
    end;
    cbn [monthStart daysInMonth];
    split.
  all: try (intros (_ & H1 & H2); revert H1 H2).
  all: try (intros H; split; [reflexivity|]).
  all: case_ltb.
  all: cbn [monthStart]; lia.
Qed.

(** For a day of the month between 1 and 31, the date is reconstructed
    exactly when the month has that many days. *)
Lemma reconstructs_iff year month day :
  100 <= year -> 1 <= month <= 12 -> 1 <= day <= 31 ->
  reconstructs year month day <-> day <= daysInMonth year month.
Proof.
  intros Hy Hm Hd. replace month with (month - 1 + 1) by lia.
  apply reconstructs_index; lia.
Qed.

Lemma daysInMonth_range year month :
  1 <= month <= 12 -> daysInMonth year month <= 31.
Proof.
  intros Hm. pose proof (leapDay_range year).
  assert (Hc : month = 1 \/ month = 2 \/ month = 3 \/ month = 4 \/ month = 5
               \/ month = 6 \/ month = 7 \/ month = 8 \/ month = 9
               \/ month = 10 \/ month = 11 \/ month = 12) by lia.
  repeat (destruct Hc as [Hc|Hc]; [subst month; cbn [daysInMonth]; lia|]).
  subst month; cbn [daysInMonth]; lia.
Qed.

Lemma isDigit_not_hyphen c : isDigit c = true -> Ascii.eqb c "-" = false.
Proof.
  intros H. destruct (Ascii.eqb_spec c "-") as [->|]; [discriminate H|reflexivity].
Qed.

Lemma digitValue_range c : isDigit c = true -> 0 <= digitValue c <= 9.
Proof.
  unfold isDigit, digitValue. intros H. apply andb_prop in H as [H1 H2].
  apply Nat.leb_le in H1, H2. lia.
Qed.

Section Shape.
Variables y1 y2 y3 y4 m1 m2 d1 d2 : ascii.
Hypothesis digits : Forall (fun c => isDigit c = true) [y1; y2; y3; y4; m1; m2; d1; d2].

Let year := number4 y1 y2 y3 y4.
Let month := number2 m1 m2.
Let day := number2 d1 d2.

Lemma digits_all :
  isDigit y1 = true /\ isDigit y2 = true /\ isDigit y3 = true /\ isDigit y4 = true
  /\ isDigit m1 = true /\ isDigit m2 = true /\ isDigit d1 = true /\ isDigit d2 = true.
Proof.
  repeat match goal with
         | H : Forall _ (_ :: _) |- _ => inversion H; subst; clear H
         end.
  repeat split; assumption.
Qed.

(** On a string of the right shape, [isValidDate] is the range checks
    followed by the reconstruction. *)
Lemma isValidDate_shape :
  isValidDate (isoText y1 y2 y3 y4 m1 m2 d1 d2)
  = if (year <? 1000) || (month <? 1) || (12 <? month) || (day <? 1) || (31 <? day)
    then false
    else
      let date := newDate year (month - 1) day in
      (getFullYear date =? year) && (getMonth date =? month - 1) && (getDate date =? day).
Proof.
  destruct digits_all as (D1 & D2 & D3 & D4 & D5 & D6 & D7 & D8).
  assert (Hy : 10 * (10 * (10 * (10 * 0 + digitValue y1) + digitValue y2) + digitValue y3)
               + digitValue y4 = year) by (unfold year, number4; lia).
  assert (Hm : 10 * (10 * 0 + digitValue m1) + digitValue m2 = month)
    by (unfold month, number2; lia).
  assert (Hd : 10 * (10 * 0 + digitValue d1) + digitValue d2 = day)
    by (unfold day, number2; lia).
  unfold isValidDate, isoText, matchesDatePattern.
  cbn [truthyStr negb list_ascii_of_string].
  rewrite D1, D2, D3, D4, D5, D6, D7, D8.
  change (Ascii.eqb "-" "-") with true. cbn [andb negb].
  cbn [split].
  rewrite (isDigit_not_hyphen y1 D1), (isDigit_not_hyphen y2 D2),
    (isDigit_not_hyphen y3 D3), (isDigit_not_hyphen y4 D4),
    (isDigit_not_hyphen m1 D5), (isDigit_not_hyphen m2 D6),
    (isDigit_not_hyphen d1 D7), (isDigit_not_hyphen d2 D8).
  change (Ascii.eqb "-" "-") with true. cbn iota.
  unfold toNumberDigits. cbn [digitsFrom].
  rewrite D1, D2, D3, D4, D5, D6, D7, D8. cbn iota.
  rewrite Hy, Hm, Hd. reflexivity.
Qed.

Lemma isValidDate_shape_iff :
  isValidDate (isoText y1 y2 y3 y4 m1 m2 d1 d2) = true
  <-> 1000 <= year /\ 1 <= month <= 12 /\ 1 <= day <= 31
      /\ reconstructs year month day.
Proof.
  rewrite isValidDate_shape. unfold reconstructs. cbv zeta.
  destruct (Z.ltb_spec year 1000); cbn [orb]; [split; [discriminate|lia]|].
  destruct (Z.ltb_spec month 1); cbn [orb]; [split; [discriminate|lia]|].
  destruct (Z.ltb_spec 12 month); cbn [orb]; [split; [discriminate|lia]|].
  destruct (Z.ltb_spec day 1); cbn [orb]; [split; [discriminate|lia]|].
  destruct (Z.ltb_spec 31 day); cbn [orb]; [split; [discriminate|lia]|].
  rewrite !andb_true_iff, !Z.eqb_eq.
  split; [intros [[E1 E2] E3]|intros (_ & _ & _ & E1 & E2 & E3)];
    repeat split; try assumption; lia.
Qed.

End Shape.

Lemma matchesDatePattern_shape s :
  matchesDatePattern s = true ->
  exists y1 y2 y3 y4 m1 m2 d1 d2,
    s = isoText y1 y2 y3 y4 m1 m2 d1 d2
    /\ Forall (fun c => isDigit c = true) [y1; y2; y3; y4; m1; m2; d1; d2].
Proof.
  unfold matchesDatePattern. intros H.
  rewrite <- (string_of_list_ascii_of_string s).
  destruct (list_ascii_of_string s) as [|y1 [|y2 [|y3 [|y4 [|h1 [|m1 [|m2 [|h2 [|d1 [|d2 [|]]]]]]]]]]];
    try discriminate H.
  do 9 (apply andb_prop in H as [H ?]).
  repeat match goal with
         | E : Ascii.eqb _ _ = true |- _ => apply Ascii.eqb_eq in E; subst
         end.
  exists y1, y2, y3, y4, m1, m2, d1, d2. split; [reflexivity|].
  repeat (apply Forall_cons; [assumption|]). apply Forall_nil.
Qed.

Lemma isValidDate_matches s : isValidDate s = true -> matchesDatePattern s = true.
Proof.
  unfold isValidDate.
  destruct (negb (truthyStr (Some s))); [discriminate|].
  destruct (matchesDatePattern s); [reflexivity|discriminate].
Qed.

(** C7: [isValidDate] accepts a string exactly when it has the fixed-width
    form [YYYY-MM-DD], its year is at least 1000, its month is within 1..12,
    its day within 1..31, and the date rebuilt from the three numbers has
    the same year, month and day; 2023-02-30 and 2023-02-29 are rejected,
    2023-02-28 and 2024-02-29 are accepted. *)
Theorem isValidDate_calendar_date :
  (forall s, isValidDate s = true <-> calendarDate s)
  /\ isValidDate "2023-02-30" = false
  /\ isValidDate "2023-02-29" = false
  /\ isValidDate "2023-02-28" = true
  /\ isValidDate "2024-02-29" = true.
Proof.
  split; [|repeat split; vm_compute; reflexivity].
  intros s. split.
  - intros H.
    destruct (matchesDatePattern_shape s (isValidDate_matches s H))
      as (y1 & y2 & y3 & y4 & m1 & m2 & d1 & d2 & -> & Hd).
    exists y1, y2, y3, y4, m1, m2, d1, d2.
    split; [reflexivity|]. split; [assumption|].
    apply (isValidDate_shape_iff _ _ _ _ _ _ _ _ Hd) in H. tauto.
  - intros (y1 & y2 & y3 & y4 & m1 & m2 & d1 & d2 & -> & Hd & Hy & Hm & Hday & Hr).
    apply (isValidDate_shape_iff _ _ _ _ _ _ _ _ Hd). tauto.
Qed.

(** The reconstruction test is the length of the month: the accepted
    strings are the dates of the Gregorian calendar from year 1000 on. *)
Lemma isValidDate_gregorian s : isValidDate s = true <-> gregorianDate s.
Proof.
  destruct isValidDate_calendar_date as [Hiff _]. rewrite Hiff.
  unfold calendarDate, gregorianDate.
  split; intros (y1 & y2 & y3 & y4 & m1 & m2 & d1 & d2 & -> & Hd & H);
    exists y1, y2, y3, y4, m1, m2, d1, d2; (split; [reflexivity|]);
    (split; [assumption|]).
  - destruct H as (Hy & Hm & Hday & Hr).
    apply reconstructs_iff in Hr; lia.
  - destruct H as (Hy & Hm & Hday).
    pose proof (daysInMonth_range (number4 y1 y2 y3 y4) _ Hm) as Hdim.
    split; [assumption|]. split; [assumption|]. split; [lia|].
    apply reconstructs_iff; lia.
Qed.

End DateProps.

(* ================================================================== *)
(** * The retry helper *)
(* ================================================================== *)

Module RetryProps.
Import Types Runtime Runtime.Notations Utils RetrySpec.

Lemma retryLoop_unfold {T} (operation : Async T) baseDelay remaining a w :
  retryLoop operation baseDelay remaining a w
  = match operation w with
    | (w', Fulfilled v) => (w', Fulfilled v)
    | (w', Rejected e) =>
        match remaining with
        | O => (w', Rejected e)
        | S remaining' =>
            retryLoop operation baseDelay remaining' (a + 1)
                      (fst (sleep (baseDelay * 2 ^ a) w'))
        end
    end.
Proof.
  destruct remaining; simpl; unfold tryCatch; destruct (operation w) as [w' [v|e]];
    reflexivity.
Qed.

(** A run of the loop that starts with attempt [a] ends with some attempt
    [n] not later than [a + remaining]; the attempts before [n] failed, and
    [n] succeeded or was the last one allowed. *)
Lemma retryLoop_attempts {T} (operation : Async T) baseDelay w0 remaining :
  forall a,
    exists n,
      (a <= n <= a + remaining)%nat
      /\ retryLoop operation baseDelay remaining (Z.of_nat a)
                   (worldBefore operation baseDelay w0 a)
         = attempt operation baseDelay w0 n
      /\ (forall i, (a <= i < n)%nat ->
                    isRejected (snd (attempt operation baseDelay w0 i)) = true)
      /\ (isFulfilled (snd (attempt operation baseDelay w0 n)) = true
          \/ n = (a + remaining)%nat).
Proof.
  induction remaining as [|r IH]; intros a; rewrite retryLoop_unfold.
  - exists a. unfold attempt.
    destruct (operation (worldBefore operation baseDelay w0 a)) as [w' [v|e]] eqn:E;
      repeat split; try lia; try (intros; lia); right; lia.
  - destruct (operation (worldBefore operation baseDelay w0 a)) as [w' [v|e]] eqn:E.
    + exists a. unfold attempt. rewrite E.
      repeat split; try lia; try (intros; lia). left. reflexivity.
    + destruct (IH (S a)) as (n & Hn & Hrun & Hrej & Hlast).
      exists n. split; [lia|]. split; [|split].
      * rewrite <- Hrun. simpl worldBefore. rewrite E. simpl fst.
        rewrite Nat2Z.inj_succ. unfold Z.succ. reflexivity.
      * intros i Hi. destruct (Nat.eq_dec i a) as [->|Hne].
        -- unfold attempt. rewrite E. reflexivity.
        -- apply Hrej. lia.
      * destruct Hlast as [Hlast|Hlast]; [left; assumption|right; lia].
Qed.

(** C8: with the default parameters the operation is invoked at most 4
    times: the run consists of the attempts [0..n] for some [n <= 3].  Every
    attempt before [n] failed, and the attempt after a failed attempt [i]
    starts in the world that attempt [i] left, extended by a sleep of
    [1000 * 2^i] milliseconds and nothing else.  The run ends with attempt
    [n] and returns exactly what it returned: the first success, at once,
    or the error of the fourth attempt. *)
Theorem retry_default_attempts {T} (operation : Async T) (w : World) :
  exists n,
    (n <= 3)%nat
    /\ retryDefault operation w = attempt operation 1000 w n
    /\ (forall i, (i < n)%nat ->
                  isRejected (snd (attempt operation 1000 w i)) = true)
    /\ (forall i,
           events (worldBefore operation 1000 w (S i))
           = events (fst (attempt operation 1000 w i)) ++ [Sleep (1000 * 2 ^ Z.of_nat i)]
           /\ stats (worldBefore operation 1000 w (S i))
              = stats (fst (attempt operation 1000 w i)))
    /\ (isFulfilled (snd (attempt operation 1000 w n)) = true
        \/ (n = 3%nat /\ isRejected (snd (attempt operation 1000 w n)) = true)).
Proof.
  destruct (retryLoop_attempts operation 1000 w 3 0) as (n & Hn & Hrun & Hrej & Hlast).
  exists n. split; [lia|]. split; [exact Hrun|]. split; [|split].
  - intros i Hi. apply Hrej. lia.
  - intros i. split; reflexivity.
  - destruct (isFulfilled (snd (attempt operation 1000 w n))) eqn:E.
    + left. reflexivity.
    + right. destruct Hlast as [Hlast|Hlast]; [discriminate|].
      split; [lia|]. unfold isRejected. now rewrite E.
Qed.

Import Examples.
Local Open Scope string_scope.

(** Two failed writes, then success: three invocations, sleeps of 1000 and
    2000 ms, and the size returned at once. *)
Example retry_third_attempt_succeeds :
  retryDefault (writeJsonFile flakyHost "api/x.json" sampleBuffer) initialWorld
  = ({| events :=
          [WriteFile "api/x.json" sampleBuffer false; Sleep 1000;
           WriteFile "api/x.json" sampleBuffer false; Sleep 2000;
           WriteFile "api/x.json" sampleBuffer true];
        stats := Processor.initialStats |},
     Fulfilled 1000).
Proof. vm_compute. reflexivity. Qed.

(** Four failed writes: sleeps of 1000, 2000 and 4000 ms, no fifth
    invocation, and the last error is thrown. *)
Example retry_gives_up_after_four :
  retryDefault (writeJsonFile refusingHost "api/symbols/MSFT.json" sampleBuffer)
               initialWorld
  = ({| events :=
          [WriteFile "api/symbols/MSFT.json" sampleBuffer false; Sleep 1000;
           WriteFile "api/symbols/MSFT.json" sampleBuffer false; Sleep 2000;
           WriteFile "api/symbols/MSFT.json" sampleBuffer false; Sleep 4000;
           WriteFile "api/symbols/MSFT.json" sampleBuffer false];
        stats := Processor.initialStats |},
     Rejected (FailedToWriteFile "api/symbols/MSFT.json" (HostError "EACCES"))).
Proof. vm_compute. reflexivity. Qed.

End RetryProps.

(* ================================================================== *)
(** * The persistence runner *)
(* ================================================================== *)

Module PersistenceProps.
Import Types Runtime Runtime.Notations Utils Processor RetrySpec RetryProps PersistenceSpec.

Lemma bind_run {A B} (m : Async A) (k : A -> Async B) w :
  bind m k w
  = match m w with
    | (w', Fulfilled a) => k a w'
    | (w', Rejected e) => (w', Rejected e)
    end.
Proof. reflexivity. Qed.

Lemma tryCatch_run {A} (m : Async A) (h : Message -> Async A) w :
  tryCatch m h w
  = match m w with
    | (w', Fulfilled a) => (w', Fulfilled a)
    | (w', Rejected e) => h e w'
    end.
Proof. reflexivity. Qed.

(** ** Computations that leave the recorded errors alone *)








Section Host.
Variable host : Host.




(** ** The size check under the retry policy *)





(** ** A key whose write goes through, a key whose write fails *)








(** ** Waves *)

Section Outcomes.
Variable symbolGroups : JsMap (list ProcessedOptionContract).

(** What is known of the outcome of each key, whatever the world its
    promise starts in. *)
Variable Q : string -> Outcome SymbolProcessingResult -> Prop.








End Outcomes.



(** ** The aggregate files *)



(** ** One key fails, the others do not *)




End Host.

(** ** The theorems on concrete runs *)

Import Examples.
Local Open Scope string_scope.



(** The events of the oversized key, evaluated: the directory, then three
    sleeps, and no write. *)
Example oversized_key_events :
  processSymbol bigHost "BIG" (contractsOf sampleGroups "BIG") initialWorld
  = (afterEvents initialWorld
       [Mkdir "api/symbols" true; Sleep 1000; Sleep 2000; Sleep 4000],
     Rejected (SymbolProcessingFailed "BIG" (FileTooLarge 60000000 52428800))).
Proof. vm_compute. reflexivity. Qed.


(** The same run, evaluated: three results, two files under [symbols/],
    both aggregate files, and [symbolsWithData = 2]. *)
Example partial_failure_run :
  match persistAll refusingHost sampleGroups initialWorld with
  | Some (w', Fulfilled results) =>
      map (fun r => (r_symbol r, success r)) results
      = [("AAPL", true); ("MSFT", false); ("BIG", true)]
      /\ filesSaved (stats w') = 4
      /\ map pe_type (st_errors (stats w')) = [file_write]
      /\ exists metadata,
          last (events w') (Sleep 0)
          = WriteFile "api/metadata.json" (JsonMetadata metadata) true
          /\ coverage metadata = {| calls := 3; puts := 2; symbolsWithData := 2 |}
  | _ => False
  end.
Proof.
  vm_compute. repeat split. eexists. split; reflexivity.
Qed.

End PersistenceProps.

(* ================================================================== *)
(** * The partitioner *)
(* ================================================================== *)

Module SortFacts.
Import Utils PartitionSpec.

(** Facts about the stable insertion sort, for any comparator that agrees
    with a transitive relation [R] on the elements that satisfy [P]. *)
Section Sorting.
Context {A : Type} (comparefn : A -> A -> float).


Lemma insertSorted_perm x l : Permutation (insertSorted comparefn x l) (x :: l).
Proof.
  induction l as [|y l IH]; simpl; [reflexivity|].
  destruct (PrimFloat.ltb 0 (comparefn x y)); [|reflexivity].
  rewrite IH. apply perm_swap.
Qed.

Lemma sort_perm l : Permutation (sort comparefn l) l.
Proof.
  induction l as [|x l IH]; simpl; [reflexivity|].
  rewrite insertSorted_perm. now constructor.
Qed.

Variable P : A -> Prop.
Variable R : A -> A -> Prop.
Hypothesis R_trans : forall a b c, R a b -> R b c -> R a c.
Hypothesis not_behind : forall a b, P a -> P b -> behind comparefn a b = false -> R a b.
Hypothesis behind_rev : forall a b, P a -> P b -> behind comparefn a b = true -> R b a.

Lemma insertSorted_sorted x l :
  P x -> Forall P l -> StronglySorted R l ->
  StronglySorted R (insertSorted comparefn x l).
Proof.
  intros Px Pl Hs. induction Hs as [|y l Hs IH Hy]; simpl.
  - repeat constructor.
  - inversion Pl as [|? ? Py Pl']; subst.
    destruct (PrimFloat.ltb 0 (comparefn x y)) eqn:E.
    + constructor; [apply IH; assumption|].
      apply (Permutation_Forall (P := R y) (Permutation_sym (insertSorted_perm x l))).
      constructor; [apply behind_rev; assumption|assumption].
    + assert (Rxy : R x y) by (apply not_behind; assumption).
      constructor; [constructor; assumption|].
      constructor; [assumption|].
      eapply Forall_impl; [|exact Hy]. intros z Hz. eapply R_trans; eassumption.
Qed.

Lemma sort_sorted l : Forall P l -> StronglySorted R (sort comparefn l).
Proof.
  induction 1 as [|x l Px Pl IH]; simpl; [constructor|].
  apply insertSorted_sorted; try assumption.
  apply (Permutation_Forall (Permutation_sym (sort_perm l))). assumption.
Qed.

(** Stability. *)
Variable eqv : A -> A -> bool.
Hypothesis eqv_not_behind :
  forall z x y, eqv z x = true -> eqv z y = true -> behind comparefn x y = false.

Lemma insertSorted_stable z x l :
  filter (eqv z) (insertSorted comparefn x l) = filter (eqv z) (x :: l).
Proof.
  induction l as [|y l IH]; [reflexivity|].
  cbn [insertSorted]. destruct (PrimFloat.ltb 0 (comparefn x y)) eqn:E; [|reflexivity].
  cbn [filter] in *. rewrite IH.
  destruct (eqv z y) eqn:Ey; [|reflexivity].
  destruct (eqv z x) eqn:Ex; [|reflexivity].
  pose proof (eqv_not_behind z x y Ex Ey) as H. unfold PartitionSpec.behind in H. congruence.
Qed.

Lemma sort_stable z l : filter (eqv z) (sort comparefn l) = filter (eqv z) l.
Proof.
  induction l as [|x l IH]; [reflexivity|].
  cbn [sort]. rewrite insertSorted_stable. cbn [filter]. now rewrite IH.
Qed.

End Sorting.

(** A list sorted by a relation that is antisymmetric on its elements is
    determined by its elements. *)
Lemma sorted_perm_unique {A} (R : A -> A -> Prop) (l1 : list A) :
  forall l2,
    StronglySorted R l1 -> StronglySorted R l2 -> Permutation l1 l2 ->
    (forall x y, In x l1 -> In y l1 -> R x y -> R y x -> x = y) ->
    l1 = l2.
Proof.
  induction l1 as [|x l1 IH]; intros l2 S1 S2 Hp Hanti.
  - apply Permutation_nil in Hp. now subst.
  - destruct l2 as [|y l2]; [apply Permutation_sym, Permutation_nil in Hp; discriminate|].
    inversion S1 as [|? ? S1' F1]; subst. inversion S2 as [|? ? S2' F2]; subst.
    assert (Hxy : x = y).
    { assert (Hx : In x (y :: l2)) by (eapply Permutation_in; [exact Hp|now left]).
      assert (Hy : In y (x :: l1))
        by (eapply Permutation_in; [apply Permutation_sym; exact Hp|now left]).
      destruct Hx as [->|Hx]; [reflexivity|].
      destruct Hy as [->|Hy]; [reflexivity|].
      rewrite Forall_forall in F1, F2.
      apply Hanti; [now left|now right|apply F1; assumption|apply F2; assumption]. }
    subst y. f_equal. apply IH; try assumption.
    + eapply Permutation_cons_inv. exact Hp.
    + intros a b Ha Hb. apply Hanti; now right.
Qed.

Lemma filter_perm {A} (f : A -> bool) l1 l2 :
  Permutation l1 l2 -> Permutation (filter f l1) (filter f l2).
Proof.
  induction 1 as [|x l1 l2 Hp IH|x y l|l1 l2 l3 H1 IH1 H2 IH2]; simpl.
  - constructor.
  - destruct (f x); [now constructor|assumption].
  - destruct (f x), (f y); try reflexivity. apply perm_swap.
  - etransitivity; eassumption.
Qed.

End SortFacts.

Module StringOrder.

Lemma ltb_lt a b : String.ltb a b = true <-> String_as_OT.lt a b.
Proof.
  unfold String.ltb. rewrite <- String_as_OT.cmp_lt. unfold String_as_OT.cmp.
  destruct (String.compare a b); split; congruence.
Qed.

Lemma ltb_trans a b c :
  String.ltb a b = true -> String.ltb b c = true -> String.ltb a c = true.
Proof. rewrite !ltb_lt. apply String_as_OT.lt_trans. Qed.

Lemma ltb_irrefl a : String.ltb a a = false.
Proof.
  destruct (String.ltb a a) eqn:E; [|reflexivity].
  apply ltb_lt in E. apply String_as_OT.lt_not_eq in E.
  exfalso. apply E. reflexivity.
Qed.

Lemma ltb_total a b : a <> b -> String.ltb a b = true \/ String.ltb b a = true.
Proof.
  intros Hne. unfold String.ltb.
  rewrite (String.compare_antisym b a).
  destruct (String.compare a b) eqn:E; simpl; auto.
  apply String.compare_eq_iff in E. contradiction.
Qed.

Lemma ltb_asym a b : String.ltb a b = true -> String.ltb b a = false.
Proof.
  intros H. destruct (String.ltb b a) eqn:E; [|reflexivity].
  pose proof (ltb_trans _ _ _ H E) as Hc. now rewrite ltb_irrefl in Hc.
Qed.

End StringOrder.

Module PartitionProps.
Import JS Types Utils FloatOrder FloatFacts ValidatorProps SortFacts StringOrder PartitionSpec.

(** ** The comparator *)

Lemma leb_not_nan x y :
  PrimFloat.leb x y = true -> PrimFloat.is_nan x = false /\ PrimFloat.is_nan y = false.
Proof.
  intros H. split.
  - destruct (PrimFloat.is_nan x) eqn:E; [now rewrite leb_nan_l in H|reflexivity].
  - destruct (PrimFloat.is_nan y) eqn:E; [now rewrite leb_nan_r in H|reflexivity].
Qed.

Lemma eqb_not_nan x y :
  PrimFloat.eqb x y = true -> PrimFloat.is_nan x = false /\ PrimFloat.is_nan y = false.
Proof.
  intros H. split.
  - destruct (PrimFloat.is_nan x) eqn:E; [now rewrite eqb_nan_l in H|reflexivity].
  - destruct (PrimFloat.is_nan y) eqn:E; [now rewrite eqb_nan_r in H|reflexivity].
Qed.

Lemma leb_trans x y z :
  PrimFloat.leb x y = true -> PrimFloat.leb y z = true -> PrimFloat.leb x z = true.
Proof.
  intros H1 H2.
  destruct (leb_not_nan _ _ H1) as [Nx Ny]. destruct (leb_not_nan _ _ H2) as [_ Nz].
  apply (leb_key x y Nx Ny) in H1. apply (leb_key y z Ny Nz) in H2.
  apply (leb_key x z Nx Nz).
  destruct H1 as [H1|H1], H2 as [H2|H2].
  - left. eapply klt_trans; eassumption.
  - left. now rewrite <- H2.
  - left. now rewrite H1.
  - right. congruence.
Qed.

Lemma leb_antisym x y :
  PrimFloat.leb x y = true -> PrimFloat.leb y x = true -> PrimFloat.eqb x y = true.
Proof.
  intros H1 H2. destruct (leb_not_nan _ _ H1) as [Nx Ny].
  apply (leb_key x y Nx Ny) in H1. apply (leb_key y x Ny Nx) in H2.
  apply (eqb_key x y Nx Ny).
  destruct H1 as [H1|H1]; [|assumption].
  destruct H2 as [H2|H2]; [|congruence].
  exfalso. eapply klt_asym; eassumption.
Qed.

Lemma not_ltb_leb x y :
  PrimFloat.is_nan x = false -> PrimFloat.is_nan y = false ->
  PrimFloat.ltb y x = false -> PrimFloat.leb x y = true.
Proof.
  intros Nx Ny H. apply (leb_key x y Nx Ny).
  destruct (klt_total (fk x) (fk y)) as [Hl|[He|Hg]]; [now left|now right|].
  apply (ltb_key y x Ny Nx) in Hg. congruence.
Qed.

Lemma eqb_not_ltb z x y :
  PrimFloat.eqb z x = true -> PrimFloat.eqb z y = true -> PrimFloat.ltb y x = false.
Proof.
  intros H1 H2. destruct (eqb_not_nan _ _ H1) as [Nz Nx].
  destruct (eqb_not_nan _ _ H2) as [_ Ny].
  apply (eqb_key z x Nz Nx) in H1. apply (eqb_key z y Nz Ny) in H2.
  destruct (PrimFloat.ltb y x) eqn:E; [|reflexivity].
  apply (ltb_key y x Ny Nx) in E. rewrite <- H1, <- H2 in E.
  now apply klt_irrefl in E.
Qed.

Lemma sameType_eq s t : sameType s t = true <-> s = t.
Proof. destruct s, t; simpl; split; congruence. Qed.

(** When the comparator puts [a] behind [b]. *)
Lemma behind_spec a b :
  behind compareContracts a b = true
  <-> String.ltb (expiration b) (expiration a) = true
      \/ (expiration a = expiration b
          /\ ((type a = put /\ type b = call)
              \/ (type a = type b
                  /\ PrimFloat.ltb (strike b) (strike a) = true))).
Proof.
  unfold behind, compareContracts.
  destruct (String.eqb_spec (expiration a) (expiration b)) as [He|Hne]; cbn [negb].
  - rewrite He, ltb_irrefl.
    destruct (type a), (type b); rewrite ?sub_positive;
      try change (PrimFloat.ltb 0 (-1)) with false;
      try change (PrimFloat.ltb 0 1) with true;
      split; intros H; try discriminate H;
      try (destruct H as [H|(_ & [[H1 H2]|[H1 H2]])]; congruence);
      try (right; split; [reflexivity|]; auto; fail).
  - destruct (String.ltb (expiration a) (expiration b)) eqn:E.
    + change (PrimFloat.ltb 0 (-1)) with false. split; [discriminate|].
      intros [H|[H _]]; [|contradiction].
      apply ltb_asym in E. congruence.
    + change (PrimFloat.ltb 0 1) with true. split; [|reflexivity]. intros _.
      destruct (ltb_total _ _ Hne) as [H|H]; [congruence|now left].
Qed.

Lemma precedes_trans a b c : precedes a b -> precedes b c -> precedes a c.
Proof.
  unfold precedes.
  intros [H1|(E1 & T1)] [H2|(E2 & T2)].
  - left. eapply ltb_trans; eassumption.
  - left. now rewrite <- E2.
  - left. now rewrite E1.
  - right. split; [congruence|].
    destruct T1 as [[A1 B1]|[A1 B1]], T2 as [[A2 B2]|[A2 B2]]; try congruence.
    + left. split; congruence.
    + left. split; congruence.
    + right. split; [congruence|]. eapply leb_trans; eassumption.
Qed.

Lemma not_behind_precedes a b :
  strikeIsNumber a -> strikeIsNumber b ->
  behind compareContracts a b = false -> precedes a b.
Proof.
  unfold strikeIsNumber, isNaN. intros Na Nb H. unfold precedes.
  destruct (String.eqb_spec (expiration a) (expiration b)) as [He|Hne].
  - right. split; [assumption|].
    destruct (type a) eqn:Ta, (type b) eqn:Tb.
    + right. split; [reflexivity|]. apply not_ltb_leb; try assumption.
      destruct (PrimFloat.ltb (strike b) (strike a)) eqn:E; [|reflexivity].
      assert (Hb : behind compareContracts a b = true)
        by (apply behind_spec; right; split; [assumption|right; split; congruence]).
      congruence.
    + left. split; reflexivity.
    + assert (Hb : behind compareContracts a b = true)
        by (apply behind_spec; right; split; [assumption|left; split; assumption]).
      congruence.
    + right. split; [reflexivity|]. apply not_ltb_leb; try assumption.
      destruct (PrimFloat.ltb (strike b) (strike a)) eqn:E; [|reflexivity].
      assert (Hb : behind compareContracts a b = true)
        by (apply behind_spec; right; split; [assumption|right; split; congruence]).
      congruence.
  - destruct (ltb_total _ _ Hne) as [Hl|Hl]; [now left|].
    assert (Hb : behind compareContracts a b = true) by (apply behind_spec; now left).
    congruence.
Qed.

Lemma behind_precedes_rev a b :
  strikeIsNumber a -> strikeIsNumber b ->
  behind compareContracts a b = true -> precedes b a.
Proof.
  intros _ _ H. apply behind_spec in H. unfold precedes.
  destruct H as [H|(He & [[Ta Tb]|[T L]])].
  - now left.
  - right. split; [congruence|]. left. split; assumption.
  - right. split; [congruence|]. right. split; [congruence|]. now apply ltb_leb.
Qed.

Lemma tied_not_behind z x y :
  tied z x = true -> tied z y = true -> behind compareContracts x y = false.
Proof.
  unfold tied. intros H1 H2.
  apply andb_prop in H1 as [H1 S1]. apply andb_prop in H1 as [E1 T1].
  apply andb_prop in H2 as [H2 S2]. apply andb_prop in H2 as [E2 T2].
  apply String.eqb_eq in E1, E2. apply sameType_eq in T1, T2.
  destruct (behind compareContracts x y) eqn:Hb; [|reflexivity].
  apply behind_spec in Hb.
  destruct Hb as [H|(_ & [[Ta Tb]|[_ L]])].
  - rewrite <- E1, <- E2, ltb_irrefl in H. discriminate H.
  - congruence.
  - rewrite (eqb_not_ltb _ _ _ S1 S2) in L. discriminate L.
Qed.

Lemma precedes_antisym a b : precedes a b -> precedes b a -> tied a b = true.
Proof.
  unfold precedes, tied.
  intros [H1|(E1 & T1)] [H2|(E2 & T2)].
  - apply ltb_asym in H1. congruence.
  - rewrite E2, ltb_irrefl in H1. discriminate H1.
  - rewrite E1, ltb_irrefl in H2. discriminate H2.
  - rewrite E1, String.eqb_refl. cbn [andb].
    destruct T1 as [[A1 B1]|[A1 B1]], T2 as [[A2 B2]|[A2 B2]]; try congruence.
    rewrite A1. replace (sameType (type b) (type b)) with true
      by (symmetry; now apply sameType_eq).
    cbn [andb]. now apply leb_antisym.
Qed.

(** ** Grouping *)

Lemma get_pushContract c m key :
  get (pushContract c m) key
  = if String.eqb (symbol c) key
    then Some (match get m key with Some g => g ++ [c] | None => [c] end)
    else get m key.
Proof.
  induction m as [|[k g] m IH]; cbn [pushContract get].
  - destruct (String.eqb (symbol c) key); reflexivity.
  - destruct (String.eqb_spec k (symbol c)) as [->|Hne]; cbn [get].
    + destruct (String.eqb_spec (symbol c) key); reflexivity.
    + rewrite IH. destruct (String.eqb_spec k key) as [->|Hk]; [|reflexivity].
      destruct (String.eqb_spec (symbol c) key) as [Hc|_]; [|reflexivity].
      congruence.
Qed.

Lemma keys_pushContract c m key :
  In key (keys (pushContract c m)) <-> In key (keys m) \/ key = symbol c.
Proof.
  unfold keys. induction m as [|[k g] m IH]; cbn [pushContract map fst In].
  - intuition congruence.
  - destruct (String.eqb_spec k (symbol c)) as [->|Hne]; cbn [map fst In].
    + intuition congruence.
    + rewrite IH. tauto.
Qed.

Lemma NoDup_keys_pushContract c m :
  NoDup (keys m) -> NoDup (keys (pushContract c m)).
Proof.
  unfold keys. induction m as [|[k g] m IH]; cbn [pushContract map fst]; intros Hnd.
  - repeat constructor. intros [].
  - inversion Hnd as [|? ? Hk Hnd']; subst.
    destruct (String.eqb_spec k (symbol c)) as [->|Hne]; cbn [map fst].
    + constructor; assumption.
    + constructor; [|now apply IH].
      intros Hin. apply (keys_pushContract c m k) in Hin.
      destruct Hin as [Hin|Heq]; [contradiction|congruence].
Qed.

Lemma concat_pushContract c m :
  Permutation (concat (values (pushContract c m))) (c :: concat (values m)).
Proof.
  unfold values. induction m as [|[k g] m IH]; cbn [pushContract map snd concat].
  - reflexivity.
  - destruct (String.eqb k (symbol c)); cbn [map snd concat].
    + rewrite <- app_assoc. cbn [app]. apply Permutation_sym, Permutation_middle.
    + rewrite IH. apply Permutation_sym, Permutation_middle.
Qed.

Lemma groupOf_snoc key p c :
  groupOf key (p ++ [c])
  = groupOf key p ++ (if String.eqb (symbol c) key then [c] else []).
Proof. unfold groupOf. rewrite filter_app. reflexivity. Qed.

Lemma nonEmpty_snoc {A} (g : list A) c :
  Some (match nonEmpty g with Some g' => g' ++ [c] | None => [c] end)
  = nonEmpty (g ++ [c]).
Proof. destruct g; reflexivity. Qed.

Lemma groupedSoFar_fold contracts :
  forall m seen,
    groupedSoFar m seen ->
    groupedSoFar (fold_left (fun grouped c => pushContract c grouped) contracts m)
                 (seen ++ contracts).
Proof.
  induction contracts as [|c contracts IH]; intros m seen Hinv; cbn [fold_left].
  - now rewrite app_nil_r.
  - replace (seen ++ c :: contracts) with ((seen ++ [c]) ++ contracts)
      by (rewrite <- app_assoc; reflexivity).
    apply IH. destruct Hinv as (Hnd & Hget & Hperm). split; [|split].
    + now apply NoDup_keys_pushContract.
    + intros key. rewrite get_pushContract, Hget, groupOf_snoc.
      destruct (String.eqb (symbol c) key).
      * apply nonEmpty_snoc.
      * now rewrite app_nil_r.
    + rewrite concat_pushContract, Hperm. apply Permutation_cons_append.
Qed.

Lemma groupFirstPass_spec contracts : groupedSoFar (groupFirstPass contracts) contracts.
Proof.
  apply (groupedSoFar_fold contracts [] []).
  split; [constructor|]. split; [reflexivity|constructor].
Qed.

Lemma In_get {V} (m : JsMap V) key v :
  NoDup (keys m) -> (In (key, v) m <-> get m key = Some v).
Proof.
  unfold keys. induction m as [|[k g] m IH]; cbn [map fst get In]; intros Hnd.
  - split; [contradiction|discriminate].
  - inversion Hnd as [|? ? Hk Hnd']; subst.
    destruct (String.eqb_spec k key) as [->|Hne].
    + split.
      * intros [H|H]; [congruence|].
        exfalso. apply Hk. apply (in_map fst) in H. exact H.
      * intros H. left. congruence.
    + rewrite <- (IH Hnd'). split; [intros [H|H]; [congruence|assumption]|auto].
Qed.

Lemma keys_groupBySymbol contracts :
  keys (groupBySymbol contracts) = keys (groupFirstPass contracts).
Proof.
  unfold groupBySymbol, keys. rewrite map_map. reflexivity.
Qed.

Lemma get_map_values {V W} (f : V -> W) (m : JsMap V) key :
  get (map (fun entry => (fst entry, f (snd entry))) m) key = option_map f (get m key).
Proof.
  induction m as [|[k g] m IH]; cbn [map get fst snd]; [reflexivity|].
  destruct (String.eqb k key); [reflexivity|assumption].
Qed.

Lemma get_groupBySymbol contracts key :
  get (groupBySymbol contracts) key
  = option_map sortGroup (nonEmpty (groupOf key contracts)).
Proof.
  unfold groupBySymbol. rewrite get_map_values.
  destruct (groupFirstPass_spec contracts) as (_ & Hget & _). now rewrite Hget.
Qed.

Lemma sortGroup_perm g : Permutation (sortGroup g) g.
Proof.
  unfold sortGroup. destruct (1 <? Z.of_nat (List.length g)); [apply sort_perm|reflexivity].
Qed.

Lemma In_groupBySymbol contracts key g :
  In (key, g) (groupBySymbol contracts)
  <-> groupOf key contracts <> [] /\ g = sortGroup (groupOf key contracts).
Proof.
  rewrite In_get
    by (rewrite keys_groupBySymbol; apply (groupFirstPass_spec contracts)).
  rewrite get_groupBySymbol.
  destruct (groupOf key contracts) as [|c l]; cbn [nonEmpty option_map].
  - split; [discriminate|intros [H _]; contradiction].
  - split; [intros H; split; [discriminate|congruence]|intros [_ ->]; reflexivity].
Qed.

Lemma concat_sortGroup (groups : list (list ProcessedOptionContract)) :
  Permutation (concat (map sortGroup groups)) (concat groups).
Proof.
  induction groups as [|g groups IH]; cbn [map concat]; [reflexivity|].
  apply Permutation_app; [apply sortGroup_perm|assumption].
Qed.

(** C10: grouping keeps every record, once, in the group of its own
    symbol: the groups together are a rearrangement of the input, the keys
    of the map are distinct, each group holds exactly the input records of
    its key (in input order after the first pass, rearranged by the sort
    afterwards), and no key has an empty group. *)
Theorem grouping_conserves_records (contracts : list ProcessedOptionContract) :
  Permutation (concat (values (groupFirstPass contracts))) contracts
  /\ Permutation (concat (values (groupBySymbol contracts))) contracts
  /\ NoDup (keys (groupBySymbol contracts))
  /\ (forall key g, In (key, g) (groupFirstPass contracts) ->
                    g = groupOf key contracts /\ g <> [])
  /\ (forall key g, In (key, g) (groupBySymbol contracts) ->
                    Permutation g (groupOf key contracts)
                    /\ g <> []
                    /\ forall c, In c g -> symbol c = key /\ In c contracts)
  /\ (forall c, In c contracts ->
                exists g, In (symbol c, g) (groupBySymbol contracts) /\ In c g).
Proof.
  destruct (groupFirstPass_spec contracts) as (Hnd & Hget & Hperm).
  split; [exact Hperm|]. split; [|split; [|split; [|split]]].
  - unfold groupBySymbol, values. rewrite map_map. cbn [snd].
    rewrite <- (map_map snd sortGroup), concat_sortGroup. exact Hperm.
  - now rewrite keys_groupBySymbol.
  - intros key g Hin. apply (In_get _ _ _ Hnd) in Hin. rewrite Hget in Hin.
    destruct (groupOf key contracts) as [|c l] eqn:E; [discriminate Hin|].
    cbn in Hin. injection Hin as <-. split; [reflexivity|discriminate].
  - intros key g Hin. apply In_groupBySymbol in Hin as [Hne ->].
    pose proof (sortGroup_perm (groupOf key contracts)) as Hp.
    split; [exact Hp|]. split.
    + intros E. rewrite E in Hp. apply Permutation_nil in Hp. contradiction.
    + intros c Hc. apply (Permutation_in _ Hp) in Hc.
      apply filter_In in Hc as [Hc Hs]. apply String.eqb_eq in Hs. now split.
  - intros c Hc.
    assert (Hg : In c (groupOf (symbol c) contracts))
      by (apply filter_In; split; [assumption|apply String.eqb_refl]).
    exists (sortGroup (groupOf (symbol c) contracts)). split.
    + apply In_groupBySymbol. split; [|reflexivity].
      intros E. rewrite E in Hg. contradiction.
    + eapply Permutation_in; [apply Permutation_sym, sortGroup_perm|exact Hg].
Qed.

Lemma Forall_groupOf (P : ProcessedOptionContract -> Prop) key contracts :
  Forall P contracts -> Forall P (groupOf key contracts).
Proof.
  rewrite !Forall_forall. intros H c Hc. apply H.
  apply filter_In in Hc. tauto.
Qed.

Lemma short_sorted {A} (R : A -> A -> Prop) (l : list A) :
  (1 <? Z.of_nat (List.length l)) = false -> StronglySorted R l.
Proof.
  intros H. apply Z.ltb_ge in H.
  destruct l as [|x [|y l]]; [constructor|repeat constructor|].
  cbn [List.length] in H. lia.
Qed.

Lemma sortGroup_sorted g :
  Forall strikeIsNumber g -> StronglySorted precedes (sortGroup g).
Proof.
  intros Hg. unfold sortGroup.
  destruct (1 <? Z.of_nat (List.length g)) eqn:E.
  - apply (sort_sorted compareContracts strikeIsNumber precedes
             precedes_trans not_behind_precedes behind_precedes_rev).
    assumption.
  - now apply short_sorted.
Qed.

Lemma sortGroup_stable z g : filter (tied z) (sortGroup g) = filter (tied z) g.
Proof.
  unfold sortGroup. destruct (1 <? Z.of_nat (List.length g)); [|reflexivity].
  apply (sort_stable compareContracts tied tied_not_behind).
Qed.

(** C5: in every group of the partition of valid records, each record may
    stand in front of every record behind it: the expiration is earlier
    (as strings), or it is the same and a call stands in front of a put, or
    expiration and kind are the same and the strike is not larger; and the
    records that compare equal to any given record are in the order in which
    the input had them. *)
Theorem groups_sorted_and_stable (contracts : list ProcessedOptionContract) :
  Forall strikeIsNumber contracts ->
  forall key g,
    In (key, g) (groupBySymbol contracts) ->
    StronglySorted precedes g
    /\ forall z, filter (tied z) g = filter (tied z) (groupOf key contracts).
Proof.
  intros Hvalid key g Hin. apply In_groupBySymbol in Hin as [_ ->]. split.
  - apply sortGroup_sorted. now apply Forall_groupOf.
  - intros z. apply sortGroup_stable.
Qed.

Lemma In_keys_get {V} (m : JsMap V) key : In key (keys m) <-> get m key <> None.
Proof.
  unfold keys. induction m as [|[k v] m IH]; cbn [map fst In get].
  - split; [contradiction|intros H; now apply H].
  - destruct (String.eqb_spec k key) as [->|Hne].
    + split; [discriminate|now left].
    + rewrite <- IH. split; [intros [H|H]; [contradiction|assumption]|now right].
Qed.

Lemma short_perm_eq {A} (a b : list A) :
  (1 <? Z.of_nat (List.length a)) = false -> Permutation a b -> a = b.
Proof.
  intros H Hp. apply Z.ltb_ge in H.
  destruct a as [|x [|y a]].
  - apply Permutation_nil in Hp. now subst.
  - apply Permutation_length_1_inv in Hp. now subst.
  - cbn [List.length] in H. lia.
Qed.

(** C4, amended: for a permutation of the same valid records the two
    partitions have the same keys, and for every key the two groups hold
    the same records, both in comparator order; the two sequences are
    identical when no two different records of the group compare equal
    (same expiration, kind and strike).  Records that compare equal keep
    their input order, so permuting them permutes them in the output. *)
Theorem partition_of_permutation (l1 l2 : list ProcessedOptionContract) :
  Forall strikeIsNumber l1 ->
  Permutation l1 l2 ->
  (forall key, In key (keys (groupBySymbol l1)) <-> In key (keys (groupBySymbol l2)))
  /\ forall key g1,
      get (groupBySymbol l1) key = Some g1 ->
      exists g2,
        get (groupBySymbol l2) key = Some g2
        /\ Permutation g1 g2
        /\ StronglySorted precedes g1
        /\ StronglySorted precedes g2
        /\ ((forall x y, In x g1 -> In y g1 -> tied x y = true -> x = y) -> g1 = g2).
Proof.
  intros Hvalid Hperm.
  assert (Hvalid2 : Forall strikeIsNumber l2) by (eapply Permutation_Forall; eassumption).
  assert (Hgroup : forall key, Permutation (groupOf key l1) (groupOf key l2))
    by (intros key; now apply filter_perm).
  assert (Hshape : forall key g1,
             get (groupBySymbol l1) key = Some g1 ->
             g1 = sortGroup (groupOf key l1)
             /\ get (groupBySymbol l2) key = Some (sortGroup (groupOf key l2))).
  { intros key g1. rewrite !get_groupBySymbol. specialize (Hgroup key).
    destruct (groupOf key l1) as [|c a] eqn:E1; [discriminate|].
    destruct (groupOf key l2) as [|d b] eqn:E2;
      [apply Permutation_sym, Permutation_nil in Hgroup; discriminate|].
    cbn [nonEmpty option_map]. intros H. injection H as <-. split; reflexivity. }
  split.
  - intros key. rewrite !In_keys_get, !get_groupBySymbol. specialize (Hgroup key).
    destruct (groupOf key l1) as [|c a]; destruct (groupOf key l2) as [|d b];
      cbn [nonEmpty option_map]; try tauto.
    + apply Permutation_nil in Hgroup. discriminate.
    + apply Permutation_sym, Permutation_nil in Hgroup. discriminate.
    + split; discriminate.
  - intros key g1 Hg1. destruct (Hshape key g1 Hg1) as [-> Hg2].
    exists (sortGroup (groupOf key l2)). split; [exact Hg2|].
    assert (Hp : Permutation (sortGroup (groupOf key l1)) (sortGroup (groupOf key l2))).
    { rewrite !sortGroup_perm. apply Hgroup. }
    assert (S1 : StronglySorted precedes (sortGroup (groupOf key l1)))
      by (apply sortGroup_sorted; now apply Forall_groupOf).
    assert (S2 : StronglySorted precedes (sortGroup (groupOf key l2)))
      by (apply sortGroup_sorted; now apply Forall_groupOf).
    repeat split; try assumption.
    intros Hties. apply (sorted_perm_unique precedes); try assumption.
    intros x y Hx Hy Hxy Hyx. apply Hties; try assumption.
    now apply precedes_antisym.
Qed.

Import Examples.
Local Open Scope string_scope.

Ltac floats_differ H :=
  apply (f_equal (fun x => PrimFloat.eqb x 1)) in H; vm_compute in H; discriminate H.

Lemma sampleContracts_valid : Forall strikeIsNumber sampleContracts.
Proof. repeat constructor. Qed.

Lemma groups_sorted_and_stable_witness :
  StronglySorted precedes sampleAaplGroup
  /\ forall z, filter (tied z) sampleAaplGroup
               = filter (tied z) (groupOf "AAPL" sampleContracts).
Proof.
  apply (groups_sorted_and_stable sampleContracts sampleContracts_valid "AAPL").
  vm_compute. left. reflexivity.
Defined.

(** The ordering example of the specification: the December record first,
    then within 2024-01-01 the call in front of the put. *)
Example comparator_order_example :
  map (fun c => (expiration c, type c, strike c))
      (sort compareContracts
         [contract "X" "2024-01-01" call 10 1;
          contract "X" "2024-01-01" put 5 1;
          contract "X" "2023-12-01" call 100 1])
  = [("2023-12-01", call, 100%float); ("2024-01-01", call, 10%float);
     ("2024-01-01", put, 5%float)].
Proof. vm_compute. reflexivity. Qed.

Lemma partition_of_permutation_witness :
  (forall key, In key (keys (groupBySymbol sampleContracts))
               <-> In key (keys (groupBySymbol (rev sampleContracts))))
  /\ forall key g1,
      get (groupBySymbol sampleContracts) key = Some g1 ->
      exists g2,
        get (groupBySymbol (rev sampleContracts)) key = Some g2
        /\ Permutation g1 g2
        /\ StronglySorted precedes g1
        /\ StronglySorted precedes g2
        /\ ((forall x y, In x g1 -> In y g1 -> tied x y = true -> x = y) -> g1 = g2).
Proof.
  apply (partition_of_permutation sampleContracts (rev sampleContracts)).
  - exact sampleContracts_valid.
  - apply Permutation_rev.
Defined.

(** C4 as stated fails: two different valid records that compare equal
    come out in the order in which they went in. *)
Lemma tied_records_keep_input_order :
  ~ partitionIgnoresInputOrder [tiedFirst; tiedSecond] [tiedSecond; tiedFirst].
Proof.
  intros H.
  assert (Hnd : NoDup [tiedFirst; tiedSecond]).
  { constructor; [|constructor; [intros []|constructor]].
    intros [E|[]]. apply (f_equal bid) in E. floats_differ E. }
  assert (Hv : Forall strikeIsNumber [tiedFirst; tiedSecond]) by (repeat constructor).
  specialize (H Hnd Hv (perm_swap _ _ _) "AAPL").
  apply (f_equal (fun o => match o with
                           | Some (c :: _) => PrimFloat.eqb (bid c) 1
                           | _ => false
                           end)) in H.
  vm_compute in H. discriminate H.
Qed.

End PartitionProps.

(* ================================================================== *)
(** * Rounding to four decimals *)
(* ================================================================== *)

Module RoundingProps.
Import JS Types Utils FloatOrder FloatFacts RoundingSpec Examples.

Lemma shr_1_fields rec :
  0 <= shr_m rec ->
  shr_1 rec
  = {| shr_m := shr_m rec / 2; shr_r := Z.odd (shr_m rec);
       shr_s := shr_r rec || shr_s rec |}.
Proof.
  destruct rec as [m r s]. cbn [shr_m shr_r shr_s]. intros Hm.
  unfold shr_1. rewrite <- Z.div2_div.
  destruct m as [|[p|p|]|p]; try reflexivity; lia.
Qed.

Lemma loc_inexact_iff rec :
  shr_r rec || shr_s rec = true <-> loc_of_shr_record rec <> loc_Exact.
Proof.
  destruct rec as [m [|] [|]]; cbn; split; intros H; try discriminate; try reflexivity;
    try congruence.
Qed.

Lemma located_shr_1 D N rec : located D N rec -> located (2 * D) N (shr_1 rec).
Proof.
  intros (HD & Hm & Hrem & Hloc).
  rewrite (shr_1_fields rec Hm). unfold located. cbn [shr_m].
  pose proof (Z.div_mod (shr_m rec) 2 ltac:(lia)) as Hdm.
  pose proof (Z.mod_pos_bound (shr_m rec) 2 ltac:(lia)) as Hb.
  set (m := shr_m rec) in *. set (h := m / 2) in *.
  assert (Hodd : Z.odd m = (m mod 2 =? 1)).
  { rewrite Zmod_odd. destruct (Z.odd m); reflexivity. }
  split; [lia|]. split; [apply Z.div_pos; lia|].
  assert (Hs : (shr_r rec || shr_s rec = true) <-> N - D * m <> 0).
  { rewrite loc_inexact_iff, Hloc. destruct (Z.eqb_spec (N - D * m) 0); split; congruence. }
  split; [nia|].
  unfold loc_of_shr_record. rewrite Hodd.
  destruct (Z.eqb_spec (m mod 2) 1) as [H1|H1];
    destruct (shr_r rec || shr_s rec) eqn:E.
  - assert (N - D * m <> 0) by (apply Hs; reflexivity).
    destruct (Z.eqb_spec (N - 2 * D * h) 0); [nia|].
    f_equal. symmetry. apply Z.compare_gt_iff. nia.
  - assert (N - D * m = 0)
      by (destruct (Z.eq_dec (N - D * m) 0); [assumption|apply Hs in n; discriminate]).
    destruct (Z.eqb_spec (N - 2 * D * h) 0); [nia|].
    f_equal. symmetry. apply Z.compare_eq_iff. nia.
  - assert (N - D * m <> 0) by (apply Hs; reflexivity).
    destruct (Z.eqb_spec (N - 2 * D * h) 0); [nia|].
    f_equal. symmetry. apply Z.compare_lt_iff. nia.
  - assert (N - D * m = 0)
      by (destruct (Z.eq_dec (N - D * m) 0); [assumption|apply Hs in n; discriminate]).
    destruct (Z.eqb_spec (N - 2 * D * h) 0); [reflexivity|nia].
Qed.

Lemma located_iter p :
  forall D N rec,
    located D N rec -> located (D * 2 ^ Zpos p) N (iter_pos shr_1 p rec).
Proof.
  induction p as [p IH|p IH|]; intros D N rec H; cbn [iter_pos].
  - apply located_shr_1 in H. apply IH in H. apply IH in H.
    replace (D * 2 ^ Zpos p~1) with (2 * D * 2 ^ Zpos p * 2 ^ Zpos p); [exact H|].
    rewrite (Pos2Z.inj_xI p).
    replace (2 * Zpos p + 1) with (Zpos p + Zpos p + 1) by lia.
    rewrite !Z.pow_add_r, Z.pow_1_r by lia. ring.
  - apply IH in H. apply IH in H.
    replace (D * 2 ^ Zpos p~0) with (D * 2 ^ Zpos p * 2 ^ Zpos p); [exact H|].
    rewrite (Pos2Z.inj_xO p).
    replace (2 * Zpos p) with (Zpos p + Zpos p) by lia.
    rewrite !Z.pow_add_r by lia. ring.
  - apply located_shr_1 in H. rewrite Z.pow_1_r. now rewrite Z.mul_comm.
Qed.

Lemma located_round D N rec :
  located D N rec ->
  let mR := round_nearest_even (shr_m rec) (loc_of_shr_record rec) in
  shr_m rec <= mR <= shr_m rec + 1 /\ Z.abs (2 * (D * mR - N)) <= D.
Proof.
  intros (HD & Hm & Hrem & Hloc). cbv zeta. rewrite Hloc.
  set (m := shr_m rec) in *.
  destruct (Z.eqb_spec (N - D * m) 0) as [H0|H0]; cbn [round_nearest_even].
  - split; [lia|]. replace (D * m - N) with 0 by lia. cbn. lia.
  - destruct (Z.compare_spec (2 * (N - D * m)) D) as [Hc|Hc|Hc].
    + destruct (Z.even m); split; try lia;
        rewrite ?Z.mul_add_distr_l; lia.
    + split; lia.
    + split; lia.
Qed.

Lemma digits2_pos_unique m d :
  2 ^ (d - 1) <= Zpos m < 2 ^ d -> Zpos (digits2_pos m) = d.
Proof.
  intros [Hlo Hhi]. pose proof (digits2_pos_bounds m) as [Hlo' Hhi'].
  set (d' := Zpos (digits2_pos m)) in *.
  assert (0 < d).
  { destruct d as [|p|p]; [cbn in Hhi; lia | lia |].
    rewrite (Z.pow_neg_r 2 (Zneg p)) in Hhi by lia. lia. }
  destruct (Z.lt_total d' d) as [Hlt|[Heq|Hgt]]; [|assumption|].
  - assert (2 ^ d' <= 2 ^ (d - 1)) by (apply Z.pow_le_mono_r; lia). lia.
  - assert (2 ^ d <= 2 ^ (d' - 1)) by (apply Z.pow_le_mono_r; lia). lia.
Qed.

Lemma loc_of_record_of_loc m l : loc_of_shr_record (shr_record_of_loc m l) = l.
Proof. destruct l as [|[]]; reflexivity. Qed.

Lemma fexp_normal d : emin <= d - 53 -> fexp prec emax d = d - 53.
Proof. unfold fexp, SpecFloat.emin, prec, emax. lia. Qed.

(** The second, exact shift of [binary_round_aux] on a rounded mantissa
    of 53 bits, or [2^53] after a carry. *)
Lemma round_finish s mR e1 :
  2 ^ 52 <= mR <= 2 ^ 53 -> emin <= e1 -> e1 + 1 <= emax - prec ->
  exists mF t,
    (let '(mrs, e2) := shr_fexp prec emax mR e1 loc_Exact in
     match shr_m mrs with
     | Z0 => S754_zero s
     | Zpos m => if e2 <=? emax - prec then S754_finite s m e2 else S754_infinity s
     | Zneg _ => S754_nan
     end) = S754_finite s mF (e1 + t)
    /\ 0 <= t <= 1 /\ 2 ^ 52 <= Zpos mF < 2 ^ 53 /\ Zpos mF * 2 ^ t = mR.
Proof.
  intros [Hlo Hhi] He1 Hmax.
  destruct mR as [|pR|pR]; try (exfalso; cbn in Hlo; lia).
  destruct (Z.eq_dec (Zpos pR) (2 ^ 53)) as [Hc|Hc].
  - injection Hc as ->. exists (4503599627370496%positive), 1.
    unfold shr_fexp. cbn [Zdigits2].
    change (Zpos (digits2_pos 9007199254740992)) with 54.
    rewrite fexp_normal by lia.
    replace (54 + e1 - 53 - e1) with 1 by lia. cbn [shr iter_pos shr_record_of_loc shr_1 shr_m].
    replace (e1 + 1 <=? emax - prec) with true by (symmetry; apply Z.leb_le; lia).
    repeat split; cbn; lia.
  - exists pR, 0.
    assert (Hd : Zpos (digits2_pos pR) = 53)
      by (apply digits2_pos_unique; change (53 - 1) with 52; lia).
    unfold shr_fexp. cbn [Zdigits2]. rewrite Hd, fexp_normal by lia.
    replace (53 + e1 - 53 - e1) with 0 by lia. cbn [shr shr_record_of_loc shr_m].
    replace (e1 <=? emax - prec) with true by (symmetry; apply Z.leb_le; lia).
    rewrite Z.add_0_r. repeat split; try lia.
Qed.

(** [binary_round_aux] on a mantissa of at least 53 bits in the normal
    range: the result is finite, its mantissa has 53 bits, and it is within
    half a unit in the last place of [N / D]. *)
Lemma round_located s m e loc D N :
  located D N (shr_record_of_loc (Zpos m) loc) ->
  let dm := Zpos (digits2_pos m) in
  53 <= dm -> emin <= e + (dm - 53) -> e + (dm - 53) + 1 <= emax - prec ->
  exists mF t,
    binary_round_aux prec emax s (Zpos m) e loc = S754_finite s mF (e + (dm - 53) + t)
    /\ 0 <= t <= 1 /\ 2 ^ 52 <= Zpos mF < 2 ^ 53
    /\ Z.abs (2 * (D * 2 ^ (dm - 53) * (Zpos mF * 2 ^ t) - N)) <= D * 2 ^ (dm - 53).
Proof.
  intros Hloc dm Hdm Hmin Hmax.
  pose proof (digits2_pos_bounds m) as [Hlo Hhi]. fold dm in Hlo, Hhi.
  set (p1 := dm - 53) in *.
  assert (Hpow : 2 ^ (dm - 1) = 2 ^ p1 * 2 ^ 52 /\ 2 ^ dm = 2 ^ p1 * 2 ^ 53).
  { split; rewrite <- Z.pow_add_r by lia; f_equal; lia. }
  destruct Hpow as [Hp52 Hp53].
  assert (Hp1 : 0 < 2 ^ p1) by (apply Z.pow_pos_nonneg; lia).
  assert (Hstage1 :
    exists rec1,
      shr_fexp prec emax (Zpos m) e loc = (rec1, e + p1)
      /\ located (D * 2 ^ p1) N rec1
      /\ shr_m rec1 = Zpos m / 2 ^ p1).
  { unfold shr_fexp. cbn [Zdigits2]. fold dm. rewrite fexp_normal by lia.
    replace (dm + e - 53 - e) with p1 by lia.
    destruct p1 as [|q|q] eqn:Eq; try lia; cbn [shr].
    - exists (shr_record_of_loc (Zpos m) loc). rewrite Z.add_0_r.
      split; [reflexivity|]. split.
      + now rewrite Z.pow_0_r, Z.mul_1_r.
      + rewrite shr_m_of_loc, Z.pow_0_r, Z.div_1_r. reflexivity.
    - exists (iter_pos shr_1 q (shr_record_of_loc (Zpos m) loc)).
      split; [reflexivity|]. split.
      + now apply located_iter.
      + rewrite iter_pos_shr by (rewrite shr_m_of_loc; lia).
        now rewrite shr_m_of_loc. }
  destruct Hstage1 as (rec1 & Hs1 & Hloc1 & Hm1).
  unfold binary_round_aux. rewrite Hs1.
  pose proof (located_round _ _ _ Hloc1) as [HmR Herr]. cbv zeta in HmR, Herr.
  set (mR := round_nearest_even (shr_m rec1) (loc_of_shr_record rec1)) in *.
  assert (Hm1r : 2 ^ 52 <= shr_m rec1 < 2 ^ 53).
  { rewrite Hm1. split.
    - apply Z.div_le_lower_bound; lia.
    - apply Z.div_lt_upper_bound; lia. }
  destruct (round_finish s mR (e + p1) ltac:(lia) ltac:(lia) ltac:(lia))
    as (mF & t & Hfin & Ht & HmF & Hval).
  exists mF, t. rewrite Hfin. split; [reflexivity|]. split; [assumption|].
  split; [assumption|]. rewrite Hval. exact Herr.
Qed.

Lemma shl_align_snd m e e' : e' <= e -> snd (shl_align m e e') = e'.
Proof.
  intros He. unfold shl_align.
  destruct (e' - e) as [|d|d] eqn:Hd; cbn [snd]; lia.
Qed.

Lemma located_exact m : located 1 (Zpos m) (shr_record_of_loc (Zpos m) loc_Exact).
Proof.
  unfold located. cbn [shr_record_of_loc shr_m loc_of_shr_record].
  rewrite Z.mul_1_l, Z.sub_diag. cbn [Z.eqb]. repeat split; lia.
Qed.

(** An integer of at most 53 bits is converted without rounding. *)
Lemma binary_round_exact s m d :
  Zpos (digits2_pos m) = d -> d <= 53 ->
  exists mz,
    binary_round prec emax s m 0 = S754_finite s mz (d - 53)
    /\ Zpos mz = Zpos m * 2 ^ (53 - d)
    /\ 2 ^ 52 <= Zpos mz < 2 ^ 53.
Proof.
  intros Hd Hle. pose proof (digits2_pos_bounds m) as [Hlo Hhi]. rewrite Hd in Hlo, Hhi.
  assert (Hd1 : 1 <= d) by lia.
  unfold binary_round. rewrite Hd, Z.add_0_r.
  assert (Hf : fexp prec emax d = d - 53)
    by (unfold fexp, SpecFloat.emin, prec, emax; lia).
  rewrite Hf.
  pose proof (shl_align_fst m 0 (d - 53) ltac:(lia)) as Hfst.
  pose proof (shl_align_snd m 0 (d - 53) ltac:(lia)) as Hsnd.
  destruct (shl_align m 0 (d - 53)) as [mz ez]. cbn [fst snd] in Hfst, Hsnd. subst ez.
  replace (0 - (d - 53)) with (53 - d) in Hfst by lia.
  assert (Hsh : 0 < 2 ^ (53 - d)) by (apply Z.pow_pos_nonneg; lia).
  assert (Hr : 2 ^ 52 <= Zpos mz < 2 ^ 53).
  { rewrite Hfst.
    replace (2 ^ 52) with (2 ^ (d - 1) * 2 ^ (53 - d))
      by (rewrite <- Z.pow_add_r by lia; f_equal; lia).
    replace (2 ^ 53) with (2 ^ d * 2 ^ (53 - d))
      by (rewrite <- Z.pow_add_r by lia; f_equal; lia).
    split; [apply Z.mul_le_mono_nonneg_r | apply Z.mul_lt_mono_pos_r]; lia. }
  assert (Hdz : Zpos (digits2_pos mz) = 53)
    by (apply digits2_pos_unique; change (53 - 1) with 52; exact Hr).
  destruct (round_located s mz (d - 53) loc_Exact 1 (Zpos mz) (located_exact mz))
    as (mF & t & Heq & Ht & HmF & Herr).
  1-3: rewrite Hdz; unfold SpecFloat.emin, prec, emax; lia.
  rewrite Hdz in Heq, Herr. change (53 - 53) with 0 in Heq, Herr.
  rewrite Z.pow_0_r, Z.mul_1_l in Herr.
  assert (t = 0 \/ t = 1) as [->| ->] by lia.
  - rewrite Z.pow_0_r, Z.mul_1_r in Herr.
    assert (mF = mz) as -> by lia.
    exists mz. rewrite Heq. split; [f_equal; lia|]. split; assumption.
  - exfalso. change (2 ^ 1) with 2 in Herr. lia.
Qed.

Lemma of_integer_spec n :
  0 < Z.abs n < 2 ^ 53 ->
  exists d mz,
    Prim2SF (of_integer n) = S754_finite (n <? 0) mz (d - 53)
    /\ 1 <= d <= 53
    /\ 2 ^ (d - 1) <= Z.abs n < 2 ^ d
    /\ Zpos mz = Z.abs n * 2 ^ (53 - d)
    /\ 2 ^ 52 <= Zpos mz < 2 ^ 53.
Proof.
  intros Hn.
  assert (HwB : Uint63.wB = 2 ^ 63) by reflexivity.
  assert (H63 : 2 ^ 53 < 2 ^ 63) by (apply Z.pow_lt_mono_r; lia).
  assert (Hconv : exists d mz,
             binary_normalize prec emax (Z.abs n) 0 false = S754_finite false mz (d - 53)
             /\ 1 <= d <= 53 /\ 2 ^ (d - 1) <= Z.abs n < 2 ^ d
             /\ Zpos mz = Z.abs n * 2 ^ (53 - d) /\ 2 ^ 52 <= Zpos mz < 2 ^ 53).
  { destruct (Z.abs n) as [|p|p] eqn:Ep; try lia.
    cbn [binary_normalize].
    pose proof (digits2_pos_bounds p) as Hb.
    assert (Hd53 : Zpos (digits2_pos p) <= 53).
    { destruct (Z.le_gt_cases (Zpos (digits2_pos p)) 53) as [|Hgt]; [assumption|].
      exfalso.
      assert (2 ^ 53 <= 2 ^ (Zpos (digits2_pos p) - 1)) by (apply Z.pow_le_mono_r; lia).
      lia. }
    destruct (binary_round_exact false p _ eq_refl Hd53) as (mz & Heq & Hmz & Hr).
    exists (Zpos (digits2_pos p)), mz. repeat split; try assumption; try lia. }
  unfold of_integer. destruct (Z.ltb_spec n 0) as [Hneg|Hpos].
  - rewrite FloatAxioms.opp_spec, FloatAxioms.of_uint63_spec, Uint63.of_Z_spec.
    rewrite Z.mod_small by lia.
    replace (- n) with (Z.abs n) by lia.
    destruct Hconv as (d & mz & Heq & H). exists d, mz.
    split; [exact (f_equal SFopp Heq) | exact H].
  - rewrite FloatAxioms.of_uint63_spec, Uint63.of_Z_spec.
    rewrite Z.mod_small by lia.
    destruct Hconv as (d & mz & Heq & H). exists d, mz.
    rewrite (Z.abs_eq n Hpos) in Heq.
    split; [exact Heq | exact H].
Qed.

Lemma DECIMAL_MULTIPLIER_spec :
  Prim2SF DECIMAL_MULTIPLIER = S754_finite false scaleMantissa (-39).
Proof. reflexivity. Qed.

Ltac literal_powers :=
  change (2 ^ 52) with 4503599627370496 in *;
  change (2 ^ 53) with 9007199254740992 in *;
  change (2 ^ 54) with 18014398509481984 in *.

(** Division of a normal number by [10000]: the quotient mantissa [mQ],
    scaled by [2^a], is within [scaleMantissa] of the exact quotient. *)
Lemma div_scale s mK eK :
  2 ^ 52 <= Zpos mK < 2 ^ 53 -> -500 <= eK <= emax - prec ->
  exists mQ a,
    SFdiv prec emax (S754_finite s mK eK) (S754_finite false scaleMantissa (-39))
    = S754_finite s mQ (eK - 14 + a)
    /\ 0 <= a <= 2 /\ 2 ^ 52 <= Zpos mQ < 2 ^ 53
    /\ Z.abs (Zpos scaleMantissa * (Zpos mQ * 2 ^ a) - Zpos mK * 2 ^ 53)
       <= Zpos scaleMantissa.
Proof.
  intros HmK HeK. unfold emax, prec in HeK.
  assert (HdK : Zpos (digits2_pos mK) = 53)
    by (apply digits2_pos_unique; change (53 - 1) with 52; exact HmK).
  cbn [SFdiv]. unfold SFdiv_core_binary. cbn [Zdigits2]. rewrite HdK.
  change (Zpos (digits2_pos scaleMantissa)) with 53.
  replace (53 + eK - (53 + -39)) with (eK + 39) by lia.
  rewrite fexp_normal by (unfold SpecFloat.emin, prec, emax; lia).
  rewrite Z.min_l by lia.
  replace (eK - -39 - (eK + 39 - 53)) with 53 by lia.
  rewrite Z.shiftl_mul_pow2 by lia. rewrite xorb_false_r.
  pose proof (Z_div_mod (Zpos mK * 2 ^ 53) (Zpos scaleMantissa) eq_refl) as Hdiv.
  destruct (Z.div_eucl (Zpos mK * 2 ^ 53) (Zpos scaleMantissa)) as [q r].
  destruct Hdiv as [Hqr Hr].
  change (new_location (Zpos scaleMantissa)) with (new_location_even (Zpos scaleMantissa)).
  unfold scaleMantissa in *. literal_powers.
  assert (Hq : 4503599627370496 <= q < 18014398509481984) by lia.
  destruct q as [|pq|pq]; try lia.
  assert (Hloc : located 5497558138880000 (Zpos mK * 9007199254740992)
                   (shr_record_of_loc (Zpos pq) (new_location_even 5497558138880000 r))).
  { unfold located. rewrite shr_m_of_loc, loc_of_record_of_loc.
    replace (Zpos mK * 9007199254740992 - 5497558138880000 * Zpos pq) with r by lia.
    unfold new_location_even. repeat split; lia. }
  assert (Hdq : Zpos (digits2_pos pq) = 53 \/ Zpos (digits2_pos pq) = 54).
  { destruct (Z.lt_ge_cases (Zpos pq) 9007199254740992).
    - left. apply digits2_pos_unique. change (2 ^ (53 - 1)) with 4503599627370496.
      change (2 ^ 53) with 9007199254740992. lia.
    - right. apply digits2_pos_unique. change (2 ^ (54 - 1)) with 9007199254740992.
      change (2 ^ 54) with 18014398509481984. lia. }
  destruct (round_located s pq (eK + 39 - 53) _ _ _ Hloc)
    as (mF & t & Heq & Ht & HmF & Herr).
  1-3: unfold SpecFloat.emin, prec, emax; lia.
  literal_powers.
  exists mF, (Zpos (digits2_pos pq) - 53 + t). rewrite Heq.
  split; [f_equal; lia|].
  split; [lia|]. split; [exact HmF|].
  destruct Hdq as [Hd|Hd]; rewrite Hd in *.
  - change (53 - 53) with 0 in *. rewrite Z.pow_0_r, Z.mul_1_r in Herr.
    rewrite Z.add_0_l. lia.
  - change (54 - 53) with 1 in *. change (2 ^ 1) with 2 in Herr.
    rewrite Z.pow_add_r by lia. change (2 ^ 1) with 2.
    lia.
Qed.

(** Multiplication of a normal number by [10000]: the product mantissa
    [mP], scaled by [2^b], is within [2^52] of the exact product. *)
Lemma mul_scale s mQ eQ :
  2 ^ 52 <= Zpos mQ < 2 ^ 53 -> -500 <= eQ <= 500 ->
  exists mP b,
    SFmul prec emax (S754_finite s mQ eQ) (S754_finite false scaleMantissa (-39))
    = S754_finite s mP (eQ - 39 + b)
    /\ 52 <= b <= 54 /\ 2 ^ 52 <= Zpos mP < 2 ^ 53
    /\ Z.abs (Zpos mP * 2 ^ b - Zpos mQ * Zpos scaleMantissa) <= 2 ^ 52.
Proof.
  intros HmQ HeQ. cbn [SFmul]. rewrite xorb_false_r.
  set (U := (mQ * scaleMantissa)%positive).
  assert (HU : Zpos U = Zpos mQ * Zpos scaleMantissa) by apply Pos2Z.inj_mul.
  unfold scaleMantissa in HU |- *. literal_powers.
  assert (HdU : Zpos (digits2_pos U) = 105 \/ Zpos (digits2_pos U) = 106).
  { destruct (Z.lt_ge_cases (Zpos U) (2 ^ 105)) as [H|H].
    - left. apply digits2_pos_unique. split; [|exact H].
      change (2 ^ (105 - 1)) with 20282409603651670423947251286016. lia.
    - right. apply digits2_pos_unique. split; [exact H|].
      change (2 ^ 106) with 81129638414606681695789005144064. lia. }
  destruct (round_located s U (eQ + -39) loc_Exact 1 (Zpos U) (located_exact U))
    as (mF & t & Heq & Ht & HmF & Herr).
  1-3: unfold SpecFloat.emin, prec, emax; lia.
  literal_powers.
  exists mF, (Zpos (digits2_pos U) - 53 + t). rewrite Heq.
  split; [f_equal; lia|].
  split; [lia|]. split; [exact HmF|].
  rewrite <- HU. rewrite Z.mul_1_l in Herr.
  rewrite Z.pow_add_r by lia.
  assert (Ht' : t = 0 \/ t = 1) by lia.
  destruct HdU as [Hd|Hd]; rewrite Hd in *.
  - change (2 ^ (105 - 53)) with 4503599627370496 in *. lia.
  - change (2 ^ (106 - 53)) with 9007199254740992 in *. lia.
Qed.

(** Scaling an integer below [2^50] down by [10000] and up again lands
    within half a unit of it, so [Math.round] recovers the integer. *)
Lemma round_scaled n :
  0 < Z.abs n < 2 ^ 50 ->
  Math_round (PrimFloat.mul (PrimFloat.div (of_integer n) DECIMAL_MULTIPLIER)
                            DECIMAL_MULTIPLIER)
  = of_integer n.
Proof.
  intros Hn.
  assert (H5053 : 2 ^ 50 < 2 ^ 53) by (apply Z.pow_lt_mono_r; lia).
  destruct (of_integer_spec n ltac:(lia)) as (d & mK & HK & Hd & Hnd & HmK & HrK).
  assert (Hd50 : d <= 50).
  { destruct (Z.le_gt_cases d 50) as [|Hgt]; [assumption|]. exfalso.
    assert (2 ^ 50 <= 2 ^ (d - 1)) by (apply Z.pow_le_mono_r; lia). lia. }
  destruct (div_scale (n <? 0) mK (d - 53) HrK ltac:(unfold emax, prec; lia))
    as (mQ & a & HQ & Ha & HrQ & HerrQ).
  destruct (mul_scale (n <? 0) mQ (d - 53 - 14 + a) HrQ ltac:(lia))
    as (mP & b & HP & Hb & HrP & HerrP).
  unfold Math_round.
  rewrite FloatAxioms.mul_spec, FloatAxioms.div_spec, HK, DECIMAL_MULTIPLIER_spec.
  unfold SF64mul, SF64div. rewrite HQ, HP.
  set (eP := d - 53 - 14 + a - 39 + b).
  set (k := 106 - d - a - b).
  assert (HeP : eP = - k) by (unfold eP, k; lia).
  assert (HG : 2 ^ k * 2 ^ (a + b) = 2 ^ (106 - d) \/ k < 0).
  { destruct (Z.lt_ge_cases k 0); [now right|left].
    rewrite <- Z.pow_add_r by lia. f_equal. unfold k. lia. }
  assert (H106 : 2 ^ 56 <= 2 ^ (106 - d)) by (apply Z.pow_le_mono_r; lia).
  assert (HmK' : Zpos mK * 2 ^ 53 = Z.abs n * 2 ^ (106 - d)).
  { rewrite HmK, <- Z.mul_assoc, <- Z.pow_add_r by lia. do 2 f_equal. lia. }
  assert (Hab : Zpos mP * 2 ^ (a + b) - Zpos mK * 2 ^ 53
                = (Zpos mP * 2 ^ b - Zpos mQ * Zpos scaleMantissa) * 2 ^ a
                  + (Zpos scaleMantissa * (Zpos mQ * 2 ^ a) - Zpos mK * 2 ^ 53)).
  { rewrite Z.pow_add_r by lia. ring. }
  assert (Ha2 : 0 < 2 ^ a <= 4).
  { split; [apply Z.pow_pos_nonneg; lia|].
    change 4 with (2 ^ 2). apply Z.pow_le_mono_r; lia. }
  assert (Hclose : Z.abs (Zpos mP * 2 ^ (a + b) - Zpos mK * 2 ^ 53) < 2 ^ 55).
  { rewrite Hab. unfold scaleMantissa in *.
    change (2 ^ 55) with 36028797018963968. literal_powers.
    set (T1 := Zpos mP * 2 ^ b - Zpos mQ * 5497558138880000) in *.
    assert (Z.abs (T1 * 2 ^ a) <= 4503599627370496 * 4).
    { rewrite Z.abs_mul, (Z.abs_eq (2 ^ a)) by lia.
      apply Z.mul_le_mono_nonneg; lia. }
    lia. }
  assert (Hab52 : 2 ^ 52 <= 2 ^ (a + b)) by (apply Z.pow_le_mono_r; lia).
  assert (Hkpos : 0 < k).
  { destruct (Z.lt_ge_cases 0 k) as [|Hk]; [assumption|]. exfalso.
    assert (Hbig : 2 ^ (106 - d) <= 2 ^ (a + b)) by (apply Z.pow_le_mono_r; unfold k in Hk; lia).
    rewrite HmK' in Hclose.
    assert (Z.abs n * 2 ^ (106 - d) <= 2 ^ 50 * 2 ^ (106 - d))
      by (apply Z.mul_le_mono_nonneg_r; lia).
    assert (2 ^ 52 * 2 ^ (106 - d) <= Zpos mP * 2 ^ (a + b))
      by (apply Z.mul_le_mono_nonneg; lia).
    change (2 ^ 50) with 1125899906842624 in *. change (2 ^ 55) with 36028797018963968 in *.
    change (2 ^ 56) with 72057594037927936 in *. literal_powers. lia. }
  destruct HG as [HG|]; [|lia].
  replace (0 <=? eP) with false by (symmetry; apply Z.leb_gt; lia).
  replace (- eP) with k by lia. replace (1 - eP) with (Z.succ k) by lia.
  rewrite Z.pow_succ_r by lia.
  set (E := 2 ^ k) in *. set (G := 2 ^ (a + b)) in *.
  assert (HE : 0 < E) by (apply Z.pow_pos_nonneg; lia).
  assert (HGp : 0 < G) by (apply Z.pow_pos_nonneg; lia).
  (* the distance between the mantissa and the scaled integer *)
  assert (HT : 2 * Z.abs (Zpos mP - Z.abs n * E) < E).
  { rewrite HmK', <- HG in Hclose.
    replace (Zpos mP * G - Z.abs n * (E * G)) with ((Zpos mP - Z.abs n * E) * G) in Hclose by ring.
    rewrite Z.abs_mul, (Z.abs_eq G) in Hclose by lia.
    destruct (Z.lt_ge_cases (2 * Z.abs (Zpos mP - Z.abs n * E)) E) as [|Hge]; [assumption|].
    exfalso.
    assert (E * G <= 2 * Z.abs (Zpos mP - Z.abs n * E) * G)
      by (apply Z.mul_le_mono_nonneg_r; lia).
    change (2 ^ 55) with 36028797018963968 in *.
    change (2 ^ 56) with 72057594037927936 in *. lia. }
  assert (Hquot : (2 * cond_Zopp (n <? 0) (Zpos mP) + E) / (2 * E) = n).
  { symmetry.
    apply Z.div_unique with (r := 2 * cond_Zopp (n <? 0) (Zpos mP) + E - 2 * E * n).
    - left. destruct (Z.ltb_spec n 0) as [Hneg|Hpos]; cbn [cond_Zopp].
      + replace (Z.abs n) with (- n) in HT by lia.
        replace (2 * E * n) with (- (2 * (- n * E))) by ring. lia.
      + replace (Z.abs n) with n in HT by lia.
        replace (2 * E * n) with (2 * (n * E)) by ring. lia.
    - ring. }
  rewrite Hquot.
  replace (n =? 0) with false by (symmetry; apply Z.eqb_neq; lia).
  reflexivity.
Qed.

Lemma roundTripLimit_spec :
  Prim2SF roundTripLimit = S754_finite false 4503599627370496 (-2).
Proof. reflexivity. Qed.

Lemma below_limit z :
  SFltb (SFabs z) (S754_finite false 4503599627370496 (-2)) = true ->
  match z with
  | S754_zero _ => True
  | S754_finite _ m e => e < -2 \/ (e = -2 /\ Zpos m < 2 ^ 52)
  | _ => False
  end.
Proof.
  destruct z as [s|s| |s m e]; cbn [SFabs]; try exact (fun _ => I); try discriminate.
  unfold SFltb.
  destruct (SFcompare_key (S754_finite false m e)
              (S754_finite false 4503599627370496 (-2)) eq_refl eq_refl)
    as (c & -> & Hl & _ & _).
  intros H. assert (Hc : c = Lt) by (destruct c; congruence).
  apply Hl in Hc. cbn in Hc. change (2 ^ 52) with 4503599627370496. lia.
Qed.

(** The results of [Math.round]: the argument itself when that is not
    finite, a zero or an integer of 53 bits; a zero; or a non-zero integer
    of magnitude at most [2^52]. *)
Lemma Math_round_cases y :
  (Math_round y = y
   /\ match Prim2SF y with
      | S754_finite _ m e => 0 <= e <= emax - prec /\ 2 ^ 52 <= Zpos m < 2 ^ 53
      | _ => True
      end)
  \/ Math_round y = 0%float \/ Math_round y = (-0)%float
  \/ exists n, 0 < Z.abs n <= 2 ^ 52 /\ Math_round y = of_integer n.
Proof.
  pose proof (Prim2SF_valid y) as Hv.
  unfold Math_round. destruct (Prim2SF y) as [s|s| |s m e] eqn:Ey;
    try (left; split; [reflexivity|exact I]).
  cbn [valid_binary] in Hv.
  assert (Hmax : e <= emax - prec).
  { unfold bounded in Hv. apply andb_prop in Hv as [_ Hv]. now apply Z.leb_le in Hv. }
  apply bounded_facts in Hv as (Hemin & Hdig & Hnorm).
  pose proof (digits2_pos_bounds m) as [Hmlo Hmhi].
  destruct (Z.leb_spec 0 e) as [He|He].
  - left. split; [reflexivity|]. split; [lia|].
    rewrite Hnorm in Hmlo, Hmhi by (unfold SpecFloat.emin, prec, emax; lia).
    exact (conj Hmlo Hmhi).
  - right. set (E := 2 ^ (- e)).
    replace (2 ^ (1 - e)) with (2 * E)
      by (unfold E; rewrite <- Z.pow_succ_r by lia; f_equal; lia).
    assert (HE : 2 <= E)
      by (change 2 with (2 ^ 1) at 1; apply Z.pow_le_mono_r; lia).
    assert (Hm53 : Zpos m < 2 ^ 53).
    { assert (2 ^ Zpos (digits2_pos m) <= 2 ^ 53) by (apply Z.pow_le_mono_r; lia). lia. }
    set (n := (2 * cond_Zopp s (Zpos m) + E) / (2 * E)).
    assert (Hn : - 2 ^ 52 <= n < 2 ^ 52 + 1).
    { literal_powers. unfold n. split.
      - apply Z.div_le_lower_bound; [lia|]. destruct s; cbn [cond_Zopp]; lia.
      - apply Z.div_lt_upper_bound; [lia|]. destruct s; cbn [cond_Zopp]; lia. }
    destruct (Z.eqb_spec n 0) as [Hn0|Hn0].
    + destruct s; tauto.
    + right; right. exists n. split; [lia|reflexivity].
Qed.

(** A finite non-zero result of [Math.round] is a normal number. *)
Lemma Math_round_shape y :
  match Prim2SF (Math_round y) with
  | S754_finite _ m e => -52 <= e <= emax - prec /\ 2 ^ 52 <= Zpos m < 2 ^ 53
  | _ => True
  end.
Proof.
  destruct (Math_round_cases y) as [[-> H]|[->|[->|(n & Hn & ->)]]]; try exact I.
  - destruct (Prim2SF y); try exact I. split; [lia|tauto].
  - assert (Hn53 : 0 < Z.abs n < 2 ^ 53) by (literal_powers; lia).
    destruct (of_integer_spec n Hn53) as (d & mz & -> & Hd & _ & _ & Hmz).
    split; [unfold emax, prec; lia|exact Hmz].
Qed.

(** Within the range, [Math.round] yields a zero or a non-zero integer
    below [2^50] in magnitude. *)
Lemma round_range y :
  PrimFloat.ltb (PrimFloat.abs (Math_round y)) roundTripLimit = true ->
  Math_round y = 0%float \/ Math_round y = (-0)%float
  \/ exists n, 0 < Z.abs n < 2 ^ 50 /\ Math_round y = of_integer n.
Proof.
  rewrite FloatAxioms.ltb_spec, FloatAxioms.abs_spec, roundTripLimit_spec.
  intros H.
  destruct (Math_round_cases y) as [[Hy Hs]|[Hy|[Hy|(n & Hn & Hy)]]]; try tauto.
  - rewrite Hy in H |- *. apply below_limit in H.
    destruct (Prim2SF y) as [s|s| |s m e] eqn:Ey; try contradiction.
    + rewrite <- (SF2Prim_Prim2SF y), Ey. destruct s; [right; left|left]; reflexivity.
    + exfalso. lia.
  - right; right. exists n. split; [|exact Hy].
    assert (Hn53 : 0 < Z.abs n < 2 ^ 53) by (literal_powers; lia).
    destruct (of_integer_spec n Hn53) as (d & mz & Hz & Hd & Hnd & _ & Hmz).
    rewrite Hy, Hz in H. apply below_limit in H.
    split; [lia|].
    assert (2 ^ d <= 2 ^ 50) by (apply Z.pow_le_mono_r; lia). lia.
Qed.

Lemma roundToPrecision_zero :
  roundToPrecision 0 = 0%float /\ roundToPrecision (-0) = (-0)%float.
Proof. split; reflexivity. Qed.

Lemma round_trip x :
  withinRoundingRange x = true ->
  roundToPrecision (roundToPrecision x) = roundToPrecision x.
Proof.
  unfold withinRoundingRange, roundToPrecision. intros H.
  set (r := Math_round (PrimFloat.mul x DECIMAL_MULTIPLIER)) in *.
  destruct (round_range _ H) as [Hr|[Hr|(n & Hn & Hr)]]; fold r in Hr; rewrite Hr.
  - reflexivity.
  - reflexivity.
  - now rewrite round_scaled.
Qed.

Lemma fieldLimit_spec :
  Prim2SF fieldLimit = S754_finite false 4503599627370496 (-16).
Proof. reflexivity. Qed.

Lemma below_fieldLimit z :
  SFltb (SFabs z) (S754_finite false 4503599627370496 (-16)) = true ->
  match z with
  | S754_zero _ => True
  | S754_finite _ m e => e < -16 \/ (e = -16 /\ Zpos m < 2 ^ 52)
  | _ => False
  end.
Proof.
  destruct z as [s|s| |s m e]; cbn [SFabs]; try exact (fun _ => I); try discriminate.
  unfold SFltb.
  destruct (SFcompare_key (S754_finite false m e)
              (S754_finite false 4503599627370496 (-16)) eq_refl eq_refl)
    as (c & -> & Hl & _ & _).
  intros H. assert (Hc : c = Lt) by (destruct c; congruence).
  apply Hl in Hc. cbn in Hc. change (2 ^ 52) with 4503599627370496. lia.
Qed.

(** A rounded value below [2^36] comes from a scaled integer below [2^50]. *)
Lemma small_in_range x :
  smallMagnitude (roundToPrecision x) = true -> withinRoundingRange x = true.
Proof.
  unfold smallMagnitude, withinRoundingRange, roundToPrecision.
  set (r := Math_round (PrimFloat.mul x DECIMAL_MULTIPLIER)).
  pose proof (Math_round_shape (PrimFloat.mul x DECIMAL_MULTIPLIER)) as Hs. fold r in Hs.
  rewrite !FloatAxioms.ltb_spec, !FloatAxioms.abs_spec, FloatAxioms.div_spec.
  rewrite fieldLimit_spec, roundTripLimit_spec, DECIMAL_MULTIPLIER_spec.
  unfold SF64div.
  destruct (Prim2SF r) as [s|s| |s m e]; try reflexivity; try discriminate.
  destruct Hs as [He Hm].
  destruct (div_scale s m e Hm ltac:(lia)) as (mQ & a & -> & Ha & HmQ & _).
  intros H. apply below_fieldLimit in H.
  cbn [SFabs]. unfold SFltb.
  destruct (SFcompare_key (S754_finite false m e)
              (S754_finite false 4503599627370496 (-2)) eq_refl eq_refl)
    as (c & -> & Hl & _ & _).
  assert (Hc : c = Lt) by (apply Hl; cbn; lia).
  now rewrite Hc.
Qed.

Lemma cleanedData_rounded raw c v :
  cleanedData (validateContract raw) = Some c ->
  In v (roundedFields c) ->
  exists x, v = roundToPrecision x.
Proof.
  unfold validateContract.
  repeat match goal with
         | |- context [if ?b then _ else _] => destruct b; simpl
         | |- context [match ?o with Some _ => _ | None => _ end] => destruct o; simpl
         end;
    try discriminate; intros H; injection H as <-;
    cbn [roundedFields strike bid ask delta gamma theta vega rho];
    intros Hin;
    repeat (destruct Hin as [<-|Hin]; [eexists; reflexivity|]); destruct Hin.
Qed.

(** C9, amended: every rounded numeric field (strike, bid, ask and the
    Greeks) of a cleaned contract that is below [2^36] in magnitude is
    left unchanged by rounding it again. *)
Theorem rounding_idempotent_below_limit
  (raw : RawOptionContract) (c : ProcessedOptionContract) (v : float) :
  cleanedData (validateContract raw) = Some c ->
  In v (roundedFields c) ->
  smallMagnitude v = true ->
  roundToPrecision v = v.
Proof.
  intros Hc Hin Hsmall.
  destruct (cleanedData_rounded raw c v Hc Hin) as (x & ->).
  apply round_trip. now apply small_in_range.
Qed.

Lemma rounding_idempotent_below_limit_witness :
  cleanedData (validateContract rawLargeStrike) = Some cleanLargeStrike
  /\ smallMagnitude (delta cleanLargeStrike) = true
  /\ roundToPrecision (delta cleanLargeStrike) = delta cleanLargeStrike.
Proof.
  split; [vm_compute; reflexivity|]. split; [vm_compute; reflexivity|].
  apply (rounding_idempotent_below_limit rawLargeStrike cleanLargeStrike).
  - vm_compute. reflexivity.
  - do 3 right. left. reflexivity.
  - vm_compute. reflexivity.
Defined.

(** The strike [435902443669.09937] is cleaned to the next binary64 number
    up, and rounding that again moves it up once more. *)
Lemma large_strike_moves_again :
  cleanedData (validateContract rawLargeStrike) = Some cleanLargeStrike
  /\ strike cleanLargeStrike = 0x1.95f73dc25465dp+38%float
  /\ roundToPrecision (strike cleanLargeStrike) = 0x1.95f73dc25465ep+38%float.
Proof. repeat split; vm_compute; reflexivity. Qed.

(** C9 as stated fails: the cleaned strike of [rawLargeStrike] is changed
    by rounding it again. *)
Lemma large_strike_not_idempotent : ~ roundingIdempotent.
Proof.
  intros H.
  assert (E : roundToPrecision (strike cleanLargeStrike) = strike cleanLargeStrike).
  { apply (H rawLargeStrike cleanLargeStrike).
    - vm_compute. reflexivity.
    - left. reflexivity. }
  apply (f_equal (fun z => PrimFloat.eqb z (strike cleanLargeStrike))) in E.
  vm_compute in E. discriminate E.
Qed.

End RoundingProps.

(* ================================================================== *)
(** * Acceptance by the validator *)
(* ================================================================== *)

Module AcceptanceProps.
Import JS Types Utils FloatOrder FloatFacts ValidatorSpec AcceptanceSpec.

Ltac split_checks :=
  repeat match goal with
         | |- context [if ?b then _ else _] => destruct b eqn:?; cbn
         | |- context [match ?o with Some _ => _ | None => _ end] => destruct o eqn:?; cbn
         end.

Lemma validateContract_accepted raw :
  accepted raw = true ->
  exists t,
    kindOf raw = Some t
    /\ isValid (validateContract raw) = true
    /\ errors (validateContract raw) = []
    /\ cleanedData (validateContract raw)
       = Some {| date := trim (text (Raw.date raw));
                 symbol := toUpperCase (trim (text (Raw.act_symbol raw)));
                 expiration := trim (text (Raw.expiration raw));
                 strike := roundToPrecision (Number (Raw.strike raw));
                 type := t;
                 bid := roundToPrecision (Number (Raw.bid raw));
                 ask := roundToPrecision (Number (Raw.ask raw));
                 volume := Math_max 0 (or_else (Number (Raw.vol raw)) 0);
                 delta := roundToPrecision (or_else (Number (Raw.delta raw)) 0);
                 gamma := roundToPrecision (or_else (Number (Raw.gamma raw)) 0);
                 theta := roundToPrecision (or_else (Number (Raw.theta raw)) 0);
                 vega := roundToPrecision (or_else (Number (Raw.vega raw)) 0);
                 rho := roundToPrecision (or_else (Number (Raw.rho raw)) 0) |}.
Proof.
  unfold accepted, passesCriticalGate, strikeFails, bidFails, askFails, kindOf.
  intros H.
  apply andb_prop in H as [H Hk]. apply andb_prop in H as [H Hd2].
  apply andb_prop in H as [H Hd1]. apply andb_prop in H as [H Hl].
  apply andb_prop in H as [H Ha]. apply andb_prop in H as [H Hb].
  apply andb_prop in H as [H Hs].
  apply andb_prop in H as [H He]. apply andb_prop in H as [Hy Hd].
  apply negb_true_iff in Hl, Ha, Hb, Hs.
  destruct (Raw.call_put raw) as [cp|] eqn:Ecp; [|discriminate].
  destruct (normalizeCallPutType cp) as [t|] eqn:Et; [|discriminate].
  exists t. split; [reflexivity|].
  unfold validateContract.
  rewrite Hy, Hd, He, Hs, Hb, Ha, Hl, Hd1, Hd2. cbn [negb orb app List.length].
  change (0 <? Z.of_nat 0) with false. cbv iota.
  rewrite Ecp. cbn [option_map]. rewrite Et.
  repeat split.
Qed.

Lemma validateContract_not_accepted raw :
  accepted raw = false ->
  isValid (validateContract raw) = false
  /\ errors (validateContract raw) <> []
  /\ cleanedData (validateContract raw) = None.
Proof.
  unfold accepted, passesCriticalGate, strikeFails, bidFails, askFails, kindOf.
  unfold validateContract. intros H.
  destruct (truthyStr (option_map trim (Raw.act_symbol raw)));
    [|repeat split; discriminate].
  destruct (truthyStr (Raw.date raw)); [|repeat split; discriminate].
  destruct (truthyStr (Raw.expiration raw)); [|repeat split; discriminate].
  cbn [negb orb andb] in H |- *.
  destruct (isNaN (Number (Raw.strike raw)) || PrimFloat.leb (Number (Raw.strike raw)) 0);
    [repeat split; cbn; discriminate|].
  destruct (isNaN (Number (Raw.bid raw)) || PrimFloat.ltb (Number (Raw.bid raw)) 0);
    [repeat split; cbn; discriminate|].
  destruct (isNaN (Number (Raw.ask raw)) || PrimFloat.ltb (Number (Raw.ask raw)) 0);
    [repeat split; cbn; discriminate|].
  destruct (PrimFloat.eqb (Number (Raw.bid raw)) 0 && PrimFloat.eqb (Number (Raw.ask raw)) 0);
    [repeat split; cbn; discriminate|].
  cbn [negb andb app List.length] in H |- *.
  change (0 <? Z.of_nat 0) with false. cbv iota.
  destruct (isValidDateOpt (Raw.date raw)); [|repeat split; discriminate].
  destruct (isValidDateOpt (Raw.expiration raw)); [|repeat split; discriminate].
  cbn [negb orb andb] in H |- *.
  destruct (Raw.call_put raw) as [cp|]; cbn [option_map];
    [|repeat split; discriminate].
  destruct (normalizeCallPutType cp); [discriminate|repeat split; discriminate].
Qed.

(** X1: [validateContract] accepts a row exactly when every check passes:
    the three critical fields are present, strike is a number above zero,
    bid and ask are numbers not below zero and not both zero, both dates
    are valid, and the call/put text normalizes.  An accepted row has a
    cleaned contract and no error; a rejected row has no cleaned contract
    and at least one error. *)
Theorem validateContract_accepts_exactly (raw : RawOptionContract) :
  isValid (validateContract raw) = accepted raw
  /\ (accepted raw = true <-> exists c, cleanedData (validateContract raw) = Some c)
  /\ (accepted raw = true <-> errors (validateContract raw) = []).
Proof.
  destruct (accepted raw) eqn:E.
  - destruct (validateContract_accepted raw E) as (t & _ & Hv & He & Hc).
    split; [exact Hv|]. split; split; try reflexivity; intros _.
    + eexists. exact Hc.
    + exact He.
  - destruct (validateContract_not_accepted raw E) as (Hv & He & Hc).
    split; [exact Hv|]. split; split; try discriminate.
    + intros (c & H). congruence.
    + intros H. contradiction.
Qed.

End AcceptanceProps.

(* ================================================================== *)
(** * The sign of a rounded number *)
(* ================================================================== *)

Module SignProps.
Import JS Types Utils FloatOrder FloatFacts RoundingSpec SignSpec.

Lemma shr_fexp_nonneg m e l :
  0 <= m -> 0 <= shr_m (fst (shr_fexp prec emax m e l)).
Proof.
  intros Hm. unfold shr_fexp, shr.
  destruct (fexp prec emax (Zdigits2 m + e) - e) as [|p|p]; cbn [fst];
    rewrite ?shr_m_of_loc; try assumption.
  rewrite iter_pos_shr by (now rewrite shr_m_of_loc).
  rewrite shr_m_of_loc. apply Z.div_pos; [assumption|]. apply Z.pow_pos_nonneg; lia.
Qed.

Lemma binary_round_aux_signed s m e l :
  0 <= m -> signedAs s (binary_round_aux prec emax s m e l).
Proof.
  intros Hm. unfold binary_round_aux.
  pose proof (shr_fexp_nonneg m e l Hm) as H1.
  destruct (shr_fexp prec emax m e l) as [mrs' e']. cbn [fst] in H1.
  pose proof (round_nearest_even_ge (shr_m mrs') (loc_of_shr_record mrs')) as H2.
  pose proof (shr_fexp_nonneg (round_nearest_even (shr_m mrs') (loc_of_shr_record mrs'))
                              e' loc_Exact ltac:(lia)) as H3.
  destruct (shr_fexp prec emax _ e' loc_Exact) as [mrs'' e'']. cbn [fst] in H3.
  destruct (shr_m mrs'') as [|p|p]; [reflexivity| |lia].
  destruct (e'' <=? emax - prec); reflexivity.
Qed.

Lemma SFmul_keeps z mM eM :
  keepsSign z (SFmul prec emax z (S754_finite false mM eM)).
Proof.
  destruct z as [s|s| |s m e]; cbn [SFmul keepsSign]; rewrite ?xorb_false_r;
    try reflexivity.
  apply binary_round_aux_signed. lia.
Qed.

Lemma SFdiv_keeps z mM eM :
  keepsSign z (SFdiv prec emax z (S754_finite false mM eM)).
Proof.
  destruct z as [s|s| |s m e]; cbn [SFdiv keepsSign]; rewrite ?xorb_false_r;
    try reflexivity.
  unfold SFdiv_core_binary.
  set (m' := match _ - _ - _ with Z0 => Zpos m | Zpos _ => _ | Zneg _ => 0 end).
  assert (Hm' : 0 <= m').
  { unfold m'. destruct (_ - _ - _) as [|p|p]; try lia.
    rewrite Z.shiftl_mul_pow2 by lia.
    apply Z.mul_nonneg_nonneg; [lia|]. apply Z.pow_nonneg. lia. }
  pose proof (Z_div_mod m' (Zpos mM) eq_refl) as Hdiv.
  destruct (Z.div_eucl m' (Zpos mM)) as [q r]. destruct Hdiv as [Hqr Hr].
  apply binary_round_aux_signed. nia.
Qed.

Lemma signedAs_keeps s z z' : signedAs s z -> keepsSign z z' -> signedAs s z'.
Proof.
  destruct z as [s1|s1| |s1 m e]; cbn [signedAs keepsSign]; try contradiction.
  - intros <- ->. reflexivity.
  - intros <- ->. reflexivity.
  - intros <- H. exact H.
Qed.

Lemma keepsSign_trans z1 z2 z3 :
  keepsSign z1 z2 -> keepsSign z2 z3 -> keepsSign z1 z3.
Proof.
  destruct z1 as [s|s| |s m e]; cbn [keepsSign].
  - intros ->. exact (fun H => H).
  - intros ->. exact (fun H => H).
  - intros ->. exact (fun H => H).
  - apply signedAs_keeps.
Qed.

Lemma Math_round_keeps y : keepsSign (Prim2SF y) (Prim2SF (Math_round y)).
Proof.
  pose proof (Prim2SF_valid y) as Hv.
  unfold Math_round. destruct (Prim2SF y) as [s|s| |s m e] eqn:Ey;
    cbn [keepsSign]; try assumption.
  destruct (Z.leb_spec 0 e) as [He|He]; [now rewrite Ey|].
  cbn [valid_binary] in Hv. apply bounded_facts in Hv as (Hemin & Hdig & Hnorm).
  pose proof (digits2_pos_bounds m) as [Hmlo Hmhi].
  set (E := 2 ^ (- e)).
  replace (2 ^ (1 - e)) with (2 * E)
    by (unfold E; rewrite <- Z.pow_succ_r by lia; f_equal; lia).
  assert (HE : 2 <= E)
    by (change 2 with (2 ^ 1) at 1; apply Z.pow_le_mono_r; lia).
  assert (Hm53 : Zpos m < 2 ^ 53).
  { assert (2 ^ Zpos (digits2_pos m) <= 2 ^ 53) by (apply Z.pow_le_mono_r; lia). lia. }
  change (2 ^ 53) with 9007199254740992 in Hm53.
  set (n := (2 * cond_Zopp s (Zpos m) + E) / (2 * E)).
  assert (Hn : - 4503599627370496 <= n < 4503599627370496 + 1).
  { unfold n. split.
    - apply Z.div_le_lower_bound; [lia|]. destruct s; cbn [cond_Zopp]; lia.
    - apply Z.div_lt_upper_bound; [lia|]. destruct s; cbn [cond_Zopp]; lia. }
  destruct (Z.eqb_spec n 0) as [Hn0|Hn0]; [destruct s; reflexivity|].
  assert (Hsign : (n <? 0) = s).
  { destruct s; cbn [cond_Zopp] in n.
    - apply Z.ltb_lt.
      destruct (Z.lt_ge_cases (2 * - Zpos m + E) 0) as [Hneg|Hpos].
      + unfold n. apply Z.div_lt_upper_bound; lia.
      + exfalso. apply Hn0. unfold n. apply Z.div_small. lia.
    - apply Z.ltb_ge. unfold n. apply Z.div_pos; lia. }
  assert (Hn53 : 0 < Z.abs n < 2 ^ 53)
    by (change (2 ^ 53) with 9007199254740992; lia).
  destruct (RoundingProps.of_integer_spec n Hn53) as (d & mz & -> & _).
  exact Hsign.
Qed.

Lemma roundToPrecision_keeps x :
  keepsSign (Prim2SF x) (Prim2SF (roundToPrecision x)).
Proof.
  unfold roundToPrecision.
  rewrite FloatAxioms.div_spec, RoundingProps.DECIMAL_MULTIPLIER_spec.
  eapply keepsSign_trans; [|apply SFdiv_keeps].
  eapply keepsSign_trans; [|apply Math_round_keeps].
  rewrite FloatAxioms.mul_spec, RoundingProps.DECIMAL_MULTIPLIER_spec.
  apply SFmul_keeps.
Qed.

Lemma leb_zero_shape x :
  PrimFloat.leb 0 x = true
  <-> match Prim2SF x with
      | S754_zero _ => True
      | S754_infinity s | S754_finite s _ _ => s = false
      | S754_nan => False
      end.
Proof.
  rewrite FloatAxioms.leb_spec. change (Prim2SF 0) with (S754_zero false).
  destruct (Prim2SF x) as [s|[]| |[] m e]; cbn; intuition congruence.
Qed.

Lemma leb_shape_zero x :
  PrimFloat.leb x 0 = true
  <-> match Prim2SF x with
      | S754_zero _ => True
      | S754_infinity s | S754_finite s _ _ => s = true
      | S754_nan => False
      end.
Proof.
  rewrite FloatAxioms.leb_spec. change (Prim2SF 0) with (S754_zero false).
  destruct (Prim2SF x) as [s|[]| |[] m e]; cbn; intuition congruence.
Qed.

Lemma roundToPrecision_isNaN x : isNaN (roundToPrecision x) = isNaN x.
Proof.
  pose proof (roundToPrecision_keeps x) as H.
  unfold isNaN. rewrite !isNaN_spec.
  destruct (Prim2SF x) as [s|s| |s m e]; cbn [keepsSign] in H;
    try (rewrite H; reflexivity).
  destruct (Prim2SF (roundToPrecision x)); try reflexivity. contradiction.
Qed.

Lemma roundToPrecision_nonneg x :
  PrimFloat.leb 0 x = true -> PrimFloat.leb 0 (roundToPrecision x) = true.
Proof.
  pose proof (roundToPrecision_keeps x) as H.
  rewrite !leb_zero_shape.
  destruct (Prim2SF x) as [s|s| |s m e]; cbn [keepsSign] in H;
    try (rewrite H; exact (fun h => h)).
  intros ->. destruct (Prim2SF (roundToPrecision x)); cbn in H; auto.
Qed.

Lemma roundToPrecision_nonpos x :
  PrimFloat.leb x 0 = true -> PrimFloat.leb (roundToPrecision x) 0 = true.
Proof.
  pose proof (roundToPrecision_keeps x) as H.
  rewrite !leb_shape_zero.
  destruct (Prim2SF x) as [s|s| |s m e]; cbn [keepsSign] in H;
    try (rewrite H; exact (fun h => h)).
  intros ->. destruct (Prim2SF (roundToPrecision x)); cbn in H; auto.
Qed.

(** X2: rounding to four decimals keeps [NaN], the zeros and the infinities
    as they are, never makes [NaN] of a number, and never changes the side
    of zero a number is on. *)
Theorem roundToPrecision_keeps_sign (x : float) :
  (isNaN (roundToPrecision x) = isNaN x)
  /\ (PrimFloat.leb 0 x = true -> PrimFloat.leb 0 (roundToPrecision x) = true)
  /\ (PrimFloat.leb x 0 = true -> PrimFloat.leb (roundToPrecision x) 0 = true)
  /\ roundToPrecision 0 = 0%float
  /\ roundToPrecision (-0) = (-0)%float
  /\ roundToPrecision infinity = infinity
  /\ roundToPrecision neg_infinity = neg_infinity.
Proof.
  split; [apply roundToPrecision_isNaN|].
  split; [apply roundToPrecision_nonneg|].
  split; [apply roundToPrecision_nonpos|].
  repeat split; reflexivity.
Qed.

End SignProps.

(* ================================================================== *)
(** * Unique values, sorted texts and the order of the keys *)
(* ================================================================== *)

Module CollectionProps.
Import JS Types Utils Processor PartitionSpec SortFacts StringOrder CollectionSpec.

Lemma In_getUniqueValues x l : In x (getUniqueValues l) <-> In x l.
Proof.
  induction l as [|y l IH]; cbn [getUniqueValues]; [tauto|].
  split.
  - intros [->|H]; [now left|]. apply filter_In in H as [H _]. right. now apply IH.
  - intros [->|H]; [now left|].
    destruct (String.eqb_spec y x) as [->|Hne]; [now left|]. right.
    apply filter_In. split; [now apply IH|].
    apply negb_true_iff. now apply String.eqb_neq.
Qed.

Lemma NoDup_getUniqueValues l : NoDup (getUniqueValues l).
Proof.
  induction l as [|y l IH]; cbn [getUniqueValues]; constructor.
  - intros H. apply filter_In in H as [_ H].
    now rewrite String.eqb_refl in H.
  - now apply NoDup_filter.
Qed.

Lemma filter_absent (x : string) l :
  ~ In x l -> filter (fun y => negb (String.eqb x y)) l = l.
Proof.
  induction l as [|y l IH]; cbn [filter]; [reflexivity|]. intros H.
  destruct (String.eqb_spec x y) as [->|Hne]; cbn [negb].
  - exfalso. apply H. now left.
  - f_equal. apply IH. intros Hin. apply H. now right.
Qed.

Lemma getUniqueValues_NoDup l : NoDup l -> getUniqueValues l = l.
Proof.
  induction 1 as [|x l Hx Hnd IH]; cbn [getUniqueValues]; [reflexivity|].
  rewrite IH. f_equal. now apply filter_absent.
Qed.

(** Appending a value at the end adds it unless it came before. *)
Lemma getUniqueValues_snoc l x :
  getUniqueValues (l ++ [x])
  = if existsb (String.eqb x) l then getUniqueValues l else getUniqueValues l ++ [x].
Proof.
  induction l as [|y l IH]; [reflexivity|].
  cbn [app getUniqueValues existsb]. rewrite IH.
  destruct (String.eqb_spec x y) as [->|Hne]; cbn [orb].
  - destruct (existsb (String.eqb y) l); [reflexivity|].
    rewrite filter_app. cbn [filter]. rewrite String.eqb_refl. cbn [negb].
    now rewrite app_nil_r.
  - destruct (existsb (String.eqb x) l); [reflexivity|].
    rewrite filter_app. cbn [filter].
    replace (String.eqb y x) with false
      by (symmetry; apply String.eqb_neq; congruence).
    reflexivity.
Qed.

(** X3: [getUniqueValues] keeps each value once, at its first position. *)
Theorem getUniqueValues_first_occurrences (array : list string) :
  NoDup (getUniqueValues array)
  /\ (forall x, In x (getUniqueValues array) <-> In x array)
  /\ (forall x,
         getUniqueValues (array ++ [x])
         = if existsb (String.eqb x) array then getUniqueValues array
           else getUniqueValues array ++ [x])
  /\ getUniqueValues (getUniqueValues array) = getUniqueValues array.
Proof.
  split; [apply NoDup_getUniqueValues|].
  split; [intros x; apply In_getUniqueValues|].
  split; [intros x; apply getUniqueValues_snoc|].
  apply getUniqueValues_NoDup, NoDup_getUniqueValues.
Qed.

(** ** The default sort on strings *)

Lemma behind_defaultCompare x y : behind defaultCompare x y = String.ltb y x.
Proof.
  unfold behind, defaultCompare.
  destruct (String.ltb x y) eqn:Hxy.
  - rewrite (ltb_asym _ _ Hxy). reflexivity.
  - destruct (String.ltb y x); reflexivity.
Qed.

Lemma sort_defaultCompare_sorted l :
  StronglySorted (fun a b => a = b \/ String.ltb a b = true) (sort defaultCompare l).
Proof.
  apply (sort_sorted defaultCompare (fun _ => True)).
  - intros a b c [->|Hab] [->|Hbc]; auto. right. eapply ltb_trans; eassumption.
  - intros a b _ _. rewrite behind_defaultCompare. intros H.
    destruct (String.eqb_spec a b) as [->|Hne]; [now left|].
    destruct (ltb_total a b Hne) as [H'|H']; [now right|congruence].
  - intros a b _ _. rewrite behind_defaultCompare. now right.
  - now apply Forall_forall.
Qed.

Lemma sorted_NoDup_ascending l :
  StronglySorted (fun a b => a = b \/ String.ltb a b = true) l ->
  NoDup l -> ascending l.
Proof.
  unfold ascending. induction 1 as [|x l Hs IH Hx]; intros Hnd; constructor.
  - apply IH. now inversion Hnd.
  - inversion Hnd as [|? ? Hnot _]; subst.
    rewrite Forall_forall in Hx |- *. intros y Hy.
    destruct (Hx y Hy) as [->|H]; [contradiction|assumption].
Qed.

Lemma sort_defaultCompare_ascending l :
  NoDup l -> ascending (sort defaultCompare l).
Proof.
  intros Hnd. apply sorted_NoDup_ascending; [apply sort_defaultCompare_sorted|].
  eapply Permutation_NoDup; [|exact Hnd].
  apply Permutation_sym, sort_perm.
Qed.

Lemma In_sort {A} (f : A -> A -> float) x l : In x (sort f l) <-> In x l.
Proof.
  split; apply Permutation_in; [|apply Permutation_sym]; apply sort_perm.
Qed.

(** X4: the [expirations] of a symbol file are the expiration dates of its
    contracts, each once, in strictly ascending order of the text. *)
Theorem expirations_ascending (symbol : string)
        (contracts : list ProcessedOptionContract) :
  ascending (expirations (buildSymbolData symbol contracts))
  /\ (forall e, In e (expirations (buildSymbolData symbol contracts))
                <-> exists c, In c contracts /\ expiration c = e).
Proof.
  cbn [buildSymbolData expirations]. split.
  - apply sort_defaultCompare_ascending, NoDup_getUniqueValues.
  - intros e. rewrite In_sort, In_getUniqueValues, in_map_iff.
    split; intros (c & H1 & H2); exists c; tauto.
Qed.

(** ** The order of the keys *)

Lemma keys_pushContract_order c m :
  keys (pushContract c m)
  = if existsb (String.eqb (symbol c)) (keys m) then keys m
    else keys m ++ [symbol c].
Proof.
  induction m as [|[k g] m IH]; [reflexivity|].
  cbn [pushContract]. unfold keys in *. cbn [map fst existsb].
  rewrite (String.eqb_sym (symbol c) k).
  destruct (String.eqb k (symbol c)); cbn [map fst orb app]; [reflexivity|].
  rewrite IH. destruct (existsb (String.eqb (symbol c)) (map fst m)); reflexivity.
Qed.

Lemma existsb_getUniqueValues x l :
  existsb (String.eqb x) (getUniqueValues l) = existsb (String.eqb x) l.
Proof.
  apply eq_true_iff_eq. rewrite !existsb_exists.
  split; intros (y & Hy & E); exists y; split; try assumption;
    now apply In_getUniqueValues.
Qed.

Lemma keys_fold_pushContract contracts :
  forall m seen,
    keys m = getUniqueValues seen ->
    keys (fold_left (fun grouped c => pushContract c grouped) contracts m)
    = getUniqueValues (seen ++ map symbol contracts).
Proof.
  induction contracts as [|c contracts IH]; intros m seen Hm; cbn [fold_left map].
  - now rewrite app_nil_r.
  - replace (seen ++ symbol c :: map symbol contracts)
      with ((seen ++ [symbol c]) ++ map symbol contracts)
      by (now rewrite <- app_assoc).
    apply IH. rewrite keys_pushContract_order, getUniqueValues_snoc, Hm.
    now rewrite existsb_getUniqueValues.
Qed.

(** X5: the keys of the partition map are the symbols of the input, each
    once, in the order of their first appearance. *)
Theorem keys_in_order_of_first_appearance (contracts : list ProcessedOptionContract) :
  keys (groupBySymbol contracts) = getUniqueValues (map symbol contracts).
Proof.
  rewrite PartitionProps.keys_groupBySymbol. unfold groupFirstPass.
  apply (keys_fold_pushContract contracts [] []). reflexivity.
Qed.

End CollectionProps.

(* ================================================================== *)
(** * The strike range *)
(* ================================================================== *)

Module RangeProps.
Import JS Types Utils FloatOrder FloatFacts PartitionSpec RangeSpec.

Lemma eqb_refl x : PrimFloat.is_nan x = false -> PrimFloat.eqb x x = true.
Proof. intros H. now apply (eqb_key x x H H). Qed.

Lemma leb_refl x : PrimFloat.is_nan x = false -> PrimFloat.leb x x = true.
Proof. intros H. apply (leb_key x x H H). now right. Qed.

Lemma ltb_infinity_l x : PrimFloat.ltb infinity x = false.
Proof.
  destruct (PrimFloat.is_nan x) eqn:Hx; [now apply ltb_nan_r|].
  destruct (PrimFloat.ltb infinity x) eqn:L; [|reflexivity].
  apply (ltb_key infinity x eq_refl Hx) in L. unfold fk in L.
  rewrite isNaN_spec in Hx.
  destruct (Prim2SF x) as [s|[]| |[] m e]; cbn in L; try discriminate; lia.
Qed.

Lemma ltb_neg_infinity_r x : PrimFloat.ltb x neg_infinity = false.
Proof.
  destruct (PrimFloat.is_nan x) eqn:Hx; [now apply ltb_nan_l|].
  destruct (PrimFloat.ltb x neg_infinity) eqn:L; [|reflexivity].
  apply (ltb_key x neg_infinity Hx eq_refl) in L. unfold fk in L.
  rewrite isNaN_spec in Hx.
  destruct (Prim2SF x) as [s|[]| |[] m e]; cbn in L; try discriminate; lia.
Qed.

Lemma eqb_leb x y : PrimFloat.eqb x y = true -> PrimFloat.leb x y = true.
Proof.
  intros H. destruct (PartitionProps.eqb_not_nan _ _ H) as [Hx Hy].
  apply (leb_key x y Hx Hy). right. now apply (eqb_key x y Hx Hy).
Qed.

Lemma eqb_geb x y : PrimFloat.eqb x y = true -> PrimFloat.leb y x = true.
Proof.
  intros H. destruct (PartitionProps.eqb_not_nan _ _ H) as [Hx Hy].
  apply (leb_key y x Hy Hx). right. symmetry. now apply (eqb_key x y Hx Hy).
Qed.

Lemma spans_first c :
  strikeIsNumber c -> spans (widen {| min := infinity; max := neg_infinity |} c) [c].
Proof.
  unfold strikeIsNumber, isNaN. intros Hc. unfold widen, spans. cbn [min max].
  assert (Hmin : PrimFloat.eqb (if PrimFloat.ltb (strike c) infinity
                                then strike c else infinity) (strike c) = true).
  { destruct (PrimFloat.ltb (strike c) infinity) eqn:L; [now apply eqb_refl|].
    apply PartitionProps.leb_antisym.
    - now apply PartitionProps.not_ltb_leb.
    - apply PartitionProps.not_ltb_leb; [assumption|reflexivity|apply ltb_infinity_l]. }
  assert (Hmax : PrimFloat.eqb (if PrimFloat.ltb neg_infinity (strike c)
                                then strike c else neg_infinity) (strike c) = true).
  { destruct (PrimFloat.ltb neg_infinity (strike c)) eqn:L; [now apply eqb_refl|].
    apply PartitionProps.leb_antisym.
    - apply PartitionProps.not_ltb_leb; [reflexivity|assumption|apply ltb_neg_infinity_r].
    - now apply PartitionProps.not_ltb_leb. }
  split; [exists c; split; [now left|exact Hmin]|].
  split; [exists c; split; [now left|exact Hmax]|].
  intros c' [<-|[]]. split; [now apply eqb_leb|now apply eqb_geb].
Qed.

Lemma spans_widen range seen c :
  strikeIsNumber c -> spans range seen -> spans (widen range c) (seen ++ [c]).
Proof.
  unfold strikeIsNumber, isNaN.
  intros Hc ((cmin & Imin & Emin) & (cmax & Imax & Emax) & Hall).
  destruct (PartitionProps.eqb_not_nan _ _ Emin) as [Nmin _].
  destruct (PartitionProps.eqb_not_nan _ _ Emax) as [Nmax _].
  unfold widen, spans. cbn [min max].
  split; [|split].
  - destruct (PrimFloat.ltb (strike c) (min range)).
    + exists c. split; [apply in_or_app; right; now left|now apply eqb_refl].
    + exists cmin. split; [apply in_or_app; now left|assumption].
  - destruct (PrimFloat.ltb (max range) (strike c)).
    + exists c. split; [apply in_or_app; right; now left|now apply eqb_refl].
    + exists cmax. split; [apply in_or_app; now left|assumption].
  - intros c' Hin. apply in_app_or in Hin as [Hin|[<-|[]]].
    + destruct (Hall c' Hin) as [Hlo Hhi]. split.
      * destruct (PrimFloat.ltb (strike c) (min range)) eqn:L; [|assumption].
        eapply PartitionProps.leb_trans; [|exact Hlo]. now apply ValidatorProps.ltb_leb.
      * destruct (PrimFloat.ltb (max range) (strike c)) eqn:L; [|assumption].
        eapply PartitionProps.leb_trans; [exact Hhi|]. now apply ValidatorProps.ltb_leb.
    + split.
      * destruct (PrimFloat.ltb (strike c) (min range)) eqn:L; [now apply leb_refl|].
        now apply PartitionProps.not_ltb_leb.
      * destruct (PrimFloat.ltb (max range) (strike c)) eqn:L; [now apply leb_refl|].
        now apply PartitionProps.not_ltb_leb.
Qed.

Lemma spans_fold contracts :
  forall range seen,
    Forall strikeIsNumber contracts -> spans range seen ->
    spans (fold_left widen contracts range) (seen ++ contracts).
Proof.
  induction contracts as [|c contracts IH]; intros range seen Hn Hs; cbn [fold_left].
  - now rewrite app_nil_r.
  - inversion Hn as [|? ? Hc Hn']; subst.
    replace (seen ++ c :: contracts) with ((seen ++ [c]) ++ contracts)
      by (now rewrite <- app_assoc).
    apply IH; [assumption|]. now apply spans_widen.
Qed.

(** X6: for contracts whose strikes are numbers, [getStrikeRange] returns
    the least and the greatest strike; for no contracts it returns
    [{min: 0, max: 0}]. *)
Theorem getStrikeRange_least_and_greatest (contracts : list ProcessedOptionContract) :
  Forall strikeIsNumber contracts ->
  match contracts with
  | [] => getStrikeRange contracts = {| min := 0; max := 0 |}
  | _ => spans (getStrikeRange contracts) contracts
  end.
Proof.
  intros Hn. destruct contracts as [|c contracts]; [reflexivity|].
  inversion Hn as [|? ? Hc Hn']; subst.
  change (getStrikeRange (c :: contracts))
    with (fold_left widen contracts (widen {| min := infinity; max := neg_infinity |} c)).
  apply (spans_fold contracts _ [c] Hn'). now apply spans_first.
Qed.

Lemma getStrikeRange_least_and_greatest_witness :
  spans (getStrikeRange Examples.sampleAaplGroup) Examples.sampleAaplGroup.
Proof.
  apply (getStrikeRange_least_and_greatest Examples.sampleAaplGroup).
  repeat constructor.
Defined.

End RangeProps.

(* ================================================================== *)
(** * The metadata *)
(* ================================================================== *)

Module MetadataProps.
Import JS Types Utils Processor PartitionSpec MetadataSpec.

Lemma countOfType_cons t c l :
  countOfType t (c :: l) = (if sameType (type c) t then 1 else 0) + countOfType t l.
Proof.
  unfold countOfType. cbn [filter]. destruct (sameType (type c) t); cbn [List.length]; lia.
Qed.

Lemma countOfType_app t l1 l2 :
  countOfType t (l1 ++ l2) = countOfType t l1 + countOfType t l2.
Proof. unfold countOfType. rewrite filter_app, length_app. lia. Qed.

Lemma countOfType_total l :
  countOfType call l + countOfType put l = Z.of_nat (List.length l).
Proof.
  induction l as [|c l IH]; [reflexivity|].
  rewrite !countOfType_cons. cbn [List.length]. destruct (type c); cbn [sameType]; lia.
Qed.

(** The inner loop of [generateApiFiles] over the contracts of one group. *)
Lemma count_group (group : list ProcessedOptionContract) :
  forall rest t c f,
    fold_left
      (fun (a : Z * Z * option ProcessedOptionContract) contract =>
         let '(t, c, f) := a in
         (t,
          match type contract with call => c + 1 | put => c end,
          match f with
          | None => if (0 <? Z.of_nat (List.length group)) then hd_error group else None
          | Some _ => f
          end))
      rest (t, c, f)
    = (t, c + countOfType call rest,
       match f, rest with
       | None, _ :: _ => if (0 <? Z.of_nat (List.length group)) then hd_error group else None
       | _, _ => f
       end).
Proof.
  induction rest as [|x rest IH]; intros t c f; cbn [fold_left].
  - unfold countOfType. cbn. rewrite Z.add_0_r. now destruct f.
  - rewrite IH, countOfType_cons. f_equal; [f_equal|].
    + destruct (type x); cbn [sameType]; lia.
    + destruct f; [now destruct rest|].
      destruct (0 <? Z.of_nat (List.length group)); [|now destruct rest].
      destruct (hd_error group); now destruct rest.
Qed.

Lemma countContracts_spec t c f group :
  countContracts (t, c, f) group
  = (t + Z.of_nat (List.length group), c + countOfType call group,
     match f with
     | None => hd_error group
     | Some _ => f
     end).
Proof.
  unfold countContracts. rewrite count_group.
  destruct f; [now destruct group|]. destruct group; reflexivity.
Qed.

Lemma fold_countContracts groups :
  forall t c f,
    fold_left countContracts groups (t, c, f)
    = (t + Z.of_nat (List.length (concat groups)),
       c + countOfType call (concat groups),
       match f with
       | None => hd_error (concat groups)
       | Some _ => f
       end).
Proof.
  induction groups as [|g groups IH]; intros t c f; cbn [fold_left concat].
  - unfold countOfType. cbn. rewrite !Z.add_0_r. now destruct f.
  - rewrite countContracts_spec, IH, length_app, countOfType_app.
    f_equal; [f_equal; lia|].
    destruct f; [reflexivity|]. destruct g; reflexivity.
Qed.

(** X7: the metadata counts every contract of the partition map once:
    [totalContracts] is their number, [calls] and [puts] are the numbers of
    calls and of puts, [symbolCount] and [symbolsWithData] are the number of
    successful results, the warnings are the first 100, and [dataDate] is
    the date of the first contract of the first group (the fallback to
    the current date, [None], is taken when there is no contract or its
    date is empty). *)
Theorem metadata_counts_contracts
        (symbolGroups : JsMap (list ProcessedOptionContract))
        (successfulResults : list SymbolProcessingResult) (s : ProcessingStats) :
  let metadata := buildMetadata symbolGroups successfulResults s in
  totalContracts metadata = Z.of_nat (List.length (allContracts symbolGroups))
  /\ calls (coverage metadata) = countOfType call (allContracts symbolGroups)
  /\ puts (coverage metadata) = countOfType put (allContracts symbolGroups)
  /\ symbolCount metadata = Z.of_nat (List.length successfulResults)
  /\ symbolsWithData (coverage metadata) = Z.of_nat (List.length successfulResults)
  /\ p_errors (processing metadata) = map message (st_errors s)
  /\ p_warnings (processing metadata) = firstn 100 (st_warnings s)
  /\ dataDate metadata
     = match allContracts symbolGroups with
       | c :: _ => if truthyStr (Some (date c)) then Some (date c) else None
       | [] => None
       end.
Proof.
  unfold buildMetadata, allContracts. rewrite fold_countContracts.
  cbn [totalContracts coverage calls puts symbolCount symbolsWithData processing
       p_errors p_warnings dataDate].
  pose proof (countOfType_total (concat (values symbolGroups))) as Ht.
  repeat split; try lia.
  destruct (concat (values symbolGroups)); reflexivity.
Qed.

End MetadataProps.

(* ================================================================== *)
(** * Cleaned contracts *)
(* ================================================================== *)

Module CleanProps.
Import JS Types Utils FloatOrder FloatFacts ValidatorSpec DateSpec PartitionSpec.
Import AcceptanceSpec SignSpec CleanSpec.

Lemma cleanedData_accepted raw c :
  cleanedData (validateContract raw) = Some c ->
  accepted raw = true
  /\ exists t,
      kindOf raw = Some t
      /\ c = {| date := trim (text (Raw.date raw));
                symbol := toUpperCase (trim (text (Raw.act_symbol raw)));
                expiration := trim (text (Raw.expiration raw));
                strike := roundToPrecision (Number (Raw.strike raw));
                type := t;
                bid := roundToPrecision (Number (Raw.bid raw));
                ask := roundToPrecision (Number (Raw.ask raw));
                volume := Math_max 0 (or_else (Number (Raw.vol raw)) 0);
                delta := roundToPrecision (or_else (Number (Raw.delta raw)) 0);
                gamma := roundToPrecision (or_else (Number (Raw.gamma raw)) 0);
                theta := roundToPrecision (or_else (Number (Raw.theta raw)) 0);
                vega := roundToPrecision (or_else (Number (Raw.vega raw)) 0);
                rho := roundToPrecision (or_else (Number (Raw.rho raw)) 0) |}.
Proof.
  intros Hc. destruct (accepted raw) eqn:E.
  - split; [reflexivity|].
    destruct (AcceptanceProps.validateContract_accepted raw E) as (t & Hk & _ & _ & Hc').
    exists t. split; [exact Hk|]. congruence.
  - destruct (AcceptanceProps.validateContract_not_accepted raw E) as (_ & _ & Hn).
    congruence.
Qed.

Lemma leb_total x y :
  PrimFloat.is_nan x = false -> PrimFloat.is_nan y = false ->
  PrimFloat.leb x y = true \/ PrimFloat.leb y x = true.
Proof.
  intros Hx Hy.
  destruct (klt_total (fk x) (fk y)) as [H|[H|H]].
  - left. apply (leb_key x y Hx Hy). now left.
  - left. apply (leb_key x y Hx Hy). now right.
  - right. apply (leb_key y x Hy Hx). now left.
Qed.

Lemma volume_shape v :
  isNaN (if PrimFloat.ltb 0 v then v else 0%float) = false
  /\ PrimFloat.leb 0 (if PrimFloat.ltb 0 v then v else 0%float) = true.
Proof.
  destruct (PrimFloat.ltb 0 v) eqn:L.
  - split; [now apply ValidatorProps.ltb_not_nan_r in L|now apply ValidatorProps.ltb_leb].
  - split; reflexivity.
Qed.

(** X8: no numeric field of a cleaned contract is [NaN], and its strike,
    bid, ask and volume are not below zero. *)
Theorem cleaned_fields_are_numbers (raw : RawOptionContract) (c : ProcessedOptionContract) :
  cleanedData (validateContract raw) = Some c ->
  Forall (fun v => isNaN v = false) (numericFields c)
  /\ PrimFloat.leb 0 (strike c) = true
  /\ PrimFloat.leb 0 (bid c) = true
  /\ PrimFloat.leb 0 (ask c) = true
  /\ PrimFloat.leb 0 (volume c) = true.
Proof.
  intros Hc. destruct (cleanedData_accepted raw c Hc) as (Ha & t & _ & ->).
  unfold accepted, strikeFails, bidFails, askFails in Ha.
  apply andb_prop in Ha as [Ha _]. apply andb_prop in Ha as [Ha _].
  apply andb_prop in Ha as [Ha _]. apply andb_prop in Ha as [Ha _].
  apply andb_prop in Ha as [Ha Hask]. apply andb_prop in Ha as [Ha Hbid].
  apply andb_prop in Ha as [_ Hstrike].
  apply negb_true_iff, orb_false_iff in Hask, Hbid, Hstrike.
  destruct Hask as [Na La], Hbid as [Nb Lb], Hstrike as [Ns Ls].
  unfold numericFields. cbn [strike bid ask volume delta gamma theta vega rho].
  rewrite ValidatorProps.max_zero_or_else.
  destruct (volume_shape (Number (Raw.vol raw))) as [Nv Lv].
  split.
  - repeat constructor;
      rewrite ?SignProps.roundToPrecision_isNaN;
      try assumption; apply ValidatorProps.or_else_zero_not_nan.
  - split; [|split; [|split]]; try assumption.
    + apply SignProps.roundToPrecision_nonneg.
      destruct (leb_total 0 (Number (Raw.strike raw)) eq_refl Ns) as [H|H];
        [assumption|congruence].
    + apply SignProps.roundToPrecision_nonneg.
      now apply PartitionProps.not_ltb_leb.
    + apply SignProps.roundToPrecision_nonneg.
      now apply PartitionProps.not_ltb_leb.
Qed.

Lemma cleaned_fields_are_numbers_witness :
  Forall (fun v => isNaN v = false) (numericFields Examples.cleanLargeStrike)
  /\ PrimFloat.leb 0 (strike Examples.cleanLargeStrike) = true
  /\ PrimFloat.leb 0 (bid Examples.cleanLargeStrike) = true
  /\ PrimFloat.leb 0 (ask Examples.cleanLargeStrike) = true
  /\ PrimFloat.leb 0 (volume Examples.cleanLargeStrike) = true.
Proof.
  apply (cleaned_fields_are_numbers Examples.rawLargeStrike Examples.cleanLargeStrike).
  vm_compute. reflexivity.
Defined.

(** ** Texts *)

Lemma isDigit_not_space c : isDigit c = true -> isWhiteSpace c = false.
Proof.
  destruct c as [[] [] [] [] [] [] [] []]; try discriminate; reflexivity.
Qed.

Lemma isDigit_lit_hyphen : isWhiteSpace "-" = false.
Proof. reflexivity. Qed.

Lemma trim_isoText y1 y2 y3 y4 m1 m2 d1 d2 :
  Forall (fun c => isDigit c = true) [y1; y2; y3; y4; m1; m2; d1; d2] ->
  trim (isoText y1 y2 y3 y4 m1 m2 d1 d2) = isoText y1 y2 y3 y4 m1 m2 d1 d2.
Proof.
  intros Hd.
  assert (H1 : isWhiteSpace y1 = false)
    by (inversion Hd; subst; now apply isDigit_not_space).
  assert (H2 : isWhiteSpace d2 = false).
  { repeat match goal with
           | H : Forall _ (_ :: _) |- _ => inversion H; subst; clear H
           end.
    now apply isDigit_not_space. }
  unfold trim, isoText. cbn [trimStart]. rewrite H1.
  cbn [trimEnd]. rewrite H2. reflexivity.
Qed.

Lemma isValidDate_trimmed s :
  isValidDate s = true -> trim s = s /\ String.length s = 10%nat.
Proof.
  intros H.
  destruct (DateProps.matchesDatePattern_shape s (DateProps.isValidDate_matches s H))
    as (y1 & y2 & y3 & y4 & m1 & m2 & d1 & d2 & -> & Hd).
  split; [now apply trim_isoText|reflexivity].
Qed.

Lemma toUpperCase_empty s : toUpperCase s = EmptyString -> s = EmptyString.
Proof. destruct s; [reflexivity|discriminate]. Qed.

(** X9: the date and the expiration of a cleaned contract are the raw
    texts, unchanged, and are valid calendar dates of ten characters; its
    symbol is not empty. *)
Theorem cleaned_texts_are_valid (raw : RawOptionContract) (c : ProcessedOptionContract) :
  cleanedData (validateContract raw) = Some c ->
  Raw.date raw = Some (date c) /\ isValidDate (date c) = true
  /\ Raw.expiration raw = Some (expiration c) /\ isValidDate (expiration c) = true
  /\ String.length (date c) = 10%nat /\ String.length (expiration c) = 10%nat
  /\ symbol c <> EmptyString.
Proof.
  intros Hc. destruct (cleanedData_accepted raw c Hc) as (Ha & t & _ & ->).
  unfold accepted, passesCriticalGate in Ha.
  apply andb_prop in Ha as [Ha _]. apply andb_prop in Ha as [Ha Hd2].
  apply andb_prop in Ha as [Ha Hd1]. apply andb_prop in Ha as [Ha _].
  apply andb_prop in Ha as [Ha _]. apply andb_prop in Ha as [Ha _].
  apply andb_prop in Ha as [Ha _]. apply andb_prop in Ha as [Ha _].
  apply andb_prop in Ha as [Hs _].
  cbn [date expiration symbol].
  destruct (Raw.date raw) as [d|]; [|discriminate].
  destruct (Raw.expiration raw) as [e|]; [|discriminate].
  cbn [isValidDateOpt text] in *.
  destruct (isValidDate_trimmed d Hd1) as [Td Ld].
  destruct (isValidDate_trimmed e Hd2) as [Te Le].
  rewrite Td, Te. repeat split; try assumption.
  intros Hsym. apply toUpperCase_empty in Hsym.
  destruct (Raw.act_symbol raw) as [a|]; [|discriminate].
  cbn [option_map text truthyStr] in *. rewrite Hsym in Hs. discriminate.
Qed.

Lemma cleaned_texts_are_valid_witness :
  Raw.date Examples.rawFractionalVolume = Some (date Examples.cleanFractionalVolume)
  /\ isValidDate (date Examples.cleanFractionalVolume) = true
  /\ Raw.expiration Examples.rawFractionalVolume
     = Some (expiration Examples.cleanFractionalVolume)
  /\ isValidDate (expiration Examples.cleanFractionalVolume) = true
  /\ String.length (date Examples.cleanFractionalVolume) = 10%nat
  /\ String.length (expiration Examples.cleanFractionalVolume) = 10%nat
  /\ symbol Examples.cleanFractionalVolume <> EmptyString.
Proof.
  apply (cleaned_texts_are_valid Examples.rawFractionalVolume Examples.cleanFractionalVolume).
  vm_compute. reflexivity.
Defined.

(** ** Validated contracts in the partitioner *)

Lemma validated_strikeIsNumber c : validated c -> strikeIsNumber c.
Proof.
  intros (raw & Hc). destruct (cleanedData_accepted raw c Hc) as (Ha & t & _ & ->).
  unfold accepted, strikeFails in Ha.
  apply andb_prop in Ha as [Ha _]. apply andb_prop in Ha as [Ha _].
  apply andb_prop in Ha as [Ha _]. apply andb_prop in Ha as [Ha _].
  apply andb_prop in Ha as [Ha _]. apply andb_prop in Ha as [Ha _].
  apply andb_prop in Ha as [_ Hstrike].
  apply negb_true_iff, orb_false_iff in Hstrike. destruct Hstrike as [Ns _].
  unfold strikeIsNumber. cbn [strike].
  now rewrite SignProps.roundToPrecision_isNaN.
Qed.

(** X10: every group of the partition of validated contracts is in
    comparator order, whatever the rows were: earlier expirations first,
    calls before puts, then strikes ascending; contracts that tie keep
    their input order. *)
Theorem validated_groups_are_sorted
        (contracts : list ProcessedOptionContract) (key : string)
        (group : list ProcessedOptionContract) :
  Forall validated contracts ->
  get (groupBySymbol contracts) key = Some group ->
  StronglySorted precedes group
  /\ Permutation group (groupOf key contracts)
  /\ forall z, filter (tied z) group = filter (tied z) (groupOf key contracts).
Proof.
  intros Hv Hget. rewrite PartitionProps.get_groupBySymbol in Hget.
  destruct (nonEmpty (groupOf key contracts)) as [g|] eqn:Eg; [|discriminate].
  assert (g = groupOf key contracts) as ->
    by (unfold nonEmpty in Eg; destruct (groupOf key contracts); congruence).
  cbn [option_map] in Hget. injection Hget as <-.
  split; [|split].
  - apply PartitionProps.sortGroup_sorted, PartitionProps.Forall_groupOf.
    eapply Forall_impl; [|exact Hv]. apply validated_strikeIsNumber.
  - apply PartitionProps.sortGroup_perm.
  - intros z. apply PartitionProps.sortGroup_stable.
Qed.

Lemma validated_groups_are_sorted_witness :
  let contracts :=
    [Examples.cleanLargeStrike; Examples.cleanFractionalVolume;
     Examples.cleanFractionalVolume] in
  let group := [Examples.cleanFractionalVolume; Examples.cleanFractionalVolume] in
  StronglySorted precedes group
  /\ Permutation group (groupOf "AAPL" contracts)
  /\ forall z, filter (tied z) group = filter (tied z) (groupOf "AAPL" contracts).
Proof.
  apply (validated_groups_are_sorted
           [Examples.cleanLargeStrike; Examples.cleanFractionalVolume;
            Examples.cleanFractionalVolume]
           "AAPL"
           [Examples.cleanFractionalVolume; Examples.cleanFractionalVolume]).
  - repeat constructor.
    + exists Examples.rawLargeStrike. vm_compute. reflexivity.
    + exists Examples.rawFractionalVolume. vm_compute. reflexivity.
    + exists Examples.rawFractionalVolume. vm_compute. reflexivity.
  - vm_compute. reflexivity.
Defined.

End CleanProps.

(* ================================================================== *)
(** * Validation of the rows *)
(* ================================================================== *)

Module ValidationProps.
Import JS Types Runtime Utils Processor ValidationModel ValidationSpec AcceptanceSpec.

Lemma validatedInto_refl s : validatedInto s s [].
Proof. unfold validatedInto. cbn. rewrite !app_nil_r. repeat split; lia. Qed.

Lemma validatedInto_trans s1 s2 s3 e1 e2 :
  validatedInto s1 s2 e1 -> validatedInto s2 s3 e2 -> validatedInto s1 s3 (e1 ++ e2).
Proof.
  unfold validatedInto. cbv zeta.
  intros (V1 & I1 & E1 & W1 & T1 & U1 & F1) (V2 & I2 & E2 & W2 & T2 & U2 & F2).
  rewrite !flat_map_app, !length_app, !app_assoc.
  repeat split; try congruence; lia.
Qed.

Lemma fold_pushError (mk : ValidationError -> ProcessingError) errs :
  forall s,
    let s' := fold_left (fun s error => pushError (mk error) s) errs s in
    st_errors s' = st_errors s ++ map mk errs
    /\ validRows s' = validRows s /\ invalidRows s' = invalidRows s
    /\ st_warnings s' = st_warnings s /\ totalRows s' = totalRows s
    /\ uniqueSymbols s' = uniqueSymbols s /\ filesSaved s' = filesSaved s.
Proof.
  induction errs as [|e errs IH]; intros s; cbn [fold_left map].
  - rewrite app_nil_r. repeat split.
  - destruct (IH (pushError (mk e) s)) as (E & V & I & W & T & U & F).
    cbv zeta. rewrite E, V, I, W, T, U, F. cbn [pushError st_errors validRows
      invalidRows st_warnings totalRows uniqueSymbols filesSaved].
    rewrite <- app_assoc. repeat split.
Qed.

Lemma validateRow_spec rowInfo row s results :
  exists s',
    validateRow rowInfo row (s, results) = (s', results ++ cleanedOf row)
    /\ validatedInto s s' [(rowInfo, row)].
Proof.
  unfold validateRow, validatedInto, rowErrors, rowWarnings. cbv zeta.
  cbn [flat_map snd fst]. rewrite !app_nil_r. unfold cleanedOf.
  set (result := validateContract row).
  set (s1 := if 0 <? Z.of_nat (List.length (warnings result)) then _ else s).
  assert (H1 : st_warnings s1 = st_warnings s ++ map (fun w => (rowInfo, w)) (warnings result)
               /\ validRows s1 = validRows s /\ invalidRows s1 = invalidRows s
               /\ st_errors s1 = st_errors s /\ totalRows s1 = totalRows s
               /\ uniqueSymbols s1 = uniqueSymbols s /\ filesSaved s1 = filesSaved s).
  { unfold s1. destruct (warnings result); cbn; rewrite ?app_nil_r; repeat split. }
  destruct H1 as (W1 & V1 & I1 & E1 & T1 & U1 & F1).
  destruct (accepted row) eqn:Ea.
  - destruct (AcceptanceProps.validateContract_accepted row Ea) as (t & _ & Hv & _ & Hc).
    fold result in Hv, Hc. rewrite Hv, Hc.
    eexists. split; [reflexivity|].
    cbn [countValid validRows invalidRows st_errors st_warnings totalRows
         uniqueSymbols filesSaved List.length].
    rewrite app_nil_r. repeat split; try assumption; lia.
  - destruct (AcceptanceProps.validateContract_not_accepted row Ea) as (Hv & _ & Hc).
    fold result in Hv, Hc. rewrite Hv, Hc.
    eexists. split; [rewrite app_nil_r; reflexivity|].
    destruct (fold_pushError (validationError rowInfo row) (errors result) (countInvalid s1))
      as (E & V & I & W & T & U & F).
    cbv zeta in E, V, I, W, T, U, F. rewrite E, V, I, W, T, U, F.
    cbn [countInvalid validRows invalidRows st_errors st_warnings totalRows
         uniqueSymbols filesSaved List.length].
    repeat split; try congruence; lia.
Qed.

Lemma validateBatch_spec i rows :
  forall j s results,
    exists s',
      validateBatch i j rows (s, results)
      = (s', results ++ flat_map cleanedOf rows)
      /\ validatedInto s s' (numberedFrom (i + j + 1) rows).
Proof.
  induction rows as [|row rows IH]; intros j s results; cbn [validateBatch flat_map numberedFrom].
  - exists s. rewrite app_nil_r. split; [reflexivity|apply validatedInto_refl].
  - destruct (validateRow_spec (i + j + 1) row s results) as (s1 & -> & H1).
    destruct (IH (j + 1) s1 (results ++ cleanedOf row)) as (s2 & -> & H2).
    exists s2. split; [now rewrite <- app_assoc|].
    replace (i + (j + 1) + 1) with (i + j + 1 + 1) in H2 by lia.
    exact (validatedInto_trans _ _ _ [_] _ H1 H2).
Qed.

Lemma numberedFrom_app n rows1 rows2 :
  numberedFrom n (rows1 ++ rows2)
  = numberedFrom n rows1 ++ numberedFrom (n + Z.of_nat (List.length rows1)) rows2.
Proof.
  revert n. induction rows1 as [|r rows1 IH]; intros n; cbn [app numberedFrom List.length].
  - now rewrite Z.add_0_r.
  - rewrite IH. do 3 f_equal. lia.
Qed.

Lemma numberedFrom_cleaned n rows :
  flat_map (fun entry => cleanedOf (snd entry)) (numberedFrom n rows)
  = flat_map cleanedOf rows.
Proof.
  revert n. induction rows as [|r rows IH]; intros n; cbn [numberedFrom flat_map snd];
    [reflexivity|]. now rewrite IH.
Qed.

Lemma batchLoop_spec rawData batchSize :
  (1 <= batchSize)%nat ->
  forall fuel i s validContracts,
    (List.length rawData <= i + fuel)%nat ->
    exists s',
      batchLoop fuel rawData batchSize i (s, validContracts)
      = Some (s', validContracts ++ flat_map cleanedOf (skipn i rawData))
      /\ validatedInto s s' (numberedFrom (Z.of_nat i + 1) (skipn i rawData)).
Proof.
  intros Hb. induction fuel as [|fuel IH]; intros i s validContracts Hfuel.
  - cbn [batchLoop].
    replace (List.length rawData <=? i)%nat with true
      by (symmetry; apply Nat.leb_le; lia).
    rewrite skipn_all2 by lia. exists s. cbn [flat_map numberedFrom].
    rewrite app_nil_r. split; [reflexivity|apply validatedInto_refl].
  - cbn [batchLoop]. destruct (Nat.leb_spec (List.length rawData) i) as [Hi|Hi].
    + rewrite skipn_all2 by lia. exists s. cbn [flat_map numberedFrom].
      rewrite app_nil_r. split; [reflexivity|apply validatedInto_refl].
    + set (rest := skipn i rawData).
      destruct (validateBatch_spec (Z.of_nat i) (firstn batchSize rest) 0 s [])
        as (s1 & -> & H1).
      cbn [app].
      destruct (IH (i + batchSize)%nat s1
                   (validContracts ++ flat_map cleanedOf (firstn batchSize rest)))
        as (s2 & -> & H2); [lia|].
      exists s2.
      assert (Hsplit : rest = firstn batchSize rest ++ skipn (i + batchSize) rawData).
      { unfold rest. rewrite <- (firstn_skipn batchSize (skipn i rawData)) at 1.
        f_equal. rewrite skipn_skipn. f_equal. lia. }
      split.
      * rewrite <- app_assoc, <- flat_map_app, <- Hsplit. reflexivity.
      * rewrite Hsplit at 1. rewrite numberedFrom_app.
        replace (Z.of_nat i + 0 + 1) with (Z.of_nat i + 1) in H1 by lia.
        apply (validatedInto_trans _ _ _ _ _ H1).
        assert (Hnum :
          numberedFrom (Z.of_nat i + 1 + Z.of_nat (List.length (firstn batchSize rest)))
                       (skipn (i + batchSize) rawData)
          = numberedFrom (Z.of_nat (i + batchSize) + 1) (skipn (i + batchSize) rawData)).
        { destruct (Nat.le_ge_cases batchSize (List.length rawData - i)) as [Hle|Hge].
          - f_equal. rewrite length_firstn. unfold rest. rewrite length_skipn. lia.
          - rewrite skipn_all2 by lia. reflexivity. }
        rewrite Hnum. exact H2.
Qed.

(** X11: [validateData] returns the cleaned contracts of the accepted rows
    in input order, whatever the batch size cuts; it counts every row as
    valid or invalid, records the errors of each rejected row and the
    warnings of every row under the row's 1-based number, and leaves the
    other counters alone. *)
Theorem validateData_keeps_accepted_rows (rawData : list RawOptionContract) (w : World) :
  exists s',
    validateData rawData w
    = Some ({| events := events w; stats := s' |}, flat_map cleanedOf rawData)
    /\ validatedInto (stats w) s' (numberedFrom 1 rawData).
Proof.
  unfold validateData.
  destruct (batchLoop_spec rawData (Z.to_nat CONFIG.BATCH_SIZE) ltac:(cbn; lia)
                           (List.length rawData) 0%nat (stats w) [] ltac:(lia))
    as (s' & -> & H).
  exists s'. split; [reflexivity|exact H].
Qed.

End ValidationProps.

(* ================================================================== *)
(** * The effects of a run *)
(* ================================================================== *)

Module RunProps.
Import JS Types Runtime Runtime.Notations Utils Processor RetrySpec PersistenceSpec RunSpec.
Import PersistenceProps.

(** ** Steps *)

Lemma steps_refl P w : steps P w w.
Proof. exists []. rewrite app_nil_r. split; [reflexivity|constructor]. Qed.

Lemma steps_trans P w1 w2 w3 : steps P w1 w2 -> steps P w2 w3 -> steps P w1 w3.
Proof.
  intros (a1 & E1 & F1) (a2 & E2 & F2). exists (a1 ++ a2).
  split; [now rewrite E2, E1, app_assoc|now apply Forall_app].
Qed.

Lemma steps_impl (P Q : Event -> Prop) w w' :
  (forall e, P e -> Q e) -> steps P w w' -> steps Q w w'.
Proof.
  intros H (a & E & F). exists a. split; [assumption|].
  eapply Forall_impl; [exact H|exact F].
Qed.

Lemma steps_emit (P : Event -> Prop) e w : P e -> steps P w (fst (emit e w)).
Proof. intros H. exists [e]. split; [reflexivity|now constructor]. Qed.

Lemma steps_same_events P w w' : events w' = events w -> steps P w w'.
Proof. intros H. exists []. rewrite app_nil_r. split; [assumption|constructor]. Qed.

(** ** Quiet computations *)

Lemma quiet_ret {A} P (a : A) : quiet P (ret a).
Proof. intros w. split; [apply steps_refl|reflexivity]. Qed.

Lemma quiet_throw {A} P e : quiet P (@throw A e).
Proof. intros w. split; [apply steps_refl|reflexivity]. Qed.

Lemma quiet_emit (P : Event -> Prop) e : P e -> quiet P (emit e).
Proof. intros H w. split; [now apply steps_emit|reflexivity]. Qed.

Lemma quiet_bind {A B} P (m : Async A) (k : A -> Async B) :
  quiet P m -> (forall a, quiet P (k a)) -> quiet P (bind m k).
Proof.
  intros Hm Hk w. rewrite bind_run. destruct (Hm w) as [S1 T1].
  destruct (m w) as [w' [a|e]]; cbn [fst] in *; [|now split].
  destruct (Hk a w') as [S2 T2]. split; [eapply steps_trans; eassumption|congruence].
Qed.

Lemma quiet_tryCatch {A} P (m : Async A) (h : Message -> Async A) :
  quiet P m -> (forall e, quiet P (h e)) -> quiet P (tryCatch m h).
Proof.
  intros Hm Hh w. rewrite tryCatch_run. destruct (Hm w) as [S1 T1].
  destruct (m w) as [w' [a|e]]; cbn [fst] in *; [now split|].
  destruct (Hh e w') as [S2 T2]. split; [eapply steps_trans; eassumption|congruence].
Qed.

Lemma quiet_retryLoop {T} (P : Event -> Prop) (operation : Async T) baseDelay remaining :
  quiet P operation ->
  forall a,
    (forall i, (i < remaining)%nat -> P (Sleep (baseDelay * 2 ^ (a + Z.of_nat i)))) ->
    quiet P (retryLoop operation baseDelay remaining a).
Proof.
  intros Hop. induction remaining as [|r IH]; intros a Hs; cbn [retryLoop].
  - apply quiet_tryCatch; [assumption|]. intros e. apply quiet_throw.
  - apply quiet_tryCatch; [assumption|]. intros e.
    apply quiet_bind.
    + apply quiet_emit. specialize (Hs 0%nat ltac:(lia)).
      now rewrite Z.add_0_r in Hs.
    + intros _. apply IH. intros i Hi. specialize (Hs (S i) ltac:(lia)).
      replace (a + 1 + Z.of_nat i) with (a + Z.of_nat (S i)) by lia. exact Hs.
Qed.

(** What a retried operation returns is what one of its attempts
    returned. *)
Lemma retryLoop_value {T} (R : T -> Prop) (operation : Async T) baseDelay :
  (forall w w' v, operation w = (w', Fulfilled v) -> R v) ->
  forall remaining a w w' v,
    retryLoop operation baseDelay remaining a w = (w', Fulfilled v) -> R v.
Proof.
  intros Hop. induction remaining as [|r IH]; intros a w w' v;
    rewrite RetryProps.retryLoop_unfold;
    destruct (operation w) as [w1 [v1|e1]] eqn:E1; intros H;
    try (injection H as _ <-; eapply Hop; eassumption); try discriminate.
  eapply IH. eassumption.
Qed.

Section Host.
Variable host : Host.

Lemma writeJsonFile_value filePath buffer w w' size :
  writeJsonFile host filePath buffer w = (w', Fulfilled size) ->
  size = byteLength host buffer.
Proof.
  unfold writeJsonFile.
  destruct (CONFIG.MAX_FILE_SIZE <? byteLength host buffer); [discriminate|].
  rewrite tryCatch_run, bind_run.
  destruct (fsWriteFile host filePath buffer w) as [w1 [[]|e]]; unfold ret, throw;
    intros H; inversion H; reflexivity.
Qed.

Lemma quiet_ensureDir (P : Event -> Prop) dirPath :
  (forall ok, P (Mkdir dirPath ok)) -> quiet P (ensureDir host dirPath).
Proof.
  intros H w. unfold ensureDir.
  destruct (mkdir host (events w) dirPath) as [|code msg].
  - apply quiet_emit, H.
  - apply quiet_bind; [apply quiet_emit, H|]. intros _.
    destruct code as [c|]; [|apply quiet_ret].
    destruct (negb (String.eqb c "EEXIST")); [apply quiet_throw|apply quiet_ret].
Qed.

Lemma quiet_writeJsonFile (P : Event -> Prop) filePath buffer :
  (byteLength host buffer <= CONFIG.MAX_FILE_SIZE ->
   forall ok, P (WriteFile filePath buffer ok)) ->
  quiet P (writeJsonFile host filePath buffer).
Proof.
  intros H. unfold writeJsonFile.
  destruct (Z.ltb_spec CONFIG.MAX_FILE_SIZE (byteLength host buffer)) as [Hbig|Hok];
    [apply quiet_throw|].
  apply quiet_tryCatch; [|intros e; apply quiet_throw].
  apply quiet_bind; [|intros _; apply quiet_ret].
  intros w. unfold fsWriteFile.
  destruct (writeFile host (events w) filePath buffer).
  - apply quiet_bind; [apply quiet_emit, H, Hok|]. intros _. apply quiet_throw.
  - apply quiet_emit, H, Hok.
Qed.

Variable symbolGroups : JsMap (list ProcessedOptionContract).

(** ** One key *)

Lemma processSymbol_settles symbol w :
  let run := processSymbol host symbol (contractsOf symbolGroups symbol) w in
  steps (symbolEffect host symbolGroups symbol) w (fst run)
  /\ settledFor host symbolGroups symbol (snd run)
  /\ stats (fst run)
     = (if isFulfilled (snd run) then incrFilesSaved (stats w) else stats w).
Proof.
  cbv zeta. unfold processSymbol. rewrite tryCatch_run, bind_run.
  set (P := symbolEffect host symbolGroups symbol).
  set (buffer := JsonSymbolData (buildSymbolData symbol (contractsOf symbolGroups symbol))).
  assert (Hdir : quiet P (ensureDir host (dirname (symbolFilePath host symbol))))
    by (apply quiet_ensureDir; intros ok; reflexivity).
  assert (Hwrite : quiet P (retryDefault
                              (writeJsonFile host (symbolFilePath host symbol)
                                             (convertJsonToBuffer buffer)))).
  { apply quiet_retryLoop.
    - apply quiet_writeJsonFile. intros Hok ok. repeat split. exact Hok.
    - intros i Hi. cbn.
      assert (i = 0 \/ i = 1 \/ i = 2)%nat as [->|[->| ->]] by lia; cbn; tauto. }
  destruct (Hdir w) as [S1 T1].
  destruct (ensureDir host (dirname (symbolFilePath host symbol)) w) as [w1 [[]|e]];
    cbn [fst snd] in *.
  - rewrite bind_run. destruct (Hwrite w1) as [S2 T2]. fold buffer.
    destruct (retryDefault _ w1) as [w2 [size|e]] eqn:Er; cbn [fst snd] in *.
    + apply (retryLoop_value (fun v => v = byteLength host buffer)) in Er;
        [|intros w0 w0' v Hv; now apply writeJsonFile_value in Hv].
      subst size. unfold bind, modifyStats, ret. cbn [fst snd settledFor isFulfilled].
      split; [|split].
      * eapply steps_trans; [exact S1|]. eapply steps_trans; [exact S2|].
        now apply steps_same_events.
      * reflexivity.
      * cbn [stats]. congruence.
    + split; [|split].
      * eapply steps_trans; eassumption.
      * cbn. eexists. reflexivity.
      * cbn. congruence.
  - split; [|split]; [assumption|cbn; eexists; reflexivity|cbn; congruence].
Qed.

Lemma ran_refl P w : ran P w w 0 [].
Proof.
  unfold ran. rewrite app_nil_r, Z.add_0_r.
  split; [apply steps_refl|]. repeat split.
Qed.

Lemma ran_trans P w1 w2 w3 n1 n2 e1 e2 :
  ran P w1 w2 n1 e1 -> ran P w2 w3 n2 e2 -> ran P w1 w3 (n1 + n2) (e1 ++ e2).
Proof.
  intros (S1 & F1 & E1 & T1 & V1 & I1 & U1 & W1) (S2 & F2 & E2 & T2 & V2 & I2 & U2 & W2).
  split; [eapply steps_trans; eassumption|].
  rewrite F2, F1, E2, E1, app_assoc. repeat split; try congruence. lia.
Qed.

Lemma ran_impl (P Q : Event -> Prop) w w' n e :
  (forall ev, P ev -> Q ev) -> ran P w w' n e -> ran Q w w' n e.
Proof.
  intros H (S1 & R). split; [eapply steps_impl; eassumption|exact R].
Qed.

Lemma symbolEffect_runEffect symbol e :
  In symbol (keys symbolGroups) ->
  symbolEffect host symbolGroups symbol e -> runEffect host symbolGroups e.
Proof. intros Hin H. left. exists symbol. now split. Qed.

Lemma processSymbol_ran symbol w :
  In symbol (keys symbolGroups) ->
  let run := processSymbol host symbol (contractsOf symbolGroups symbol) w in
  settledFor host symbolGroups symbol (snd run)
  /\ ran (runEffect host symbolGroups) w (fst run)
         (if isFulfilled (snd run) then 1 else 0) [].
Proof.
  intros Hin. cbv zeta.
  destruct (processSymbol_settles symbol w) as (S1 & Q1 & T1). cbv zeta in S1, Q1, T1.
  split; [exact Q1|]. split.
  - eapply steps_impl; [|exact S1]. intros e. now apply symbolEffect_runEffect.
  - rewrite T1, app_nil_r.
    destruct (isFulfilled _); cbn; repeat split; lia.
Qed.

Lemma fulfilledCount_cons {A} (o : Outcome A) os :
  fulfilledCount (o :: os) = (if isFulfilled o then 1 else 0) + fulfilledCount os.
Proof.
  unfold fulfilledCount. cbn [filter]. destruct (isFulfilled o); cbn [List.length]; lia.
Qed.

Lemma fulfilledCount_app {A} (o1 o2 : list (Outcome A)) :
  fulfilledCount (o1 ++ o2) = fulfilledCount o1 + fulfilledCount o2.
Proof. unfold fulfilledCount. rewrite filter_app, length_app. lia. Qed.

(** ** One wave *)

Lemma allSettled_ran (batch : list string) :
  incl batch (keys symbolGroups) ->
  forall w,
    exists w' outcomes,
      allSettled
        (map (fun symbol =>
                processSymbol host symbol
                  (match get symbolGroups symbol with
                   | Some contracts => contracts
                   | None => []
                   end)) batch) w
      = (w', Fulfilled outcomes)
      /\ Forall2 (settledFor host symbolGroups) batch outcomes
      /\ ran (runEffect host symbolGroups) w w' (fulfilledCount outcomes) [].
Proof.
  induction batch as [|symbol batch IH]; intros Hincl w; cbn [map allSettled].
  - exists w, []. split; [reflexivity|]. split; [constructor|apply ran_refl].
  - change (match get symbolGroups symbol with
            | Some contracts => contracts
            | None => []
            end) with (contractsOf symbolGroups symbol).
    destruct (processSymbol_ran symbol w (Hincl symbol (or_introl eq_refl))) as [Q1 R1].
    cbv zeta in Q1, R1.
    destruct (processSymbol host symbol (contractsOf symbolGroups symbol) w) as [w1 o].
    cbn [fst snd] in Q1, R1.
    destruct (IH (fun x Hx => Hincl x (or_intror Hx)) w1) as (w2 & os & -> & Q2 & R2).
    exists w2, (o :: os). split; [reflexivity|]. split; [now constructor|].
    rewrite fulfilledCount_cons. exact (ran_trans _ _ _ _ _ _ _ _ R1 R2).
Qed.

Lemma collectResult_ran P entries :
  forall w results,
    exists w',
      fold_left collectResult entries (w, results)
      = (w', results ++ map settledResult entries)
      /\ ran P w w' 0 (flat_map settledErrors entries).
Proof.
  induction entries as [|[symbol [value|reason]] entries IH]; intros w results;
    cbn [fold_left map flat_map].
  - exists w. rewrite app_nil_r. split; [reflexivity|apply ran_refl].
  - cbn [collectResult]. destruct (IH w (results ++ [value])) as (w' & -> & R).
    exists w'. split; [now rewrite <- app_assoc|exact R].
  - cbn [collectResult].
    set (w1 := fst (modifyStats _ w)).
    destruct (IH w1 (results ++ [failedResult symbol reason])) as (w' & E & R).
    exists w'. split.
    + unfold failedResult in E. cbn [message createError] in *. rewrite E.
      now rewrite <- app_assoc.
    + assert (R1 : ran P w w1 0 [fileWriteError symbol reason]).
      { split; [now apply steps_same_events|]. cbn. repeat split. lia. }
      exact (ran_trans _ _ _ _ _ _ _ _ R1 R).
Qed.

Lemma combine_app_same {A B} (l1 l2 : list A) (o1 o2 : list B) :
  List.length l1 = List.length o1 ->
  combine (l1 ++ l2) (o1 ++ o2) = combine l1 o1 ++ combine l2 o2.
Proof.
  revert o1. induction l1 as [|x l1 IH]; intros [|y o1] H; cbn in *; try lia;
    [reflexivity|]. f_equal. apply IH. lia.
Qed.

Lemma processBatch_ran (batch : list string) w results :
  incl batch (keys symbolGroups) ->
  exists w' outcomes,
    processBatch host symbolGroups batch (w, results)
    = (w', results ++ map settledResult (combine batch outcomes))
    /\ Forall2 (settledFor host symbolGroups) batch outcomes
    /\ ran (runEffect host symbolGroups) w w' (fulfilledCount outcomes)
           (flat_map settledErrors (combine batch outcomes)).
Proof.
  intros Hincl. unfold processBatch.
  destruct (allSettled_ran batch Hincl w) as (w1 & outcomes & -> & Q & R1).
  destruct (collectResult_ran (runEffect host symbolGroups) (combine batch outcomes) w1 results)
    as (w' & -> & R2).
  exists w', outcomes. split; [reflexivity|]. split; [exact Q|].
  pose proof (ran_trans _ _ _ _ _ _ _ _ R1 R2) as R.
  now rewrite Z.add_0_r in R.
Qed.

(** ** The waves *)

Lemma waveLoop_ran symbols concurrency :
  (1 <= concurrency)%nat ->
  incl symbols (keys symbolGroups) ->
  forall fuel i w results,
    (List.length symbols <= i + fuel)%nat ->
    exists w' outcomes,
      waveLoop host fuel symbolGroups symbols concurrency i (w, results)
      = Some (w', results ++ map settledResult (combine (skipn i symbols) outcomes))
      /\ Forall2 (settledFor host symbolGroups) (skipn i symbols) outcomes
      /\ ran (runEffect host symbolGroups) w w' (fulfilledCount outcomes)
             (flat_map settledErrors (combine (skipn i symbols) outcomes)).
Proof.
  intros Hc Hincl. induction fuel as [|fuel IH]; intros i w results Hfuel.
  - cbn [waveLoop].
    replace (List.length symbols <=? i)%nat with true
      by (symmetry; apply Nat.leb_le; lia).
    rewrite skipn_all2 by lia. exists w, []. cbn. rewrite app_nil_r.
    split; [reflexivity|]. split; [constructor|apply ran_refl].
  - cbn [waveLoop]. destruct (Nat.leb_spec (List.length symbols) i) as [Hi|Hi].
    + rewrite skipn_all2 by lia. exists w, []. cbn. rewrite app_nil_r.
      split; [reflexivity|]. split; [constructor|apply ran_refl].
    + set (rest := skipn i symbols).
      assert (Hrest : incl (firstn concurrency rest) (keys symbolGroups)).
      { intros x Hx. apply Hincl. rewrite <- (firstn_skipn i symbols).
        apply in_or_app. right. fold rest.
        rewrite <- (firstn_skipn concurrency rest). apply in_or_app. now left. }
      destruct (processBatch_ran (firstn concurrency rest) w results Hrest)
        as (w1 & os1 & -> & Q1 & R1).
      destruct (IH (i + concurrency)%nat w1
                   (results ++ map settledResult (combine (firstn concurrency rest) os1)))
        as (w2 & os2 & -> & Q2 & R2); [lia|].
      assert (Hsplit : rest = firstn concurrency rest ++ skipn (i + concurrency) symbols).
      { unfold rest. rewrite <- (firstn_skipn concurrency (skipn i symbols)) at 1.
        f_equal. rewrite skipn_skipn. f_equal. lia. }
      pose proof (Forall2_length Q1) as L1.
      exists w2, (os1 ++ os2).
      set (batch := firstn concurrency rest) in *. clearbody batch.
      fold rest. rewrite Hsplit.
      rewrite (combine_app_same _ _ _ _ L1), map_app, flat_map_app, fulfilledCount_app.
      split; [now rewrite <- app_assoc|].
      split; [now apply Forall2_app|].
      exact (ran_trans _ _ _ _ _ _ _ _ R1 R2).
Qed.

Lemma processSymbols_ran w :
  (1 <= cpus host)%nat ->
  exists w' outcomes,
    processSymbols host symbolGroups w
    = Some (w', map settledResult (combine (keys symbolGroups) outcomes))
    /\ Forall2 (settledFor host symbolGroups) (keys symbolGroups) outcomes
    /\ ran (runEffect host symbolGroups) w w' (fulfilledCount outcomes)
           (flat_map settledErrors (combine (keys symbolGroups) outcomes)).
Proof.
  intros Hcpu. unfold processSymbols.
  destruct (keys symbolGroups) as [|k ks] eqn:Ek.
  - exists w, []. cbn. split; [reflexivity|]. split; [constructor|apply ran_refl].
  - rewrite <- Ek.
    assert (Hc : (1 <= Nat.min (CONFIG.MAX_CONCURRENCY (cpus host))
                              (List.length (keys symbolGroups)))%nat).
    { unfold CONFIG.MAX_CONCURRENCY. rewrite Ek. cbn [List.length]. lia. }
    destruct (waveLoop_ran (keys symbolGroups) _ Hc (incl_refl _)
                           (List.length (keys symbolGroups)) 0%nat w [] ltac:(lia))
      as (w' & outcomes & E & Q & R).
    exists w', outcomes. cbn [skipn app] in E, Q, R. now split.
Qed.

(** X12: whatever the file system does, on a host with at least one CPU
    [processSymbols] ends with exactly one result per key, in the order of
    the keys: a fulfilled key has its saved result and counts as one saved
    file, a rejected key has the failed result and exactly one [file_write]
    error, recorded in key order; nothing else of the statistics changes,
    and every effect is one of the expected ones. *)
Theorem processSymbols_settles_every_key (w : World) :
  (1 <= cpus host)%nat ->
  exists w' outcomes,
    let results := map settledResult (combine (keys symbolGroups) outcomes) in
    processSymbols host symbolGroups w = Some (w', results)
    /\ Forall2 (settledFor host symbolGroups) (keys symbolGroups) outcomes
    /\ map r_symbol results = keys symbolGroups
    /\ Z.of_nat (List.length (filter success results)) = fulfilledCount outcomes
    /\ ran (runEffect host symbolGroups) w w' (fulfilledCount outcomes)
           (flat_map settledErrors (combine (keys symbolGroups) outcomes)).
Proof.
  intros Hcpu. destruct (processSymbols_ran w Hcpu) as (w' & outcomes & E & Q & R).
  exists w', outcomes. cbv zeta. split; [exact E|]. split; [exact Q|].
  split; [|split; [|exact R]].
  - clear E R. induction Q as [|k o ks os Hk Q IH]; [reflexivity|].
    cbn [combine map]. rewrite IH. f_equal.
    destruct o as [value|reason]; cbn in *; [now subst value|reflexivity].
  - clear E R. induction Q as [|k o ks os Hk Q IH]; [reflexivity|].
    cbn [combine map filter]. rewrite fulfilledCount_cons, <- IH.
    destruct o as [value|reason]; cbn [settledFor] in Hk;
      cbn [settledResult snd fst isFulfilled].
    + subst value. cbn [savedResult success List.length]. lia.
    + cbn [failedResult success]. lia.
Qed.

(** ** The aggregate files *)

Lemma generateApiFiles_steps processingResults w :
  steps (aggregateEffect host symbolGroups) w
        (fst (generateApiFiles host symbolGroups processingResults w)).
Proof.
  set (P := aggregateEffect host symbolGroups).
  assert (Hd1 : quiet P (ensureDir host (dirname (symbolsPath host))))
    by (apply quiet_ensureDir; intros ok; now left).
  assert (Hd2 : quiet P (ensureDir host (dirname (metadataPath host))))
    by (apply quiet_ensureDir; intros ok; now right).
  assert (Hw1 : quiet P (writeJsonFile host (symbolsPath host)
                           (JsonSymbols (sort defaultCompare (keys symbolGroups))))).
  { apply quiet_writeJsonFile. intros Hok ok. split; [exact Hok|]. left. now split. }
  assert (Hw2 : forall metadata,
             quiet P (writeJsonFile host (metadataPath host) (JsonMetadata metadata))).
  { intros metadata. apply quiet_writeJsonFile. intros Hok ok. split; [exact Hok|].
    right. split; [reflexivity|now exists metadata]. }
  unfold generateApiFiles, convertJsonToBuffer. rewrite bind_run.
  destruct (Hd1 w) as [S1 _].
  destruct (ensureDir host (dirname (symbolsPath host)) w) as [w1 [[]|e]];
    cbn [fst] in *; [|exact S1].
  rewrite bind_run. destruct (Hw1 w1) as [S2 _].
  destruct (writeJsonFile host (symbolsPath host) _ w1) as [w2 [size|e]];
    cbn [fst] in *; [|eapply steps_trans; eassumption].
  rewrite bind_run. cbn [modifyStats]. rewrite bind_run. cbn [getStats].
  rewrite bind_run.
  set (w3 := {| events := events w2; stats := incrFilesSaved (stats w2) |}).
  assert (S3 : steps P w w3).
  { eapply steps_trans; [exact S1|]. eapply steps_trans; [exact S2|].
    now apply steps_same_events. }
  destruct (Hd2 w3) as [S4 _].
  destruct (ensureDir host (dirname (metadataPath host)) w3) as [w4 [[]|e]];
    cbn [fst] in *; [|eapply steps_trans; eassumption].
  rewrite bind_run.
  destruct (Hw2 (buildMetadata symbolGroups (filter success processingResults) (stats w3)) w4)
    as [S5 _].
  destruct (writeJsonFile host (metadataPath host) _ w4) as [w5 [size'|e]];
    cbn [fst] in *.
  - eapply steps_trans; [exact S3|]. eapply steps_trans; [exact S4|].
    eapply steps_trans; [exact S5|]. now apply steps_same_events.
  - eapply steps_trans; [exact S3|]. eapply steps_trans; eassumption.
Qed.

Lemma runEffect_withinLimit e : runEffect host symbolGroups e -> withinLimit host e.
Proof.
  intros [(symbol & _ & H)|H]; destruct e as [d ok|path buffer ok|ms]; cbn in *;
    try exact I; tauto.
Qed.

(** X13: on a host with at least one CPU the persistence of a partition
    map always ends, and whatever the file system answers it only creates
    the directories of the files it writes, sleeps 1000, 2000 or 4000 ms,
    and writes the artifact of a key to the file of that key, the sorted
    key index to [symbols.json] and a metadata object to [metadata.json];
    no buffer above the size limit is ever handed to the sink. *)
Theorem persistAll_only_expected_effects (w : World) :
  (1 <= cpus host)%nat ->
  exists w' outcome added,
    persistAll host symbolGroups w = Some (w', outcome)
    /\ events w' = events w ++ added
    /\ Forall (runEffect host symbolGroups) added
    /\ Forall (withinLimit host) added.
Proof.
  intros Hcpu. unfold persistAll.
  destruct (processSymbols_ran w Hcpu) as (w1 & outcomes & -> & _ & (S1 & _)).
  pose proof (generateApiFiles_steps
                (map settledResult (combine (keys symbolGroups) outcomes)) w1) as S2.
  destruct (generateApiFiles host symbolGroups _ w1) as [w2 o]. cbn [fst] in S2.
  assert (S : steps (runEffect host symbolGroups) w w2).
  { eapply steps_trans; [exact S1|]. eapply steps_impl; [|exact S2].
    intros e He. now right. }
  destruct S as (added & E & F).
  destruct o as [[]|e]; eexists _, _, added; (split; [reflexivity|]);
    (split; [exact E|]); (split; [exact F|]);
    (eapply Forall_impl; [apply runEffect_withinLimit|exact F]).
Qed.

(** X14: the aggregate files are written without retry.  When the sink
    refuses [symbols.json], the run is rejected with that failure after
    every key was processed: there is one write attempt and no sleep,
    [metadata.json] is not attempted, and nothing is added to the
    statistics. *)
Theorem index_failure_ends_the_run (w : World) (msg : string) :
  let index := JsonSymbols (sort defaultCompare (keys symbolGroups)) in
  (1 <= cpus host)%nat ->
  (forall history, mkdir host history (dirname (symbolsPath host)) = MkdirOk) ->
  byteLength host index <= CONFIG.MAX_FILE_SIZE ->
  (forall history, writeFile host history (symbolsPath host) index = Some msg) ->
  exists w1 results,
    processSymbols host symbolGroups w = Some (w1, results)
    /\ persistAll host symbolGroups w
       = Some (afterEvents w1 [Mkdir (dirname (symbolsPath host)) true;
                               WriteFile (symbolsPath host) index false],
               Rejected (FailedToWriteFile (symbolsPath host) (HostError msg))).
Proof.
  intros index Hcpu Hdir Hsize Hwrite. unfold persistAll.
  destruct (processSymbols_ran w Hcpu) as (w1 & outcomes & -> & _).
  eexists _, _. split; [reflexivity|].
  unfold generateApiFiles, convertJsonToBuffer. fold index. rewrite bind_run.
  unfold ensureDir at 1. rewrite Hdir. cbn [emit].
  rewrite bind_run. unfold writeJsonFile at 1.
  replace (CONFIG.MAX_FILE_SIZE <? byteLength host index) with false
    by (symmetry; apply Z.ltb_ge; exact Hsize).
  rewrite tryCatch_run, bind_run. unfold fsWriteFile. rewrite Hwrite.
  rewrite bind_run. cbn [emit throw events stats].
  unfold afterEvents. rewrite <- app_assoc. reflexivity.
Qed.

End Host.

Lemma processSymbols_settles_every_key_witness :
  exists w' outcomes,
    let results :=
      map settledResult (combine (keys Examples.sampleGroups) outcomes) in
    processSymbols Examples.flakyHost Examples.sampleGroups Examples.initialWorld
    = Some (w', results)
    /\ Forall2 (settledFor Examples.flakyHost Examples.sampleGroups)
               (keys Examples.sampleGroups) outcomes
    /\ map r_symbol results = keys Examples.sampleGroups
    /\ Z.of_nat (List.length (filter success results)) = fulfilledCount outcomes
    /\ ran (runEffect Examples.flakyHost Examples.sampleGroups)
           Examples.initialWorld w' (fulfilledCount outcomes)
           (flat_map settledErrors (combine (keys Examples.sampleGroups) outcomes)).
Proof.
  apply (processSymbols_settles_every_key Examples.flakyHost Examples.sampleGroups
                                          Examples.initialWorld).
  cbn. lia.
Defined.

Lemma persistAll_only_expected_effects_witness :
  exists w' outcome added,
    persistAll Examples.bigHost Examples.sampleGroups Examples.initialWorld
    = Some (w', outcome)
    /\ events w' = events Examples.initialWorld ++ added
    /\ Forall (runEffect Examples.bigHost Examples.sampleGroups) added
    /\ Forall (withinLimit Examples.bigHost) added.
Proof.
  apply (persistAll_only_expected_effects Examples.bigHost Examples.sampleGroups
                                          Examples.initialWorld).
  cbn. lia.
Defined.

Lemma index_failure_ends_the_run_witness :
  let index := JsonSymbols (sort defaultCompare (keys Examples.sampleGroups)) in
  exists w1 results,
    processSymbols RunSamples.indexRefusingHost Examples.sampleGroups Examples.initialWorld
    = Some (w1, results)
    /\ persistAll RunSamples.indexRefusingHost Examples.sampleGroups Examples.initialWorld
       = Some (afterEvents w1
                 [Mkdir (dirname (symbolsPath RunSamples.indexRefusingHost)) true;
                  WriteFile (symbolsPath RunSamples.indexRefusingHost) index false],
               Rejected (FailedToWriteFile (symbolsPath RunSamples.indexRefusingHost)
                                           (HostError "EROFS"))).
Proof.
  apply (index_failure_ends_the_run RunSamples.indexRefusingHost Examples.sampleGroups
                                    Examples.initialWorld "EROFS").
  - cbn. lia.
  - intros history. reflexivity.
  - vm_compute. discriminate.
  - intros history. reflexivity.
Defined.

End RunProps.

(* ================================================================== *)
(** * The order of valid dates *)
(* ================================================================== *)

Module DateOrderProps.
Import JS Types Utils DateSpec DateOrderSpec.

Lemma dateOf_isoText y1 y2 y3 y4 m1 m2 d1 d2 :
  Forall (fun c => isDigit c = true) [y1; y2; y3; y4; m1; m2; d1; d2] ->
  dateOf (isoText y1 y2 y3 y4 m1 m2 d1 d2)
  = Some (newDate (number4 y1 y2 y3 y4) (number2 m1 m2 - 1) (number2 d1 d2)).
Proof.
  intros digits.
  destruct (DateProps.digits_all _ _ _ _ _ _ _ _ digits)
    as (D1 & D2 & D3 & D4 & D5 & D6 & D7 & D8).
  unfold dateOf, isoText. cbn [split].
  rewrite (DateProps.isDigit_not_hyphen y1 D1), (DateProps.isDigit_not_hyphen y2 D2),
    (DateProps.isDigit_not_hyphen y3 D3), (DateProps.isDigit_not_hyphen y4 D4),
    (DateProps.isDigit_not_hyphen m1 D5), (DateProps.isDigit_not_hyphen m2 D6),
    (DateProps.isDigit_not_hyphen d1 D7), (DateProps.isDigit_not_hyphen d2 D8).
  change (Ascii.eqb "-" "-") with true. cbn iota.
  unfold toNumberDigits. cbn [digitsFrom].
  rewrite D1, D2, D3, D4, D5, D6, D7, D8. cbn iota.
  unfold number4, number2. do 2 f_equal; lia.
Qed.

Lemma newDate_dayNumber year month day :
  1000 <= year -> 1 <= month <= 12 ->
  newDate year (month - 1) day = dayNumber year month day.
Proof.
  intros Hy Hm. unfold newDate, MakeDay, dayNumber.
  replace ((0 <=? year) && (year <=? 99)) with false
    by (symmetry; apply andb_false_iff; right; apply Z.leb_gt; lia).
  rewrite (Z.div_small (month - 1) 12), (Z.mod_small (month - 1) 12) by lia.
  now rewrite Z.add_0_r.
Qed.

(** ** Day numbers grow with the calendar *)

Ltac at_month month H :=
  match type of H with
  | _ = ?k =>
      let v := eval compute in (k + 1) in
      assert (month = v) by lia; subst month; change (v - 1) with k in *
  end;
  cbn [monthStart daysInMonth] in *.

Lemma DayFromYear_mono y y' : y <= y' -> DayFromYear y <= DayFromYear y'.
Proof.
  intros H. replace y' with (y + Z.of_nat (Z.to_nat (y' - y))) by lia.
  induction (Z.to_nat (y' - y)) as [|k IH]; [rewrite Z.add_0_r; lia|].
  replace (y + Z.of_nat (S k)) with (y + Z.of_nat k + 1) by lia.
  rewrite DateProps.DayFromYear_succ.
  pose proof (DateProps.leapDay_range (y + Z.of_nat k)). lia.
Qed.

Lemma dayNumber_in_year year month day :
  1 <= month <= 12 -> 1 <= day <= daysInMonth year month ->
  DayFromYear year <= dayNumber year month day < DayFromYear (year + 1).
Proof.
  intros Hm Hd. rewrite DateProps.DayFromYear_succ. unfold dayNumber.
  pose proof (DateProps.leapDay_range year) as Hl.
  destruct (DateProps.month_cases (month - 1) ltac:(lia))
    as [H|[H|[H|[H|[H|[H|[H|[H|[H|[H|[H|H]]]]]]]]]]];
    at_month month H; lia.
Qed.

Lemma dayNumber_months year m1 d1 m2 d2 :
  1 <= m1 -> m1 < m2 -> m2 <= 12 ->
  1 <= d1 <= daysInMonth year m1 -> 1 <= d2 ->
  dayNumber year m1 d1 < dayNumber year m2 d2.
Proof.
  intros H1 H12 H2 Hd1 Hd2. unfold dayNumber.
  pose proof (DateProps.leapDay_range year) as Hl.
  assert (Hnext : forall m, 1 <= m <= 11 ->
             monthStart year (m - 1) + daysInMonth year m = monthStart year m).
  { intros m Hm.
    destruct (DateProps.month_cases (m - 1) ltac:(lia))
      as [H|[H|[H|[H|[H|[H|[H|[H|[H|[H|[H|H]]]]]]]]]]];
      at_month m H; lia. }
  assert (Hmono : forall a b, 0 <= a -> a <= b -> b <= 11 ->
             monthStart year a <= monthStart year b).
  { intros a b Ha Hab Hb.
    destruct (DateProps.month_cases a ltac:(lia))
      as [A|[A|[A|[A|[A|[A|[A|[A|[A|[A|[A|A]]]]]]]]]]];
    destruct (DateProps.month_cases b ltac:(lia))
      as [B|[B|[B|[B|[B|[B|[B|[B|[B|[B|[B|B]]]]]]]]]]];
      subst a b; try lia; cbn [monthStart]; lia. }
  specialize (Hnext m1 ltac:(lia)). specialize (Hmono m1 (m2 - 1) ltac:(lia) ltac:(lia) ltac:(lia)).
  lia.
Qed.

(** The calendar order of (year, month, day). *)
Lemma dayNumber_lt y1 m1 d1 y2 m2 d2 :
  1 <= m1 <= 12 -> 1 <= d1 <= daysInMonth y1 m1 ->
  1 <= m2 <= 12 -> 1 <= d2 <= daysInMonth y2 m2 ->
  (dayNumber y1 m1 d1 < dayNumber y2 m2 d2
   <-> y1 < y2 \/ (y1 = y2 /\ (m1 < m2 \/ (m1 = m2 /\ d1 < d2)))).
Proof.
  intros Hm1 Hd1 Hm2 Hd2.
  assert (Hlt : forall ya ma da yb mb db,
             1 <= ma <= 12 -> 1 <= da <= daysInMonth ya ma ->
             1 <= mb <= 12 -> 1 <= db <= daysInMonth yb mb ->
             ya < yb \/ (ya = yb /\ (ma < mb \/ (ma = mb /\ da < db))) ->
             dayNumber ya ma da < dayNumber yb mb db).
  { intros ya ma da yb mb db Ha Hda Hb Hdb [Hy|[-> [Hm|[-> Hd]]]].
    - pose proof (dayNumber_in_year ya ma da Ha Hda).
      pose proof (dayNumber_in_year yb mb db Hb Hdb).
      pose proof (DayFromYear_mono (ya + 1) yb ltac:(lia)). lia.
    - apply dayNumber_months; lia.
    - unfold dayNumber. lia. }
  split; [|apply Hlt; assumption].
  intros H.
  destruct (Z.lt_trichotomy y1 y2) as [Hy|[Hy|Hy]]; [now left| |].
  - subst y2. right. split; [reflexivity|].
    destruct (Z.lt_trichotomy m1 m2) as [Hm|[Hm|Hm]]; [now left| |].
    + subst m2. right. split; [reflexivity|]. unfold dayNumber in H. lia.
    + exfalso.
      pose proof (Hlt y1 m2 d2 y1 m1 d1 Hm2 Hd2 Hm1 Hd1 ltac:(right; split; [reflexivity|now left])).
      lia.
  - exfalso.
    pose proof (Hlt y2 m2 d2 y1 m1 d1 Hm2 Hd2 Hm1 Hd1 ltac:(now left)). lia.
Qed.

(** ** The order of the texts *)

Lemma ascii_compare_digitValue a b :
  Ascii.compare a b = Z.compare (digitValue a) (digitValue b).
Proof.
  unfold Ascii.compare, digitValue, nat_of_ascii. rewrite !N_nat_Z, <- N2Z.inj_compare.
  destruct (Z.compare_spec (Z.of_N (N_of_ascii a)) (Z.of_N (N_of_ascii b)));
    destruct (Z.compare_spec (Z.of_N (N_of_ascii a) - 48) (Z.of_N (N_of_ascii b) - 48));
    try reflexivity; lia.
Qed.

Lemma digitValue_inj a b : digitValue a = digitValue b -> a = b.
Proof.
  unfold digitValue, nat_of_ascii. rewrite !N_nat_Z. intros H.
  rewrite <- (ascii_N_embedding a), <- (ascii_N_embedding b). f_equal. lia.
Qed.

(** The number [YYYYMMDD] that the digits of a date spell. *)
Lemma isoText_order a1 a2 a3 a4 a5 a6 a7 a8 b1 b2 b3 b4 b5 b6 b7 b8 :
  Forall (fun c => isDigit c = true) [a1; a2; a3; a4; a5; a6; a7; a8] ->
  Forall (fun c => isDigit c = true) [b1; b2; b3; b4; b5; b6; b7; b8] ->
  let na := 10000 * number4 a1 a2 a3 a4 + 100 * number2 a5 a6 + number2 a7 a8 in
  let nb := 10000 * number4 b1 b2 b3 b4 + 100 * number2 b5 b6 + number2 b7 b8 in
  (String.ltb (isoText a1 a2 a3 a4 a5 a6 a7 a8) (isoText b1 b2 b3 b4 b5 b6 b7 b8) = true
   <-> na < nb)
  /\ (isoText a1 a2 a3 a4 a5 a6 a7 a8 = isoText b1 b2 b3 b4 b5 b6 b7 b8 <-> na = nb).
Proof.
  intros Da Db.
  destruct (DateProps.digits_all _ _ _ _ _ _ _ _ Da)
    as (A1 & A2 & A3 & A4 & A5 & A6 & A7 & A8).
  destruct (DateProps.digits_all _ _ _ _ _ _ _ _ Db)
    as (B1 & B2 & B3 & B4 & B5 & B6 & B7 & B8).
  apply DateProps.digitValue_range in A1, A2, A3, A4, A5, A6, A7, A8,
                                      B1, B2, B3, B4, B5, B6, B7, B8.
  unfold number4, number2. cbv zeta. split.
  - unfold String.ltb, isoText. cbn [String.compare].
    rewrite !ascii_compare_digitValue, !Z.compare_refl.
    destruct (Z.compare_spec (digitValue a1) (digitValue b1)); [|split; [lia|reflexivity]|split; [discriminate|lia]].
    destruct (Z.compare_spec (digitValue a2) (digitValue b2)); [|split; [lia|reflexivity]|split; [discriminate|lia]].
    destruct (Z.compare_spec (digitValue a3) (digitValue b3)); [|split; [lia|reflexivity]|split; [discriminate|lia]].
    destruct (Z.compare_spec (digitValue a4) (digitValue b4)); [|split; [lia|reflexivity]|split; [discriminate|lia]].
    destruct (Z.compare_spec (digitValue a5) (digitValue b5)); [|split; [lia|reflexivity]|split; [discriminate|lia]].
    destruct (Z.compare_spec (digitValue a6) (digitValue b6)); [|split; [lia|reflexivity]|split; [discriminate|lia]].
    destruct (Z.compare_spec (digitValue a7) (digitValue b7)); [|split; [lia|reflexivity]|split; [discriminate|lia]].
    destruct (Z.compare_spec (digitValue a8) (digitValue b8)); [|split; [lia|reflexivity]|split; [discriminate|lia]].
    split; [discriminate|lia].
  - split.
    + intros H. unfold isoText in H. injection H as -> -> -> -> -> -> -> ->. reflexivity.
    + intros H.
      destruct (Z.compare_spec (digitValue a1) (digitValue b1)) as [E1| |]; [|exfalso; lia|exfalso; lia].
      destruct (Z.compare_spec (digitValue a2) (digitValue b2)) as [E2| |]; [|exfalso; lia|exfalso; lia].
      destruct (Z.compare_spec (digitValue a3) (digitValue b3)) as [E3| |]; [|exfalso; lia|exfalso; lia].
      destruct (Z.compare_spec (digitValue a4) (digitValue b4)) as [E4| |]; [|exfalso; lia|exfalso; lia].
      destruct (Z.compare_spec (digitValue a5) (digitValue b5)) as [E5| |]; [|exfalso; lia|exfalso; lia].
      destruct (Z.compare_spec (digitValue a6) (digitValue b6)) as [E6| |]; [|exfalso; lia|exfalso; lia].
      destruct (Z.compare_spec (digitValue a7) (digitValue b7)) as [E7| |]; [|exfalso; lia|exfalso; lia].
      destruct (Z.compare_spec (digitValue a8) (digitValue b8)) as [E8| |]; [|exfalso; lia|exfalso; lia].
      apply digitValue_inj in E1, E2, E3, E4, E5, E6, E7, E8. now subst.
Qed.

(** X15: on valid dates the order of the texts is the order of time: one
    valid date string is below another in the order of [<] on strings
    exactly when the [Date] built from it is the earlier day, and two valid
    date strings are equal exactly when they are the same day. *)
Theorem valid_dates_sort_by_time (s1 s2 : string) :
  isValidDate s1 = true -> isValidDate s2 = true ->
  exists t1 t2,
    dateOf s1 = Some t1 /\ dateOf s2 = Some t2
    /\ (String.ltb s1 s2 = true <-> t1 < t2)
    /\ (s1 = s2 <-> t1 = t2).
Proof.
  intros H1 H2.
  apply DateProps.isValidDate_gregorian in H1, H2.
  destruct H1 as (a1 & a2 & a3 & a4 & a5 & a6 & a7 & a8 & -> & Da & Ya & Ma & Ha).
  destruct H2 as (b1 & b2 & b3 & b4 & b5 & b6 & b7 & b8 & -> & Db & Yb & Mb & Hb).
  rewrite (dateOf_isoText _ _ _ _ _ _ _ _ Da), (dateOf_isoText _ _ _ _ _ _ _ _ Db).
  rewrite !newDate_dayNumber by assumption.
  eexists _, _. split; [reflexivity|]. split; [reflexivity|].
  destruct (isoText_order _ _ _ _ _ _ _ _ _ _ _ _ _ _ _ _ Da Db) as [Hlt Heq].
  cbv zeta in Hlt, Heq.
  pose proof (dayNumber_lt _ _ _ _ _ _ Ma Ha Mb Hb) as Hab.
  pose proof (dayNumber_lt _ _ _ _ _ _ Mb Hb Ma Ha) as Hba.
  pose proof (DateProps.daysInMonth_range (number4 a1 a2 a3 a4) _ Ma) as Ra.
  pose proof (DateProps.daysInMonth_range (number4 b1 b2 b3 b4) _ Mb) as Rb.
  split.
  - rewrite Hlt, Hab. lia.
  - rewrite Heq. split.
    + intros H. destruct (Z.lt_trichotomy (dayNumber (number4 a1 a2 a3 a4) (number2 a5 a6) (number2 a7 a8))
                            (dayNumber (number4 b1 b2 b3 b4) (number2 b5 b6) (number2 b7 b8)))
        as [L|[E|L]]; [apply Hab in L; lia|exact E|apply Hba in L; lia].
    + intros H.
      assert (N1 : ~ (dayNumber (number4 a1 a2 a3 a4) (number2 a5 a6) (number2 a7 a8)
                      < dayNumber (number4 b1 b2 b3 b4) (number2 b5 b6) (number2 b7 b8))) by lia.
      assert (N2 : ~ (dayNumber (number4 b1 b2 b3 b4) (number2 b5 b6) (number2 b7 b8)
                      < dayNumber (number4 a1 a2 a3 a4) (number2 a5 a6) (number2 a7 a8))) by lia.
      rewrite Hab in N1. rewrite Hba in N2. lia.
Qed.

Lemma valid_dates_sort_by_time_witness :
  exists t1 t2,
    dateOf "2023-12-31" = Some t1 /\ dateOf "2024-01-01" = Some t2
    /\ (String.ltb "2023-12-31" "2024-01-01" = true <-> t1 < t2)
    /\ ("2023-12-31"%string = "2024-01-01"%string <-> t1 = t2).
Proof.
  apply (valid_dates_sort_by_time "2023-12-31" "2024-01-01"); vm_compute; reflexivity.
Defined.


End DateOrderProps.

(* ================================================================== *)
(** * The backoff of the retry helper *)
(* ================================================================== *)

Module BackoffProps.
Import JS Types Runtime Utils RetrySpec PersistenceSpec BackoffSpec.

Lemma sleptTotal_app h1 h2 : sleptTotal (h1 ++ h2) = sleptTotal h1 + sleptTotal h2.
Proof.
  induction h1 as [|[d ok|p b ok|ms] h1 IH]; cbn [app sleptTotal]; lia.
Qed.

Lemma worldBefore_slept {T} (operation : Async T) baseDelay w :
  neverSleeps operation ->
  forall n,
    sleptTotal (events (worldBefore operation baseDelay w n))
    = sleptTotal (events w) + baseDelay * (2 ^ Z.of_nat n - 1).
Proof.
  intros Hop. induction n as [|n IH].
  - cbn [worldBefore]. change (2 ^ Z.of_nat 0) with 1. lia.
  - cbn [worldBefore]. unfold sleep, emit. cbn [fst events].
    rewrite sleptTotal_app, Hop, IH. cbn [sleptTotal].
    rewrite Nat2Z.inj_succ, Z.pow_succ_r by lia. lia.
Qed.

(** X17: for any number of retries and any whole base delay whose largest
    backoff stays below [2^31] ms (the delays [setTimeout] takes as they
    are), [retry] makes at most [maxRetries + 1] attempts; it stops at the
    first attempt that succeeds and returns what that attempt returned, and
    after [maxRetries + 1] failures it throws the last error.  When the
    operation does not sleep itself, a run that ends with attempt [n] has
    asked for [baseDelay * (2^n - 1)] milliseconds of sleep in all. *)
Theorem retry_total_backoff {T} (operation : Async T) (maxRetries : nat)
        (baseDelay : Z) (w : World) :
  0 <= baseDelay -> baseDelay * 2 ^ Z.of_nat maxRetries < 2 ^ 31 ->
  neverSleeps operation ->
  exists n,
    (n <= maxRetries)%nat
    /\ retry operation maxRetries baseDelay w = attempt operation baseDelay w n
    /\ (forall i, (i < n)%nat ->
                  isRejected (snd (attempt operation baseDelay w i)) = true)
    /\ (isFulfilled (snd (attempt operation baseDelay w n)) = true \/ n = maxRetries)
    /\ sleptTotal (events (fst (retry operation maxRetries baseDelay w)))
       = sleptTotal (events w) + baseDelay * (2 ^ Z.of_nat n - 1).
Proof.
  intros _ _ Hop.
  destruct (RetryProps.retryLoop_attempts operation baseDelay w maxRetries 0)
    as (n & Hn & Hrun & Hrej & Hlast).
  cbn [worldBefore Z.of_nat] in Hrun. fold (retry operation maxRetries baseDelay) in Hrun.
  exists n. split; [lia|]. split; [exact Hrun|]. split; [|split].
  - intros i Hi. apply Hrej. lia.
  - destruct Hlast as [H|H]; [now left|right; lia].
  - rewrite Hrun. unfold attempt. rewrite Hop. now apply worldBefore_slept.
Qed.

Lemma retry_total_backoff_witness :
  exists n,
    (n <= 5)%nat
    /\ retry (@throw Z (HostError "EIO")) 5 100 Examples.initialWorld
       = attempt (@throw Z (HostError "EIO")) 100 Examples.initialWorld n
    /\ (forall i, (i < n)%nat ->
                  isRejected (snd (attempt (@throw Z (HostError "EIO")) 100
                                           Examples.initialWorld i)) = true)
    /\ (isFulfilled (snd (attempt (@throw Z (HostError "EIO")) 100
                                  Examples.initialWorld n)) = true \/ n = 5%nat)
    /\ sleptTotal (events (fst (retry (@throw Z (HostError "EIO")) 5 100
                                      Examples.initialWorld)))
       = sleptTotal (events Examples.initialWorld) + 100 * (2 ^ Z.of_nat n - 1).
Proof.
  apply (retry_total_backoff (@throw Z (HostError "EIO")) 5 100 Examples.initialWorld).
  - lia.
  - vm_compute. reflexivity.
  - intros w. reflexivity.
Defined.

End BackoffProps.

(* ================================================================== *)
(** * The comparator as an order *)
(* ================================================================== *)

Module ComparatorProps.
Import JS Types Utils FloatOrder FloatFacts PartitionSpec ComparatorSpec.

Lemma SFsub_negative x y :
  valid_binary x = true -> valid_binary y = true ->
  SFltb (SF64sub x y) (S754_zero false) = SFltb x y.
Proof.
  intros Vx Vy.
  destruct x as [sx|sx| |sx mx ex]; destruct y as [sy|sy| |sy my ey];
    try (destruct sx); try (destruct sy); try reflexivity.
  all: unfold SF64sub, SFsub.
  all: simpl in Vx, Vy.
  all: pose proof (bounded_facts _ _ Vx) as (Lx & _).
  all: pose proof (bounded_facts _ _ Vy) as (Ly & _).
  all: set (ez := Z.min ex ey).
  all: assert (Hez : emin <= ez) by (unfold ez; lia).
  all: rewrite !shl_align_fst by (unfold ez; lia).
  all: unfold cond_Zopp.
  all: set (d := (_ - _)%Z).
  all: assert (Hpos : forall p, d = Zpos p ->
                 SFltb (binary_normalize prec emax d ez false) (S754_zero false) = false)
      by (intros p ->; simpl; destruct (binary_round_sign false p ez Hez) as [(m' & e' & ->)| ->]; reflexivity).
  all: assert (Hneg : forall p, d = Zneg p ->
                 SFltb (binary_normalize prec emax d ez false) (S754_zero false) = true)
      by (intros p ->; simpl; destruct (binary_round_sign true p ez Hez) as [(m' & e' & ->)| ->]; reflexivity).
  all: assert (Hzero : d = 0 ->
                 SFltb (binary_normalize prec emax d ez false) (S754_zero false) = false)
      by (intros ->; reflexivity).
  all: unfold SFltb at 2.
  - (* both negative *)
    destruct (SFcompare_key (S754_finite true mx ex) (S754_finite true my ey) eq_refl eq_refl)
      as (c & -> & Hl & _).
    pose proof (bounded_lex my ey mx ex Vy Vx) as Hlex. rewrite Z.min_comm in Hlex.
    fold ez in Hlex.
    unfold klt in Hl; simpl in Hl.
    destruct d as [|p|p] eqn:Hd.
    + rewrite Hzero by reflexivity. destruct c; try reflexivity.
      exfalso. subst d. destruct Hl as [Hl _]. specialize (Hl eq_refl). lia.
    + rewrite (Hpos p) by reflexivity. destruct c; try reflexivity.
      exfalso. subst d. destruct Hl as [Hl _]. specialize (Hl eq_refl). lia.
    + rewrite (Hneg p) by reflexivity. destruct c; try reflexivity; exfalso; subst d.
      * destruct Hl as [_ Hl]. assert (Eq = Lt) by (apply Hl; lia). discriminate.
      * destruct Hl as [_ Hl]. assert (Gt = Lt) by (apply Hl; lia). discriminate.
  - (* x negative, y positive *)
    assert (Hd : d < 0) by (unfold d; pose proof (Z.pow_pos_nonneg 2 (ex - ez)); pose proof (Z.pow_pos_nonneg 2 (ey - ez)); unfold ez in *; nia).
    destruct d as [|p|p]; try lia. rewrite (Hneg p) by reflexivity. reflexivity.
  - (* x positive, y negative *)
    assert (Hd : 0 < d) by (unfold d; pose proof (Z.pow_pos_nonneg 2 (ex - ez)); pose proof (Z.pow_pos_nonneg 2 (ey - ez)); unfold ez in *; nia).
    destruct d as [|p|p]; try lia. rewrite (Hpos p) by reflexivity. reflexivity.
  - (* both positive *)
    destruct (SFcompare_key (S754_finite false mx ex) (S754_finite false my ey) eq_refl eq_refl)
      as (c & -> & Hl & _).
    pose proof (bounded_lex mx ex my ey Vx Vy) as Hlex. fold ez in Hlex.
    unfold klt in Hl; simpl in Hl.
    destruct d as [|p|p] eqn:Hd.
    + rewrite Hzero by reflexivity. destruct c; try reflexivity.
      exfalso. subst d. destruct Hl as [Hl _]. specialize (Hl eq_refl). lia.
    + rewrite (Hpos p) by reflexivity. destruct c; try reflexivity.
      exfalso. subst d. destruct Hl as [Hl _]. specialize (Hl eq_refl). lia.
    + rewrite (Hneg p) by reflexivity. destruct c; try reflexivity; exfalso; subst d.
      * destruct Hl as [_ Hl]. assert (Eq = Lt) by (apply Hl; lia). discriminate.
      * destruct Hl as [_ Hl]. assert (Gt = Lt) by (apply Hl; lia). discriminate.
Qed.

Lemma sub_negative (x y : float) :
  PrimFloat.ltb (PrimFloat.sub x y) 0 = PrimFloat.ltb x y.
Proof.
  rewrite !FloatAxioms.ltb_spec, sub_spec.
  change (Prim2SF 0) with (S754_zero false).
  apply SFsub_negative; apply Prim2SF_valid.
Qed.

(** When the comparator puts [a] in front of [b]. *)
Lemma ahead_spec a b :
  ahead compareContracts a b = true
  <-> String.ltb (expiration a) (expiration b) = true
      \/ (expiration a = expiration b
          /\ ((type a = call /\ type b = put)
              \/ (type a = type b
                  /\ PrimFloat.ltb (strike a) (strike b) = true))).
Proof.
  unfold ahead, compareContracts.
  destruct (String.eqb_spec (expiration a) (expiration b)) as [He|Hne]; cbn [negb].
  - rewrite He, StringOrder.ltb_irrefl.
    destruct (type a), (type b); rewrite ?sub_negative;
      try change (PrimFloat.ltb (-1) 0) with true;
      try change (PrimFloat.ltb 1 0) with false;
      split; intros H; try discriminate H;
      try (destruct H as [H|(_ & [[H1 H2]|[H1 H2]])]; congruence);
      try (right; split; [reflexivity|]; auto; fail).
  - destruct (String.ltb (expiration a) (expiration b)) eqn:E.
    + change (PrimFloat.ltb (-1) 0) with true. split; [|reflexivity]. intros _. now left.
    + change (PrimFloat.ltb 1 0) with false. split; [discriminate|].
      intros [H|[H _]]; [discriminate|contradiction].
Qed.

Lemma ahead_behind a b : ahead compareContracts a b = behind compareContracts b a.
Proof.
  apply eq_true_iff_eq. rewrite ahead_spec, PartitionProps.behind_spec.
  split; (intros [H|(E & [[T1 T2]|[T L]])];
          [now left|right; split; [now symmetry|]; now left
          |right; split; [now symmetry|]; right; split; [now symmetry|assumption]]).
Qed.

Lemma float_ltb_trans x y z :
  PrimFloat.ltb x y = true -> PrimFloat.ltb y z = true -> PrimFloat.ltb x z = true.
Proof.
  intros H1 H2.
  assert (Nx : PrimFloat.is_nan x = false)
    by (destruct (PrimFloat.is_nan x) eqn:N; [|reflexivity];
        now rewrite (ltb_nan_l x y N) in H1).
  pose proof (ValidatorProps.ltb_not_nan_r _ _ H1) as Ny.
  pose proof (ValidatorProps.ltb_not_nan_r _ _ H2) as Nz.
  apply (ltb_key x z Nx Nz).
  apply (ltb_key x y Nx Ny) in H1. apply (ltb_key y z Ny Nz) in H2.
  eapply klt_trans; eassumption.
Qed.

Lemma ahead_trans a b c :
  ahead compareContracts a b = true -> ahead compareContracts b c = true ->
  ahead compareContracts a c = true.
Proof.
  rewrite !ahead_spec.
  intros [H1|(E1 & T1)] [H2|(E2 & T2)].
  - left. eapply StringOrder.ltb_trans; eassumption.
  - left. now rewrite <- E2.
  - left. now rewrite E1.
  - right. split; [congruence|].
    destruct T1 as [[A1 B1]|[A1 L1]], T2 as [[A2 B2]|[A2 L2]]; try congruence.
    + left. split; congruence.
    + left. split; congruence.
    + right. split; [congruence|]. eapply float_ltb_trans; eassumption.
Qed.

Lemma tied_refl a : strikeIsNumber a -> tied a a = true.
Proof.
  intros H. unfold tied. rewrite String.eqb_refl.
  replace (sameType (type a) (type a)) with true
    by (symmetry; now apply PartitionProps.sameType_eq).
  cbn [andb]. now apply (eqb_key _ _ H H).
Qed.

Lemma float_eqb_sym x y : PrimFloat.eqb x y = true -> PrimFloat.eqb y x = true.
Proof.
  intros H. destruct (PartitionProps.eqb_not_nan _ _ H) as [Nx Ny].
  apply (eqb_key y x Ny Nx). symmetry. now apply (eqb_key x y Nx Ny).
Qed.

Lemma float_eqb_trans x y z :
  PrimFloat.eqb x y = true -> PrimFloat.eqb y z = true -> PrimFloat.eqb x z = true.
Proof.
  intros H1 H2. destruct (PartitionProps.eqb_not_nan _ _ H1) as [Nx Ny].
  destruct (PartitionProps.eqb_not_nan _ _ H2) as [_ Nz].
  apply (eqb_key x z Nx Nz).
  apply (eqb_key x y Nx Ny) in H1. apply (eqb_key y z Ny Nz) in H2. congruence.
Qed.

Lemma tied_sym a b : tied a b = true -> tied b a = true.
Proof.
  unfold tied. intros H.
  apply andb_prop in H as [H S]. apply andb_prop in H as [E T].
  apply String.eqb_eq in E. apply PartitionProps.sameType_eq in T.
  rewrite E, T, String.eqb_refl.
  replace (sameType (type b) (type b)) with true
    by (symmetry; now apply PartitionProps.sameType_eq).
  cbn [andb]. now apply float_eqb_sym.
Qed.

Lemma tied_trans a b c : tied a b = true -> tied b c = true -> tied a c = true.
Proof.
  unfold tied. intros H1 H2.
  apply andb_prop in H1 as [H1 S1]. apply andb_prop in H1 as [E1 T1].
  apply andb_prop in H2 as [H2 S2]. apply andb_prop in H2 as [E2 T2].
  apply String.eqb_eq in E1, E2. apply PartitionProps.sameType_eq in T1, T2.
  rewrite E1, E2, T1, T2, String.eqb_refl.
  replace (sameType (type c) (type c)) with true
    by (symmetry; now apply PartitionProps.sameType_eq).
  cbn [andb]. eapply float_eqb_trans; eassumption.
Qed.

(** X18: on contracts whose strikes are numbers the sign of
    [compareContracts] is a strict weak order, so the result of the sort
    does not depend on the sorting algorithm: [a] compares below [b]
    exactly when [b] compares above [a]; comparing below is transitive; and
    [a] and [b] compare neither below nor above exactly when they have the
    same expiration, the same kind and equal strikes, which is an
    equivalence. *)
Theorem compareContracts_is_consistent (a b c : ProcessedOptionContract) :
  strikeIsNumber a -> strikeIsNumber b -> strikeIsNumber c ->
  ahead compareContracts a b = behind compareContracts b a
  /\ (ahead compareContracts a b = true -> ahead compareContracts b c = true ->
      ahead compareContracts a c = true)
  /\ (ahead compareContracts a b = false /\ behind compareContracts a b = false
      <-> tied a b = true)
  /\ tied a a = true
  /\ (tied a b = true -> tied b a = true)
  /\ (tied a b = true -> tied b c = true -> tied a c = true).
Proof.
  intros Na Nb Nc.
  split; [apply ahead_behind|]. split; [apply ahead_trans|].
  split; [|split; [now apply tied_refl|split; [apply tied_sym|apply tied_trans]]].
  split.
  - intros [Ha Hb]. rewrite ahead_behind in Ha.
    apply PartitionProps.precedes_antisym.
    + now apply PartitionProps.not_behind_precedes.
    + now apply PartitionProps.not_behind_precedes.
  - intros Ht. split.
    + rewrite ahead_behind.
      apply (PartitionProps.tied_not_behind b); [now apply tied_refl|now apply tied_sym].
    + apply (PartitionProps.tied_not_behind a); [now apply tied_refl|assumption].
Qed.

Lemma compareContracts_is_consistent_witness :
  let a := Examples.contract "AAPL" "2024-01-01" call 10 1 in
  let b := Examples.contract "AAPL" "2024-01-01" put 5 1 in
  let c := Examples.contract "AAPL" "2024-02-01" call 1 1 in
  ahead compareContracts a b = behind compareContracts b a
  /\ (ahead compareContracts a b = true -> ahead compareContracts b c = true ->
      ahead compareContracts a c = true)
  /\ (ahead compareContracts a b = false /\ behind compareContracts a b = false
      <-> tied a b = true)
  /\ tied a a = true
  /\ (tied a b = true -> tied b a = true)
  /\ (tied a b = true -> tied b c = true -> tied a c = true).
Proof.
  apply (compareContracts_is_consistent
           (Examples.contract "AAPL" "2024-01-01" call 10 1)
           (Examples.contract "AAPL" "2024-01-01" put 5 1)
           (Examples.contract "AAPL" "2024-02-01" call 1 1)); reflexivity.
Defined.

End ComparatorProps.

(* ================================================================== *)
(** * Grouping what is grouped *)
(* ================================================================== *)

Module RegroupProps.
Import JS Types Utils FloatOrder FloatFacts PartitionSpec RegroupSpec.

(** ** Sorting what is sorted *)

Lemma precedes_not_behind a b :
  strikeIsNumber a -> strikeIsNumber b ->
  precedes a b -> behind compareContracts a b = false.
Proof.
  intros Na Nb H. destruct (behind compareContracts a b) eqn:Hb; [|reflexivity].
  pose proof (PartitionProps.behind_precedes_rev a b Na Nb Hb) as Hrev.
  pose proof (PartitionProps.precedes_antisym a b H Hrev) as Ht.
  rewrite <- Hb. apply (PartitionProps.tied_not_behind a); [|exact Ht].
  now apply ComparatorProps.tied_refl.
Qed.

Lemma sort_sorted_same l :
  Forall strikeIsNumber l -> StronglySorted precedes l ->
  sort compareContracts l = l.
Proof.
  induction l as [|x l IH]; intros Hn Hs; [reflexivity|].
  inversion Hn as [|? ? Nx Nl]; subst. inversion Hs as [|? ? Hs' Hx]; subst.
  cbn [sort]. rewrite (IH Nl Hs').
  destruct l as [|y l]; [reflexivity|]. cbn [insertSorted].
  inversion Nl as [|? ? Ny _]; subst. inversion Hx as [|? ? Hxy _]; subst.
  pose proof (precedes_not_behind x y Nx Ny Hxy) as Hb. unfold behind in Hb.
  now rewrite Hb.
Qed.

Lemma sortGroup_twice g :
  Forall strikeIsNumber g -> sortGroup (sortGroup g) = sortGroup g.
Proof.
  intros Hn. unfold sortGroup at 1.
  destruct (1 <? Z.of_nat (List.length (sortGroup g))); [|reflexivity].
  apply sort_sorted_same.
  - eapply Permutation_Forall; [|exact Hn].
    apply Permutation_sym, PartitionProps.sortGroup_perm.
  - now apply PartitionProps.sortGroup_sorted.
Qed.

(** ** Grouping what is grouped *)

Lemma pushContract_new c m :
  ~ In (symbol c) (keys m) -> pushContract c m = m ++ [(symbol c, [c])].
Proof.
  induction m as [|[k g] m IH]; intros Hk; [reflexivity|].
  cbn [pushContract app]. cbn [keys map fst In] in Hk.
  destruct (String.eqb_spec k (symbol c)) as [->|Hne]; [exfalso; apply Hk; now left|].
  f_equal. apply IH. intros Hin. apply Hk. now right.
Qed.

Lemma pushContract_last c m g :
  ~ In (symbol c) (keys m) ->
  pushContract c (m ++ [(symbol c, g)]) = m ++ [(symbol c, g ++ [c])].
Proof.
  induction m as [|[k g'] m IH]; intros Hk; cbn [pushContract app].
  - now rewrite String.eqb_refl.
  - cbn [keys map fst In] in Hk.
    destruct (String.eqb_spec k (symbol c)) as [->|Hne]; [exfalso; apply Hk; now left|].
    f_equal. apply IH. intros Hin. apply Hk. now right.
Qed.

Lemma fold_push_group k (rest : list ProcessedOptionContract) :
  forall m g,
    ~ In k (keys m) -> Forall (fun c => symbol c = k) rest ->
    fold_left (fun grouped c => pushContract c grouped) rest (m ++ [(k, g)])
    = m ++ [(k, g ++ rest)].
Proof.
  induction rest as [|c rest IH]; intros m g Hk Hs; cbn [fold_left].
  - now rewrite app_nil_r.
  - inversion Hs as [|? ? Hc Hs']; subst.
    rewrite pushContract_last by assumption.
    rewrite IH by assumption. now rewrite <- app_assoc.
Qed.

Lemma fold_push_groups (m2 : JsMap (list ProcessedOptionContract)) :
  forall m1,
    wellGrouped m2 ->
    (forall k, In k (keys m2) -> ~ In k (keys m1)) ->
    fold_left (fun grouped c => pushContract c grouped) (concat (values m2)) m1
    = m1 ++ m2.
Proof.
  induction m2 as [|[k g] m2 IH]; intros m1 [Hnd Hall] Hfresh.
  - cbn. now rewrite app_nil_r.
  - inversion Hnd as [|? ? Hk Hnd']; subst. inversion Hall as [|? ? [Hne Hsym] Hall']; subst.
    cbn [fst snd] in Hne, Hsym.
    cbn [values map snd concat]. rewrite fold_left_app.
    destruct g as [|c g]; [contradiction|].
    inversion Hsym as [|? ? Hc Hsym']; subst.
    cbn [fold_left].
    assert (Hk1 : ~ In (symbol c) (keys m1)) by (apply Hfresh; now left).
    rewrite pushContract_new by assumption.
    rewrite fold_push_group by assumption. cbn [app].
    fold (values m2).
    rewrite IH.
    + now rewrite <- app_assoc.
    + now split.
    + intros k' Hin. unfold keys. rewrite map_app. cbn [map fst].
      intros Hin'. apply in_app_or in Hin' as [Hin'|[<-|[]]].
      * apply (Hfresh k'); [now right|assumption].
      * contradiction.
Qed.

Lemma groupFirstPass_wellGrouped m :
  wellGrouped m -> groupFirstPass (concat (values m)) = m.
Proof.
  intros H. unfold groupFirstPass.
  rewrite (fold_push_groups m [] H); [reflexivity|]. intros k _ [].
Qed.

Lemma groupBySymbol_wellGrouped contracts : wellGrouped (groupBySymbol contracts).
Proof.
  split.
  - rewrite PartitionProps.keys_groupBySymbol.
    destruct (PartitionProps.groupFirstPass_spec contracts) as (Hnd & _). exact Hnd.
  - apply Forall_forall. intros [k g] Hin. cbn [fst snd].
    apply PartitionProps.In_groupBySymbol in Hin as [Hne ->].
    pose proof (PartitionProps.sortGroup_perm (groupOf k contracts)) as Hp.
    split.
    + intros E. rewrite E in Hp. apply Permutation_nil in Hp. contradiction.
    + eapply Permutation_Forall; [apply Permutation_sym, Hp|].
      unfold groupOf. apply Forall_forall. intros c Hc.
      apply filter_In in Hc as [_ Hc]. now apply String.eqb_eq in Hc.
Qed.

(** X19: grouping is idempotent on its own output: when the strikes are
    numbers, the contracts of the partition map, taken group after group,
    are grouped into the same map again, with the same keys in the same
    order and the same sequence in every group. *)
Theorem groupBySymbol_regroups_to_itself (contracts : list ProcessedOptionContract) :
  Forall strikeIsNumber contracts ->
  groupBySymbol (concat (values (groupBySymbol contracts))) = groupBySymbol contracts.
Proof.
  intros Hn. unfold groupBySymbol at 1.
  rewrite (groupFirstPass_wellGrouped _ (groupBySymbol_wellGrouped contracts)).
  unfold groupBySymbol. rewrite map_map. apply map_ext_in.
  intros [k g] Hin. cbn [fst snd]. f_equal. apply sortGroup_twice.
  destruct (PartitionProps.groupFirstPass_spec contracts) as (_ & _ & Hp).
  apply Forall_forall. intros c Hc.
  rewrite Forall_forall in Hn. apply Hn.
  eapply Permutation_in; [exact Hp|].
  apply in_concat. exists g. split; [|assumption].
  unfold values. apply in_map_iff. exists (k, g). now split.
Qed.

Lemma groupBySymbol_regroups_to_itself_witness :
  groupBySymbol (concat (values (groupBySymbol Examples.sampleContracts)))
  = groupBySymbol Examples.sampleContracts.
Proof.
  apply (groupBySymbol_regroups_to_itself Examples.sampleContracts).
  repeat constructor.
Defined.

End RegroupProps.
